(** * RigidBodyTree: a shallow embedding of
      [src/MultibodyComputation/SimbodyRigidBodies/RigidBodyTree.cpp]

    The file follows the translation unit from top to bottom:
    - [SBStateModel]: the state container [SBState] (copy constructor and
      assignment) over an explicit heap of owned sub-objects;
    - [Kinematics]: [RBStation] and [RBDistanceConstraint], generic in the
      scalar type, instantiated with IEEE binary64;
    - [Tree]: [RigidBodyTree] construction, finalisation and the level sweeps,
      as a state-and-error monad over the tree, the node heap and the log of
      calls made on the collaborators (nodes and the constraint solver);
    - [Scenarios]: a chain of two bodies on ground, a distance constraint and
      a state container, on which the theorems are run. *)

From Stdlib Require Import ZArith Floats.
From stdpp Require Import base option list gmap.

Set Default Proof Using "Type".

(** ** Outcomes of a C++ call

    [Ok] is a normal return.  [AssertFail] is a failed [assert] (the program
    aborts: a rejected call).  [Undefined] is behaviour the language leaves
    undefined: dereferencing a null or dangling pointer, indexing a vector out
    of range, signed overflow of an [int]. *)
Inductive outcome (A : Type) : Type :=
| Ok (a : A)
| AssertFail
| Undefined.
Arguments Ok {A} a.
Arguments AssertFail {A}.
Arguments Undefined {A}.

Definition is_Ok {A} (o : outcome A) : Prop := exists a, o = Ok a.

Definition outcome_bind {A B} (o : outcome A) (k : A -> outcome B) : outcome B :=
  match o with
  | Ok a => k a
  | AssertFail => AssertFail
  | Undefined => Undefined
  end.

(** State and error monad: a member function is a function of the memory it
    may touch. *)
Definition M (S A : Type) : Type := S -> outcome (A * S).

Definition ret {S A} (a : A) : M S A := fun s => Ok (a, s).

Definition bind {S A B} (c : M S A) (k : A -> M S B) : M S B :=
  fun s => match c s with
           | Ok (a, s') => k a s'
           | AssertFail => AssertFail
           | Undefined => Undefined
           end.

Definition get {S} : M S S := fun s => Ok (s, s).
Definition put {S} (s : S) : M S unit := fun _ => Ok (tt, s).
Definition modify {S} (f : S -> S) : M S unit := fun s => Ok (tt, f s).
Definition undefined {S A} : M S A := fun _ => Undefined.
Definition cxx_assert {S} (b : bool) : M S unit :=
  fun s => if b then Ok (tt, s) else AssertFail.
(** Lift a partial read: [None] is an invalid access. *)
Definition defined {S A} (o : option A) : M S A :=
  match o with Some a => ret a | None => undefined end.

Notation "x <- c ;; k" := (bind c (fun x => k))
  (at level 100, c at next level, right associativity).
Notation "c ;;; k" := (bind c (fun _ => k))
  (at level 100, right associativity).

(** Addresses of heap objects. *)
Abbreviation loc := positive.

(** [new T(x)]: a fresh address holding a copy of [x]. *)
Definition cxx_new {A} (x : A) (h : gmap loc A) : loc * gmap loc A :=
  let p := fresh (dom h) in (p, <[p := x]> h).

(** [delete p]: nothing for a null pointer, the object is destroyed for a live
    one, undefined for a dangling one. *)
Definition cxx_delete {A} (p : option loc) (h : gmap loc A) : outcome (gmap loc A) :=
  match p with
  | None => Ok h
  | Some q => match h !! q with
              | Some _ => Ok (delete q h)
              | None => Undefined
              end
  end.

(** [p ? new T( *p ) : 0], the idiom of both copy operations. *)
Definition cxx_clone {A} (p : option loc) (h : gmap loc A)
  : outcome (option loc * gmap loc A) :=
  match p with
  | None => Ok (None, h)
  | Some q => match h !! q with
              | Some x => let '(r, h') := cxx_new x h in Ok (Some r, h')
              | None => Undefined
              end
  end.

Lemma cxx_new_fresh {A} (x : A) (h : gmap loc A) p h' :
  cxx_new x h = (p, h') -> h !! p = None /\ h' = <[p := x]> h.
Proof.
  unfold cxx_new. intros [= <- <-]. split; [|done].
  apply not_elem_of_dom, is_fresh.
Qed.

Lemma cxx_clone_null {A} (h : gmap loc A) : cxx_clone None h = Ok (None, h).
Proof. reflexivity. Qed.

Lemma cxx_clone_live {A} (h : gmap loc A) q x :
  h !! q = Some x ->
  exists r, cxx_clone (Some q) h = Ok (Some r, <[r := x]> h)
            /\ h !! r = None /\ r <> q.
Proof.
  intros Hq. unfold cxx_clone. rewrite Hq. simpl.
  exists (fresh (dom h)). split; [done|].
  assert (h !! fresh (dom h) = None) as Hf by apply not_elem_of_dom, is_fresh.
  split; [done|]. intros Heq. rewrite Heq in Hf. congruence.
Qed.

(** ** SBState: the state container (lines 13-30 of the source)

    An [SBState] owns two optional heap objects, [vars] and [cache].  The
    classes [SimbodyTreeVariables] and [SimbodyTreeResults] are declared in
    headers outside this translation unit; they are type parameters here and
    their copy constructors copy the value. *)
Module SBStateModel.
Section SBState.
Context {SimbodyTreeVariables SimbodyTreeResults : Type}.

(** The two data members; [None] is the null pointer. *)
Record SBState : Type := mkSBState {
  vars : option loc;
  cache : option loc
}.

(** Typed heaps: the sub-objects and the containers themselves (a container
    has an address, which [operator=] compares). *)
Record Memory : Type := mkMemory {
  varsHeap : gmap loc SimbodyTreeVariables;
  cacheHeap : gmap loc SimbodyTreeResults;
  stateHeap : gmap loc SBState
}.

(** [SBState::SBState(const SBState& src) : vars(0), cache(0)]: constructs a
    new container and returns its address. *)
Definition SBState_copy (src : loc) : M Memory loc := fun m =>
  match stateHeap m !! src with
  | None => Undefined
  | Some s =>
    outcome_bind (cxx_clone (vars s) (varsHeap m)) (fun '(v, vh) =>
    outcome_bind (cxx_clone (cache s) (cacheHeap m)) (fun '(c, ch) =>
    let '(this, sh) := cxx_new (mkSBState v c) (stateHeap m) in
    Ok (this, mkMemory vh ch sh)))
  end.

(** [SBState& SBState::operator=(const SBState& src)].  The address test comes
    first: nothing is read or written when [&src == this]. *)
Definition SBState_assign (this src : loc) : M Memory unit := fun m =>
  if decide (src <> this) then
    match stateHeap m !! this, stateHeap m !! src with
    | Some t, Some s =>
      (* delete vars; delete cache; vars = 0; cache = 0; *)
      outcome_bind (cxx_delete (vars t) (varsHeap m)) (fun vh0 =>
      outcome_bind (cxx_delete (cache t) (cacheHeap m)) (fun ch0 =>
      (* if (src.vars) vars = new SimbodyTreeVariables( *src.vars ); *)
      outcome_bind (cxx_clone (vars s) vh0) (fun '(v, vh) =>
      (* if (src.cache) cache = new SimbodyTreeResults( *src.cache ); *)
      outcome_bind (cxx_clone (cache s) ch0) (fun '(c, ch) =>
      Ok (tt, mkMemory vh ch (<[this := mkSBState v c]> (stateHeap m)))))))
    | _, _ => Undefined
    end
  else Ok (tt, m).

(** Client code writing through the container's pointers: [*s.vars = x] and
    [*s.cache = y]. *)
Definition store_vars (a : loc) (x : SimbodyTreeVariables) : M Memory unit := fun m =>
  match stateHeap m !! a with
  | Some s =>
    match vars s with
    | Some p =>
      match varsHeap m !! p with
      | Some _ => Ok (tt, mkMemory (<[p := x]> (varsHeap m)) (cacheHeap m) (stateHeap m))
      | None => Undefined
      end
    | None => Undefined
    end
  | None => Undefined
  end.

Definition store_cache (a : loc) (y : SimbodyTreeResults) : M Memory unit := fun m =>
  match stateHeap m !! a with
  | Some s =>
    match cache s with
    | Some p =>
      match cacheHeap m !! p with
      | Some _ => Ok (tt, mkMemory (varsHeap m) (<[p := y]> (cacheHeap m)) (stateHeap m))
      | None => Undefined
      end
    | None => Undefined
    end
  | None => Undefined
  end.

(** What a pointer member currently denotes: [Some None] for null,
    [Some (Some x)] for a live object of value [x], [None] when dangling. *)
Definition pointee {A} (p : option loc) (h : gmap loc A) : option (option A) :=
  match p with
  | None => Some None
  | Some q => match h !! q with
              | Some x => Some (Some x)
              | None => None
              end
  end.

(** The value of a container: the values of its two sub-objects. *)
Definition snapshot (m : Memory) (a : loc)
  : option (option SimbodyTreeVariables * option SimbodyTreeResults) :=
  match stateHeap m !! a with
  | Some s =>
    match pointee (vars s) (varsHeap m), pointee (cache s) (cacheHeap m) with
    | Some v, Some c => Some (v, c)
    | _, _ => None
    end
  | None => None
  end.

(** Exclusive ownership, the class invariant the destructor relies on: every
    non-null member points to a live object and no two containers share one. *)
Definition owned (m : Memory) : Prop :=
  (forall a s, stateHeap m !! a = Some s ->
     (forall p, vars s = Some p -> is_Some (varsHeap m !! p)) /\
     (forall p, cache s = Some p -> is_Some (cacheHeap m !! p))) /\
  (forall a b s t, a <> b ->
     stateHeap m !! a = Some s -> stateHeap m !! b = Some t ->
     (forall p, vars s = Some p -> vars t <> Some p) /\
     (forall p, cache s = Some p -> cache t <> Some p)).

(** [dst] in [m'] is a deep copy of [src] in [m]. *)
Definition deep_copy (m : Memory) (src : loc) (m' : Memory) (dst : loc) : Prop :=
  exists s d,
    stateHeap m !! src = Some s /\ stateHeap m' !! src = Some s /\
    stateHeap m' !! dst = Some d /\
    (* a null member stays null, a present member stays present *)
    (vars s = None <-> vars d = None) /\
    (cache s = None <-> cache d = None) /\
    (* no sub-object is shared *)
    (forall p, vars s = Some p -> vars d <> Some p) /\
    (forall p, cache s = Some p -> cache d <> Some p) /\
    (* the copy has the value of the original, which is unchanged *)
    snapshot m' src = snapshot m src /\
    snapshot m' dst = snapshot m src /\
    is_Some (snapshot m src) /\
    (* writing through the copy leaves the original alone *)
    (forall x m'', store_vars dst x m' = Ok (tt, m'') ->
                   snapshot m'' src = snapshot m src) /\
    (forall y m'', store_cache dst y m' = Ok (tt, m'') ->
                   snapshot m'' src = snapshot m src) /\
    (forall x, vars d <> None -> is_Ok (store_vars dst x m')) /\
    (forall y, cache d <> None -> is_Ok (store_cache dst y m')).


(** *** Facts about one typed heap *)

Lemma pointee_null {A} (h : gmap loc A) : pointee None h = Some None.
Proof. reflexivity. Qed.

Lemma pointee_live {A} (h : gmap loc A) a x :
  h !! a = Some x -> pointee (Some a) h = Some (Some x).
Proof. intros H. simpl. by rewrite H. Qed.

Lemma cxx_delete_live {A} (p : option loc) (h : gmap loc A) :
  (forall a, p = Some a -> is_Some (h !! a)) ->
  exists h0, cxx_delete p h = Ok h0 /\
             forall b, p <> Some b -> h0 !! b = h !! b.
Proof.
  intros Hlive. destruct p as [a|]; simpl.
  - destruct (Hlive a eq_refl) as [x Hx]. rewrite Hx.
    exists (delete a h). split; [done|].
    intros b Hb. apply lookup_delete_ne. congruence.
  - by exists h.
Qed.

(** Cloning a member whose pointee survives in the heap [h0] that is cloned
    into (for assignment, [h0] is the heap after the two [delete]s). *)
Lemma cxx_clone_spec {A} (p : option loc) (h h0 : gmap loc A) v :
  pointee p h = Some v ->
  (forall a, p = Some a -> h0 !! a = h !! a) ->
  exists q h',
    cxx_clone p h0 = Ok (q, h') /\
    (p = None <-> q = None) /\
    (forall a, p = Some a -> q <> Some a) /\
    pointee p h' = Some v /\
    pointee q h' = Some v /\
    (forall b x, q = Some b -> pointee p (<[b := x]> h') = Some v) /\
    (forall b, q = Some b -> is_Some (h' !! b)).
Proof.
  intros Hv Hkeep. destruct p as [a|].
  - simpl in Hv. destruct (h !! a) as [x|] eqn:Hx; [|done].
    injection Hv as <-.
    assert (h0 !! a = Some x) as Hx0 by (rewrite (Hkeep a eq_refl); done).
    destruct (cxx_clone_live h0 a x Hx0) as (r & Hc & Hfresh & Hne).
    exists (Some r), (<[r := x]> h0). split; [done|].
    split; [split; congruence|].
    split; [congruence|].
    split; [simpl; by rewrite lookup_insert_ne, Hx0|].
    split; [simpl; by rewrite lookup_insert_eq|].
    split.
    + intros b y [= <-]. simpl.
      rewrite lookup_insert_ne by done. by rewrite lookup_insert_ne, Hx0.
    + intros b [= <-]. rewrite lookup_insert_eq. eauto.
  - simpl in Hv. injection Hv as <-.
    exists None, h0. repeat split; try done.
Qed.

(** *** The two copy operations *)

Lemma owned_snapshot m a s :
  owned m -> stateHeap m !! a = Some s ->
  exists v c, pointee (vars s) (varsHeap m) = Some v /\
              pointee (cache s) (cacheHeap m) = Some c /\
              snapshot m a = Some (v, c).
Proof.
  intros [Hlive _] Ha. destruct (Hlive a s Ha) as [Hv Hc].
  unfold snapshot. rewrite Ha.
  assert (exists v, pointee (vars s) (varsHeap m) = Some v) as [v Ev].
  { destruct (vars s) as [p|]; simpl; [|eauto].
    destruct (Hv p eq_refl) as [x ->]. eauto. }
  assert (exists c, pointee (cache s) (cacheHeap m) = Some c) as [c Ec].
  { destruct (cache s) as [p|]; simpl; [|eauto].
    destruct (Hc p eq_refl) as [x ->]. eauto. }
  exists v, c. by rewrite Ev, Ec.
Qed.

(** The common end of both operations: the heaps after the two clones, with
    the new container [d] stored at [dst]. *)
Lemma deep_copy_intro m src s dst sh vh ch qv qc v c :
  stateHeap m !! src = Some s ->
  snapshot m src = Some (v, c) ->
  sh !! src = Some s ->
  sh !! dst = Some (mkSBState qv qc) ->
  (vars s = None <-> qv = None) ->
  (cache s = None <-> qc = None) ->
  (forall a, vars s = Some a -> qv <> Some a) ->
  (forall a, cache s = Some a -> qc <> Some a) ->
  pointee (vars s) vh = Some v -> pointee qv vh = Some v ->
  pointee (cache s) ch = Some c -> pointee qc ch = Some c ->
  (forall b x, qv = Some b -> pointee (vars s) (<[b := x]> vh) = Some v) ->
  (forall b y, qc = Some b -> pointee (cache s) (<[b := y]> ch) = Some c) ->
  (forall b, qv = Some b -> is_Some (vh !! b)) ->
  (forall b, qc = Some b -> is_Some (ch !! b)) ->
  deep_copy m src (mkMemory vh ch sh) dst.
Proof.
  intros Hs Hsnap Hsrc Hdst Hnv Hnc Hdv Hdc Pv Qv Pc Qc Wv Wc Lv Lc.
  exists s, (mkSBState qv qc). simpl.
  repeat match goal with |- _ /\ _ => split end; try done.
  - rewrite Hsnap. unfold snapshot; simpl. by rewrite Hsrc, Pv, Pc.
  - rewrite Hsnap. unfold snapshot; simpl. rewrite Hdst; simpl.
    by rewrite Qv, Qc.
  - intros x m''. unfold store_vars; simpl. rewrite Hdst; simpl.
    destruct qv as [b|]; [|done]. destruct (vh !! b); [|done].
    intros [= <-]. rewrite Hsnap. unfold snapshot; simpl.
    by rewrite Hsrc, (Wv b x eq_refl), Pc.
  - intros y m''. unfold store_cache; simpl. rewrite Hdst; simpl.
    destruct qc as [b|]; [|done]. destruct (ch !! b); [|done].
    intros [= <-]. rewrite Hsnap. unfold snapshot; simpl.
    by rewrite Hsrc, Pv, (Wc b y eq_refl).
  - intros x Hq. unfold store_vars, is_Ok; simpl. rewrite Hdst; simpl.
    destruct qv as [b|]; [|done]. destruct (Lv b eq_refl) as [? ->]. eauto.
  - intros y Hq. unfold store_cache, is_Ok; simpl. rewrite Hdst; simpl.
    destruct qc as [b|]; [|done]. destruct (Lc b eq_refl) as [? ->]. eauto.
Qed.

Lemma SBState_copy_deep m src s :
  owned m -> stateHeap m !! src = Some s ->
  exists dst m', SBState_copy src m = Ok (dst, m') /\ dst <> src /\
                 deep_copy m src m' dst.
Proof.
  intros Hown Hs.
  destruct (owned_snapshot m src s Hown Hs) as (v & c & Ev & Ec & Hsnap).
  destruct (cxx_clone_spec (vars s) (varsHeap m) (varsHeap m) v Ev)
    as (qv & vh & Cv & Hnv & Hdv & Pv & Qv & Wv & Lv); [done|].
  destruct (cxx_clone_spec (cache s) (cacheHeap m) (cacheHeap m) c Ec)
    as (qc & ch & Cc & Hnc & Hdc & Pc & Qc & Wc & Lc); [done|].
  set (dst := fresh (dom (stateHeap m))).
  assert (stateHeap m !! dst = None) as Hfresh
    by apply not_elem_of_dom, is_fresh.
  assert (dst <> src) as Hne by (intros E; rewrite E in Hfresh; congruence).
  exists dst, (mkMemory vh ch (<[dst := mkSBState qv qc]> (stateHeap m))).
  split; [|split; [done|]].
  - unfold SBState_copy. rewrite Hs, Cv. simpl. rewrite Cc. reflexivity.
  - eapply deep_copy_intro; eauto.
    + by rewrite lookup_insert_ne.
    + by rewrite lookup_insert_eq.
Qed.

Lemma SBState_assign_deep m this src s t :
  owned m -> this <> src ->
  stateHeap m !! src = Some s -> stateHeap m !! this = Some t ->
  exists m', SBState_assign this src m = Ok (tt, m') /\
             deep_copy m src m' this.
Proof.
  intros Hown Hne Hs Ht.
  destruct (owned_snapshot m src s Hown Hs) as (v & c & Ev & Ec & Hsnap).
  destruct Hown as [Hlive Hexcl].
  destruct (Hlive this t Ht) as [Ltv Ltc].
  destruct (Hexcl src this s t (not_eq_sym Hne) Hs Ht) as [Xv Xc].
  destruct (cxx_delete_live (vars t) (varsHeap m) Ltv) as (vh0 & Dv & Kv).
  destruct (cxx_delete_live (cache t) (cacheHeap m) Ltc) as (ch0 & Dc & Kc).
  destruct (cxx_clone_spec (vars s) (varsHeap m) vh0 v Ev)
    as (qv & vh & Cv & Hnv & Hdv & Pv & Qv & Wv & Lv).
  { intros a Ha. apply Kv. by apply Xv. }
  destruct (cxx_clone_spec (cache s) (cacheHeap m) ch0 c Ec)
    as (qc & ch & Cc & Hnc & Hdc & Pc & Qc & Wc & Lc).
  { intros a Ha. apply Kc. by apply Xc. }
  exists (mkMemory vh ch (<[this := mkSBState qv qc]> (stateHeap m))).
  split.
  - unfold SBState_assign. rewrite decide_True by done.
    rewrite Ht, Hs, Dv. simpl. rewrite Dc. simpl. rewrite Cv. simpl.
    rewrite Cc. reflexivity.
  - eapply deep_copy_intro; eauto.
    + by rewrite lookup_insert_ne.
    + by rewrite lookup_insert_eq.
Qed.

(** C5. Copying a state container, by copy construction or by assignment from
    another container, deep-copies each sub-object that is present (the copy
    has the original's value, shares no object with it, and a write through
    the copy leaves the original unchanged) and keeps null each sub-object
    that is null in the source. *)
Theorem SBState_copy_is_deep m src s :
  owned m -> stateHeap m !! src = Some s ->
  (exists dst m', SBState_copy src m = Ok (dst, m') /\ dst <> src /\
                  deep_copy m src m' dst) /\
  (forall this t, this <> src -> stateHeap m !! this = Some t ->
     exists m', SBState_assign this src m = Ok (tt, m') /\
                deep_copy m src m' this).
Proof.
  intros Hown Hs. split.
  - by apply (SBState_copy_deep m src s).
  - intros this t Hne Ht. by apply (SBState_assign_deep m this src s t).
Qed.

(** C9. Self-assignment returns at once: the whole memory, and with it both
    sub-objects of the container, is exactly what it was; nothing is deleted
    or allocated. *)
Theorem SBState_self_assign m this :
  SBState_assign this this m = Ok (tt, m).
Proof.
  unfold SBState_assign. destruct (decide (this <> this)) as [Hne|_]; [|done].
  by destruct Hne.
Qed.


(** *** The destructor, and what the copy operations keep *)

(** [SBState::~SBState()]: [delete vars; delete cache;], after which the
    storage of the container itself ends. *)
Definition SBState_destroy (this : loc) : M Memory unit := fun m =>
  match stateHeap m !! this with
  | None => Undefined
  | Some t =>
    outcome_bind (cxx_delete (vars t) (varsHeap m)) (fun vh =>
    outcome_bind (cxx_delete (cache t) (cacheHeap m)) (fun ch =>
    Ok (tt, mkMemory vh ch (delete this (stateHeap m)))))
  end.

(** No sub-object without an owner: every live object is the [vars] or the
    [cache] of some container. *)
Definition no_garbage (m : Memory) : Prop :=
  (forall p, is_Some (varsHeap m !! p) ->
     exists a s, stateHeap m !! a = Some s /\ vars s = Some p) /\
  (forall p, is_Some (cacheHeap m !! p) ->
     exists a s, stateHeap m !! a = Some s /\ cache s = Some p).

(** One typed heap [h] against the containers [sh], through the member [f]
    that points into it. *)
Definition member_inv {A} (f : SBState -> option loc) (h : gmap loc A)
    (sh : gmap loc SBState) : Prop :=
  (forall a s p, sh !! a = Some s -> f s = Some p -> is_Some (h !! p)) /\
  (forall a b s t p, a <> b -> sh !! a = Some s -> sh !! b = Some t ->
     f s = Some p -> f t <> Some p) /\
  (forall p, is_Some (h !! p) -> exists a s, sh !! a = Some s /\ f s = Some p).

Lemma owned_no_garbage_members m :
  owned m /\ no_garbage m <->
  member_inv vars (varsHeap m) (stateHeap m) /\
  member_inv cache (cacheHeap m) (stateHeap m).
Proof.
  unfold owned, no_garbage, member_inv. split.
  - intros [[Hlive Hexcl] [Hgv Hgc]]. split.
    + split; [|split; [|exact Hgv]].
      * intros a s p Ha Hp. by apply (proj1 (Hlive a s Ha)).
      * intros a b s t p Hab Ha Hb Hp. by apply (proj1 (Hexcl a b s t Hab Ha Hb)).
    + split; [|split; [|exact Hgc]].
      * intros a s p Ha Hp. by apply (proj2 (Hlive a s Ha)).
      * intros a b s t p Hab Ha Hb Hp. by apply (proj2 (Hexcl a b s t Hab Ha Hb)).
  - intros [(Lv & Xv & Gv) (Lc & Xc & Gc)]. split; [split|split; done].
    + intros a s Ha. split; intros p Hp; eauto.
    + intros a b s t Hab Ha Hb. split; intros p Hp; eauto.
Qed.

Lemma cxx_delete_inv {A} (p : option loc) (h h0 : gmap loc A) :
  cxx_delete p h = Ok h0 ->
  (p = None /\ h0 = h) \/
  (exists a, p = Some a /\ is_Some (h !! a) /\ h0 = delete a h).
Proof.
  destruct p as [a|]; simpl.
  - destruct (h !! a) as [x|] eqn:Ha; [|done]. intros [= <-].
    right. exists a. rewrite Ha. eauto.
  - intros [= <-]. by left.
Qed.

Lemma cxx_clone_inv {A} (p q : option loc) (h0 h' : gmap loc A) :
  cxx_clone p h0 = Ok (q, h') ->
  (p = None /\ q = None /\ h' = h0) \/
  (exists a x r, p = Some a /\ h0 !! a = Some x /\ q = Some r /\
                 h0 !! r = None /\ h' = <[r := x]> h0).
Proof.
  destruct p as [a|]; simpl.
  - destruct (h0 !! a) as [x|] eqn:Ha; [|done].
    unfold cxx_new. intros [= <- <-]. right. exists a, x, (fresh (dom h0)).
    repeat split; try done. apply not_elem_of_dom, is_fresh.
  - intros [= <- <-]. by left.
Qed.

(** One member through [delete old; member = src ? new T( *src ) : 0]: the
    container at [this] (new, or with member [old] before) ends with member
    [q]; the source member [sp] belongs to another container. *)
Lemma member_step {A} (f : SBState -> option loc) (h h0 h' : gmap loc A)
    (sh sh' : gmap loc SBState) this src s d old sp q :
  member_inv f h sh ->
  this <> src -> sh !! src = Some s -> f s = sp ->
  (forall t, sh !! this = Some t -> f t = old) ->
  (sh !! this = None -> old = None) ->
  cxx_delete old h = Ok h0 ->
  cxx_clone sp h0 = Ok (q, h') ->
  sh' !! this = Some d -> f d = q ->
  (forall a, a <> this -> sh' !! a = sh !! a) ->
  member_inv f h' sh'.
Proof.
  intros (Live & Excl & Garb) Hne Hs Hsp Hold Hnew Hdel Hclone Hd Hq Hframe.
  (* the heap after the delete: only [old] is gone *)
  assert (forall a t p, a <> this -> sh !! a = Some t -> f t = Some p ->
            is_Some (h0 !! p)) as Live0.
  { intros a t p Ha Ht Hp.
    destruct (cxx_delete_inv _ _ _ Hdel) as [[_ ->]|(o & -> & _ & ->)]; [eauto|].
    rewrite lookup_delete_ne; [eauto|]. intros <-.
    assert (sh !! this = None \/ exists t0, sh !! this = Some t0)
      as [Hn|[t0 Ht0]] by (destruct (sh !! this); eauto).
    - by specialize (Hnew Hn).
    - exact (Excl this a t0 t o (not_eq_sym Ha) Ht0 Ht (Hold t0 Ht0) Hp). }
  assert (forall p, is_Some (h0 !! p) ->
            exists a t, a <> this /\ sh !! a = Some t /\ f t = Some p) as Garb0.
  { intros p Hp.
    destruct (cxx_delete_inv _ _ _ Hdel) as [[Hnone ->]|(o & -> & _ & ->)].
    - destruct (Garb p Hp) as (a & t & Ha & Hfp). exists a, t.
      split; [|by split]. intros ->. rewrite (Hold t Ha) in Hfp. congruence.
    - destruct (decide (p = o)) as [->|Hpo]; [by rewrite lookup_delete_eq in Hp; destruct Hp|].
      rewrite lookup_delete_ne in Hp by done.
      destruct (Garb p Hp) as (a & t & Ha & Hfp). exists a, t.
      split; [|by split]. intros ->. rewrite (Hold t Ha) in Hfp. congruence. }
  destruct (cxx_clone_inv _ _ _ _ Hclone)
    as [(_ & -> & ->)|(a0 & x & r & _ & _ & -> & Hfresh & ->)].
  - (* null member *)
    split; [|split].
    + intros a t p Ha Hp. destruct (decide (a = this)) as [->|Hathis].
      * congruence.
      * rewrite Hframe in Ha by done. eauto.
    + intros a b t u p Hab Ha Hb Hp.
      destruct (decide (a = this)) as [->|Hathis]; [congruence|].
      destruct (decide (b = this)) as [->|Hbthis]; [congruence|].
      rewrite Hframe in Ha, Hb by done. eauto.
    + intros p Hp. destruct (Garb0 p Hp) as (a & t & Ha & Ht & Hfp).
      exists a, t. by rewrite Hframe.
  - (* cloned member at the fresh address [r] *)
    split; [|split].
    + intros a t p Ha Hp. destruct (decide (a = this)) as [->|Hathis].
      * assert (p = r) as -> by congruence. rewrite lookup_insert_eq. eauto.
      * rewrite Hframe in Ha by done.
        destruct (Live0 a t p Hathis Ha Hp) as [y Hy].
        rewrite lookup_insert_ne; [eauto|]. intros <-. congruence.
    + intros a b t u p Hab Ha Hb Hp.
      destruct (decide (a = this)) as [->|Hathis].
      * assert (p = r) as -> by congruence.
        rewrite Hframe in Hb by done. intros Hu.
        destruct (Live0 b u r (not_eq_sym Hab) Hb Hu) as [y Hy]. congruence.
      * rewrite Hframe in Ha by done.
        destruct (decide (b = this)) as [->|Hbthis].
        -- assert (f u = Some r) as Hur by congruence. rewrite Hur.
           intros [= Hrp]. subst p.
           destruct (Live0 a t r Hathis Ha Hp) as [y Hy]. congruence.
        -- rewrite Hframe in Hb by done. eauto.
    + intros p Hp. destruct (decide (p = r)) as [->|Hpr].
      * exists this, d. split; [done|congruence].
      * rewrite lookup_insert_ne in Hp by done.
        destruct (Garb0 p Hp) as (a & t & Ha & Ht & Hfp).
        exists a, t. by rewrite Hframe.
Qed.

Lemma copies_keep_members m src s :
  owned m -> no_garbage m -> stateHeap m !! src = Some s ->
  (forall dst m', SBState_copy src m = Ok (dst, m') ->
     owned m' /\ no_garbage m') /\
  (forall this t m', this <> src -> stateHeap m !! this = Some t ->
     SBState_assign this src m = Ok (tt, m') ->
     owned m' /\ no_garbage m').
Proof.
  intros Hown Hgarb Hs.
  destruct (proj1 (owned_no_garbage_members m) (conj Hown Hgarb)) as [Iv Ic].
  split.
  - intros dst m'. unfold SBState_copy. rewrite Hs.
    destruct (cxx_clone (vars s) (varsHeap m)) as [[qv vh]| |] eqn:Cv; [|done|done].
    simpl. destruct (cxx_clone (cache s) (cacheHeap m)) as [[qc ch]| |] eqn:Cc;
      [|done|done].
    simpl. unfold cxx_new. intros [= <- <-].
    set (dst := fresh (dom (stateHeap m))).
    assert (stateHeap m !! dst = None) as Hfresh
      by apply not_elem_of_dom, is_fresh.
    assert (dst <> src) as Hne by (intros E; rewrite E in Hfresh; congruence).
    apply owned_no_garbage_members. simpl. split.
    + apply (member_step vars (varsHeap m) (varsHeap m) vh (stateHeap m) _
               dst src s (mkSBState qv qc) None (vars s) qv Iv Hne Hs eq_refl).
      * intros t Ht. congruence.
      * done.
      * done.
      * exact Cv.
      * apply lookup_insert_eq.
      * done.
      * intros a Ha. by apply lookup_insert_ne.
    + apply (member_step cache (cacheHeap m) (cacheHeap m) ch (stateHeap m) _
               dst src s (mkSBState qv qc) None (cache s) qc Ic Hne Hs eq_refl).
      * intros t Ht. congruence.
      * done.
      * done.
      * exact Cc.
      * apply lookup_insert_eq.
      * done.
      * intros a Ha. by apply lookup_insert_ne.
  - intros this t m' Hne Ht. unfold SBState_assign.
    rewrite decide_True by done. rewrite Ht, Hs.
    destruct (cxx_delete (vars t) (varsHeap m)) as [vh0| |] eqn:Dv; [|done|done].
    simpl. destruct (cxx_delete (cache t) (cacheHeap m)) as [ch0| |] eqn:Dc;
      [|done|done].
    simpl. destruct (cxx_clone (vars s) vh0) as [[qv vh]| |] eqn:Cv; [|done|done].
    simpl. destruct (cxx_clone (cache s) ch0) as [[qc ch]| |] eqn:Cc; [|done|done].
    simpl. intros [= <-].
    apply owned_no_garbage_members. simpl. split.
    + apply (member_step vars (varsHeap m) vh0 vh (stateHeap m) _
               this src s (mkSBState qv qc) (vars t) (vars s) qv Iv Hne Hs eq_refl).
      * intros t' Ht'. congruence.
      * intros Hnone. congruence.
      * exact Dv.
      * exact Cv.
      * apply lookup_insert_eq.
      * done.
      * intros a Ha. by apply lookup_insert_ne.
    + apply (member_step cache (cacheHeap m) ch0 ch (stateHeap m) _
               this src s (mkSBState qv qc) (cache t) (cache s) qc Ic Hne Hs eq_refl).
      * intros t' Ht'. congruence.
      * intros Hnone. congruence.
      * exact Dc.
      * exact Cc.
      * apply lookup_insert_eq.
      * done.
      * intros a Ha. by apply lookup_insert_ne.
Qed.

(** X1. Both copy operations keep exclusive ownership and leave no object
    without an owner: the copy owns fresh objects, and assignment releases
    what the target held before. *)
Theorem SBState_copies_keep_ownership m src s :
  owned m -> no_garbage m -> stateHeap m !! src = Some s ->
  (exists dst m', SBState_copy src m = Ok (dst, m') /\
                  owned m' /\ no_garbage m') /\
  (forall this t, this <> src -> stateHeap m !! this = Some t ->
     exists m', SBState_assign this src m = Ok (tt, m') /\
                owned m' /\ no_garbage m').
Proof.
  intros Hown Hgarb Hs.
  destruct (copies_keep_members m src s Hown Hgarb Hs) as [Hcopy Hassign].
  split.
  - destruct (SBState_copy_deep m src s Hown Hs) as (dst & m' & Hrun & _).
    exists dst, m'. split; [exact Hrun|]. by apply (Hcopy dst).
  - intros this t Hne Ht.
    destruct (SBState_assign_deep m this src s t Hown Hne Hs Ht) as (m' & Hrun & _).
    exists m'. split; [exact Hrun|]. by apply (Hassign this t).
Qed.

Lemma memory_eta m : mkMemory (varsHeap m) (cacheHeap m) (stateHeap m) = m.
Proof. by destruct m. Qed.

Lemma clone_then_delete {A} (p q : option loc) (h h' : gmap loc A) :
  cxx_clone p h = Ok (q, h') -> cxx_delete q h' = Ok h.
Proof.
  intros Hc.
  destruct (cxx_clone_inv _ _ _ _ Hc)
    as [(_ & -> & ->)|(a & x & r & _ & _ & -> & Hfresh & ->)]; [done|].
  simpl. rewrite lookup_insert_eq. by rewrite delete_insert_id.
Qed.

(** X2. Copy construction followed by destruction of the copy is a round trip:
    the memory is exactly what it was, so the copy took nothing from the
    original and released all it had allocated. *)
Theorem SBState_copy_then_destroy m src s :
  owned m -> stateHeap m !! src = Some s ->
  exists dst m',
    SBState_copy src m = Ok (dst, m') /\
    SBState_destroy dst m' = Ok (tt, m).
Proof.
  intros Hown Hs.
  destruct (SBState_copy_deep m src s Hown Hs) as (dst & m' & Hcopy & _ & _).
  exists dst, m'. split; [exact Hcopy|].
  revert Hcopy. unfold SBState_copy. rewrite Hs.
  destruct (cxx_clone (vars s) (varsHeap m)) as [[qv vh]| |] eqn:Cv; [|done|done].
  simpl. destruct (cxx_clone (cache s) (cacheHeap m)) as [[qc ch]| |] eqn:Cc;
    [|done|done].
  simpl. unfold cxx_new. intros [= <- <-].
  unfold SBState_destroy. simpl. rewrite lookup_insert_eq. simpl.
  rewrite (clone_then_delete _ _ _ _ Cv). simpl.
  rewrite (clone_then_delete _ _ _ _ Cc). simpl.
  rewrite delete_insert_id by apply not_elem_of_dom, is_fresh.
  by rewrite memory_eta.
Qed.

(** X3. Assignment deletes the target's sub-objects before it reads the source:
    when the two containers share a sub-object (a bitwise copy, say), the
    source is read after it was freed, which is undefined behaviour. *)
Theorem SBState_assign_shared_member m this src t s p :
  this <> src ->
  stateHeap m !! this = Some t -> stateHeap m !! src = Some s ->
  (vars t = Some p /\ vars s = Some p) \/ (cache t = Some p /\ cache s = Some p) ->
  SBState_assign this src m = Undefined.
Proof.
  intros Hne Ht Hs Hshared. unfold SBState_assign.
  rewrite decide_True by done. rewrite Ht, Hs.
  destruct (cxx_delete (vars t) (varsHeap m)) as [vh0| |] eqn:Dv; simpl; [|
    by destruct (vars t) as [?|]; simpl in Dv; [destruct (varsHeap m !! _)|]|done].
  destruct (cxx_delete (cache t) (cacheHeap m)) as [ch0| |] eqn:Dc; simpl; [|
    by destruct (cache t) as [?|]; simpl in Dc; [destruct (cacheHeap m !! _)|]|done].
  destruct Hshared as [[Hvt Hvs]|[Hct Hcs]].
  - rewrite Hvt in Dv. rewrite Hvs. simpl in *.
    destruct (varsHeap m !! p); [|done]. injection Dv as <-.
    by rewrite lookup_delete_eq.
  - destruct (cxx_clone (vars s) vh0) as [[qv vh]| |] eqn:Cv; simpl; [|
      by destruct (vars s) as [?|]; simpl in Cv; [destruct (vh0 !! _)|]|done].
    rewrite Hct in Dc. rewrite Hcs. simpl in *.
    destruct (cacheHeap m !! p); [|done]. injection Dc as <-.
    by rewrite lookup_delete_eq.
Qed.

End SBState.
End SBStateModel.

(** ** Stations and distance constraints (lines 33-87 of the source) *)
Module Kinematics.

(** The arithmetic of [double] that the source uses.  The embedding is
    written once over this interface; [float_scalar] is IEEE binary64, the
    type the program runs on. *)
Class Scalar (T : Type) : Type := {
  s_add : T -> T -> T;
  s_sub : T -> T -> T;
  s_mul : T -> T -> T;
  s_div : T -> T -> T;
  s_sqrt : T -> T
}.

#[export] Instance float_scalar : Scalar float := {|
  s_add := PrimFloat.add;
  s_sub := PrimFloat.sub;
  s_mul := PrimFloat.mul;
  s_div := PrimFloat.div;
  s_sqrt := PrimFloat.sqrt
|}.

Declare Scope scalar_scope.
Delimit Scope scalar_scope with sc.
Infix "+" := s_add : scalar_scope.
Infix "-" := s_sub : scalar_scope.
Infix "*" := s_mul : scalar_scope.
Infix "/" := s_div : scalar_scope.

Section Vectors.
Context {T : Type} `{Scalar T}.
Local Open Scope scalar_scope.

(** Modelled from the spec: the [Vec3] and rotation-matrix classes (their
    header is not part of this translation unit) are the standard
    linear-algebra types: three components, operators acting componentwise,
    sums of products taken left to right. *)
Record Vec3 : Type := mkVec3 { vx : T; vy : T; vz : T }.

Record Mat33 : Type := mkMat33 { row0 : Vec3; row1 : Vec3; row2 : Vec3 }.

Definition vadd (a b : Vec3) : Vec3 :=
  mkVec3 (vx a + vx b) (vy a + vy b) (vz a + vz b).

Definition vsub (a b : Vec3) : Vec3 :=
  mkVec3 (vx a - vx b) (vy a - vy b) (vz a - vz b).

(** [v / s] *)
Definition vdiv (a : Vec3) (s : T) : Vec3 :=
  mkVec3 (vx a / s) (vy a / s) (vz a / s).

(** [~a * b] *)
Definition dot (a b : Vec3) : T :=
  vx a * vx b + vy a * vy b + vz a * vz b.

Definition cross (a b : Vec3) : Vec3 :=
  mkVec3 (vy a * vz b - vz a * vy b)
         (vz a * vx b - vx a * vz b)
         (vx a * vy b - vy a * vx b).

Definition normSqr (a : Vec3) : T := dot a a.

Definition norm (a : Vec3) : T := s_sqrt (normSqr a).

(** [R * v] *)
Definition mat_vec (m : Mat33) (v : Vec3) : Vec3 :=
  mkVec3 (dot (row0 m) v) (dot (row1 m) v) (dot (row2 m) v).

(** What the getters of a [RigidBodyNode] return: the node's world frame and
    its spatial velocity and acceleration. *)
Record NodeKinematics : Type := mkNodeKinematics {
  R_GB : Mat33;
  OB_G : Vec3;
  SpatialAngVel : Vec3;
  SpatialLinVel : Vec3;
  SpatialAngAcc : Vec3;
  SpatialLinAcc : Vec3
}.

(** [RBStation]: a node and a point fixed in that node's frame. *)
Record RBStation : Type := mkRBStation {
  rbNode : loc;
  station_B : Vec3
}.

Record RBStationRuntime : Type := mkRBStationRuntime {
  station_G : Vec3;
  pos_G : Vec3;
  stationVel_G : Vec3;
  vel_G : Vec3;
  acc_G : Vec3
}.

Record RBDistanceConstraint : Type := mkRBDistanceConstraint {
  distance : T;
  runtimeIndex : Z;
  stations0 : RBStation;
  stations1 : RBStation
}.

Record RBDistanceConstraintRuntime : Type := mkRBDistanceConstraintRuntime {
  stationRuntimes0 : RBStationRuntime;
  stationRuntimes1 : RBStationRuntime;
  fromTip1ToTip2_G : Vec3;
  unitDirection_G : Vec3;
  relVel_G : Vec3;
  posErr : T;
  velErr : T;
  accErr : T
}.

Section Stages.
(** The nodes as the stations see them: [getNode()] dereferences [rbNode]. *)
Variable nodes : gmap loc NodeKinematics.
(** [RBDistanceConstraint::isValid], declared in the header. *)
Variable isValid : RBDistanceConstraint -> bool.

Definition getNode (s : RBStation) : outcome NodeKinematics :=
  match nodes !! rbNode s with
  | Some n => Ok n
  | None => Undefined
  end.

(** [RBStation::calcPosInfo] *)
Definition RBStation_calcPosInfo (s : RBStation) (rt : RBStationRuntime)
  : outcome RBStationRuntime :=
  outcome_bind (getNode s) (fun n =>
  let station_G' := mat_vec (R_GB n) (station_B s) in
  let pos_G' := vadd (OB_G n) station_G' in
  Ok (mkRBStationRuntime station_G' pos_G' (stationVel_G rt) (vel_G rt) (acc_G rt))).

(** [RBStation::calcVelInfo] *)
Definition RBStation_calcVelInfo (s : RBStation) (rt : RBStationRuntime)
  : outcome RBStationRuntime :=
  outcome_bind (getNode s) (fun n =>
  let w_G := SpatialAngVel n in
  let v_G := SpatialLinVel n in
  let stationVel_G' := cross w_G (station_G rt) in
  let vel_G' := vadd v_G stationVel_G' in
  Ok (mkRBStationRuntime (station_G rt) (pos_G rt) stationVel_G' vel_G' (acc_G rt))).

(** [RBStation::calcAccInfo] *)
Definition RBStation_calcAccInfo (s : RBStation) (rt : RBStationRuntime)
  : outcome RBStationRuntime :=
  outcome_bind (getNode s) (fun n =>
  let w_G := SpatialAngVel n in
  let aa_G := SpatialAngAcc n in
  let a_G := SpatialLinAcc n in
  let acc_G' := vadd (vadd a_G (cross aa_G (station_G rt)))
                     (cross w_G (stationVel_G rt)) in
  Ok (mkRBStationRuntime (station_G rt) (pos_G rt) (stationVel_G rt) (vel_G rt) acc_G')).

(** [assert(isValid() && runtimeIndex >= 0)] *)
Definition dc_precondition (dc : RBDistanceConstraint) : bool :=
  isValid dc && (0 <=? runtimeIndex dc)%Z.

(** [RBDistanceConstraint::calcPosInfo] *)
Definition calcPosInfo (dc : RBDistanceConstraint) (rt : RBDistanceConstraintRuntime)
  : outcome RBDistanceConstraintRuntime :=
  if dc_precondition dc then
    outcome_bind (RBStation_calcPosInfo (stations0 dc) (stationRuntimes0 rt)) (fun r0 =>
    outcome_bind (RBStation_calcPosInfo (stations1 dc) (stationRuntimes1 rt)) (fun r1 =>
    let fromTip1ToTip2_G' := vsub (pos_G r1) (pos_G r0) in
    let separation := norm fromTip1ToTip2_G' in
    let unitDirection_G' := vdiv fromTip1ToTip2_G' separation in
    let posErr' := distance dc - separation in
    Ok (mkRBDistanceConstraintRuntime r0 r1 fromTip1ToTip2_G' unitDirection_G'
          (relVel_G rt) posErr' (velErr rt) (accErr rt))))
  else AssertFail.

(** [RBDistanceConstraint::calcVelInfo] *)
Definition calcVelInfo (dc : RBDistanceConstraint) (rt : RBDistanceConstraintRuntime)
  : outcome RBDistanceConstraintRuntime :=
  if dc_precondition dc then
    outcome_bind (RBStation_calcVelInfo (stations0 dc) (stationRuntimes0 rt)) (fun r0 =>
    outcome_bind (RBStation_calcVelInfo (stations1 dc) (stationRuntimes1 rt)) (fun r1 =>
    let relVel_G' := vsub (vel_G r1) (vel_G r0) in
    let velErr' := dot (unitDirection_G rt) relVel_G' in
    Ok (mkRBDistanceConstraintRuntime r0 r1 (fromTip1ToTip2_G rt) (unitDirection_G rt)
          relVel_G' (posErr rt) velErr' (accErr rt))))
  else AssertFail.

(** [RBDistanceConstraint::calcAccInfo] *)
Definition calcAccInfo (dc : RBDistanceConstraint) (rt : RBDistanceConstraintRuntime)
  : outcome RBDistanceConstraintRuntime :=
  if dc_precondition dc then
    outcome_bind (RBStation_calcAccInfo (stations0 dc) (stationRuntimes0 rt)) (fun r0 =>
    outcome_bind (RBStation_calcAccInfo (stations1 dc) (stationRuntimes1 rt)) (fun r1 =>
    let relAcc_G := vsub (acc_G r1) (acc_G r0) in
    let accErr' := normSqr (relVel_G rt) + dot relAcc_G (fromTip1ToTip2_G rt) in
    Ok (mkRBDistanceConstraintRuntime r0 r1 (fromTip1ToTip2_G rt) (unitDirection_G rt)
          (relVel_G rt) (posErr rt) (velErr rt) accErr')))
  else AssertFail.

End Stages.

(** The world position the position stage stores for a station. *)
Definition worldPosition (n : NodeKinematics) (s : RBStation) : Vec3 :=
  vadd (OB_G n) (mat_vec (R_GB n) (station_B s)).

Lemma RBStation_calcPosInfo_Ok nodes s rt n :
  nodes !! rbNode s = Some n ->
  exists r, RBStation_calcPosInfo nodes s rt = Ok r /\
            pos_G r = worldPosition n s /\
            station_G r = mat_vec (R_GB n) (station_B s).
Proof.
  intros Hn. unfold RBStation_calcPosInfo, getNode. rewrite Hn. simpl.
  eexists. split; [reflexivity|]. by split.
Qed.

Lemma RBStation_calcVelInfo_Ok nodes s rt n :
  nodes !! rbNode s = Some n ->
  exists r, RBStation_calcVelInfo nodes s rt = Ok r /\
            pos_G r = pos_G rt /\ station_G r = station_G rt /\
            vel_G r = vadd (SpatialLinVel n) (cross (SpatialAngVel n) (station_G rt)).
Proof.
  intros Hn. unfold RBStation_calcVelInfo, getNode. rewrite Hn. simpl.
  eexists. split; [reflexivity|]. by repeat split.
Qed.

Lemma RBStation_calcAccInfo_Ok nodes s rt n :
  nodes !! rbNode s = Some n ->
  exists r, RBStation_calcAccInfo nodes s rt = Ok r /\
            pos_G r = pos_G rt /\ vel_G r = vel_G rt /\
            acc_G r = vadd (vadd (SpatialLinAcc n)
                                 (cross (SpatialAngAcc n) (station_G rt)))
                           (cross (SpatialAngVel n) (stationVel_G rt)).
Proof.
  intros Hn. unfold RBStation_calcAccInfo, getNode. rewrite Hn. simpl.
  eexists. split; [reflexivity|]. by repeat split.
Qed.

Lemma dc_precondition_true isValid dc :
  isValid dc = true -> (0 <= runtimeIndex dc)%Z -> dc_precondition isValid dc = true.
Proof.
  intros Hv Hi. unfold dc_precondition. rewrite Hv. simpl.
  by apply Z.leb_le.
Qed.

(** The position stage on a valid constraint: what it stores. *)
Lemma calcPosInfo_Ok nodes isValid dc rt n0 n1 :
  isValid dc = true -> (0 <= runtimeIndex dc)%Z ->
  nodes !! rbNode (stations0 dc) = Some n0 ->
  nodes !! rbNode (stations1 dc) = Some n1 ->
  exists rt', calcPosInfo nodes isValid dc rt = Ok rt' /\
    pos_G (stationRuntimes0 rt') = worldPosition n0 (stations0 dc) /\
    pos_G (stationRuntimes1 rt') = worldPosition n1 (stations1 dc) /\
    fromTip1ToTip2_G rt' =
      vsub (pos_G (stationRuntimes1 rt')) (pos_G (stationRuntimes0 rt')) /\
    unitDirection_G rt' =
      vdiv (fromTip1ToTip2_G rt') (norm (fromTip1ToTip2_G rt')) /\
    posErr rt' = (distance dc - norm (fromTip1ToTip2_G rt'))%sc.
Proof.
  intros Hv Hi H0 H1. unfold calcPosInfo.
  rewrite (dc_precondition_true _ _ Hv Hi).
  destruct (RBStation_calcPosInfo_Ok nodes (stations0 dc) (stationRuntimes0 rt) n0 H0)
    as (r0 & -> & P0 & _).
  destruct (RBStation_calcPosInfo_Ok nodes (stations1 dc) (stationRuntimes1 rt) n1 H1)
    as (r1 & -> & P1 & _).
  simpl. eexists. split; [reflexivity|]. simpl. by repeat split.
Qed.

(** The velocity stage: positions are kept, the relative velocity is stored. *)
Lemma calcVelInfo_Ok nodes isValid dc rt n0 n1 :
  isValid dc = true -> (0 <= runtimeIndex dc)%Z ->
  nodes !! rbNode (stations0 dc) = Some n0 ->
  nodes !! rbNode (stations1 dc) = Some n1 ->
  exists rt', calcVelInfo nodes isValid dc rt = Ok rt' /\
    pos_G (stationRuntimes0 rt') = pos_G (stationRuntimes0 rt) /\
    pos_G (stationRuntimes1 rt') = pos_G (stationRuntimes1 rt) /\
    fromTip1ToTip2_G rt' = fromTip1ToTip2_G rt /\
    relVel_G rt' =
      vsub (vel_G (stationRuntimes1 rt')) (vel_G (stationRuntimes0 rt')) /\
    velErr rt' = dot (unitDirection_G rt) (relVel_G rt').
Proof.
  intros Hv Hi H0 H1. unfold calcVelInfo.
  rewrite (dc_precondition_true _ _ Hv Hi).
  destruct (RBStation_calcVelInfo_Ok nodes (stations0 dc) (stationRuntimes0 rt) n0 H0)
    as (r0 & -> & P0 & _ & _).
  destruct (RBStation_calcVelInfo_Ok nodes (stations1 dc) (stationRuntimes1 rt) n1 H1)
    as (r1 & -> & P1 & _ & _).
  simpl. eexists. split; [reflexivity|]. simpl. by repeat split.
Qed.

(** The acceleration stage: it reads the relative velocity and the separation
    vector that the earlier stages left in the runtime record. *)
Lemma calcAccInfo_Ok nodes isValid dc rt n0 n1 :
  isValid dc = true -> (0 <= runtimeIndex dc)%Z ->
  nodes !! rbNode (stations0 dc) = Some n0 ->
  nodes !! rbNode (stations1 dc) = Some n1 ->
  exists rt', calcAccInfo nodes isValid dc rt = Ok rt' /\
    pos_G (stationRuntimes0 rt') = pos_G (stationRuntimes0 rt) /\
    pos_G (stationRuntimes1 rt') = pos_G (stationRuntimes1 rt) /\
    vel_G (stationRuntimes0 rt') = vel_G (stationRuntimes0 rt) /\
    vel_G (stationRuntimes1 rt') = vel_G (stationRuntimes1 rt) /\
    accErr rt' =
      (normSqr (relVel_G rt) +
       dot (vsub (acc_G (stationRuntimes1 rt')) (acc_G (stationRuntimes0 rt')))
           (fromTip1ToTip2_G rt))%sc.
Proof.
  intros Hv Hi H0 H1. unfold calcAccInfo.
  rewrite (dc_precondition_true _ _ Hv Hi).
  destruct (RBStation_calcAccInfo_Ok nodes (stations0 dc) (stationRuntimes0 rt) n0 H0)
    as (r0 & -> & P0 & V0 & _).
  destruct (RBStation_calcAccInfo_Ok nodes (stations1 dc) (stationRuntimes1 rt) n1 H1)
    as (r1 & -> & P1 & V1 & _).
  simpl. eexists. split; [reflexivity|]. simpl. by repeat split.
Qed.

(** C4. Run the three stages on a valid constraint whose stations sit on live
    nodes.  Every station field is what the source computes from the node the
    stage reads: the world position from the position stage, the velocity
    from the velocity stage, the acceleration from the acceleration stage
    (which reuses the station vector and the station velocity left by the
    earlier stages).  The acceleration error is, literally, the squared
    magnitude of the relative station velocity plus the dot product of the
    relative station acceleration with the unnormalised separation vector
    from station one to station two; nothing of the record the stages started
    from enters it.  This holds in any arithmetic, IEEE doubles included. *)
Theorem calcAccInfo_literal_formula
    nodesP nodesV nodesA isValid dc rt p0 p1 v0 v1 a0 a1 :
  isValid dc = true -> (0 <= runtimeIndex dc)%Z ->
  nodesP !! rbNode (stations0 dc) = Some p0 ->
  nodesP !! rbNode (stations1 dc) = Some p1 ->
  nodesV !! rbNode (stations0 dc) = Some v0 ->
  nodesV !! rbNode (stations1 dc) = Some v1 ->
  nodesA !! rbNode (stations0 dc) = Some a0 ->
  nodesA !! rbNode (stations1 dc) = Some a1 ->
  let r0 := mat_vec (R_GB p0) (station_B (stations0 dc)) in
  let r1 := mat_vec (R_GB p1) (station_B (stations1 dc)) in
  let x0 := vadd (OB_G p0) r0 in
  let x1 := vadd (OB_G p1) r1 in
  let u0 := cross (SpatialAngVel v0) r0 in
  let u1 := cross (SpatialAngVel v1) r1 in
  let vel0 := vadd (SpatialLinVel v0) u0 in
  let vel1 := vadd (SpatialLinVel v1) u1 in
  let acc0 := vadd (vadd (SpatialLinAcc a0) (cross (SpatialAngAcc a0) r0))
                   (cross (SpatialAngVel a0) u0) in
  let acc1 := vadd (vadd (SpatialLinAcc a1) (cross (SpatialAngAcc a1) r1))
                   (cross (SpatialAngVel a1) u1) in
  exists rtP rtV rtA,
    calcPosInfo nodesP isValid dc rt = Ok rtP /\
    calcVelInfo nodesV isValid dc rtP = Ok rtV /\
    calcAccInfo nodesA isValid dc rtV = Ok rtA /\
    let s0 := stationRuntimes0 rtA in
    let s1 := stationRuntimes1 rtA in
    pos_G s0 = x0 /\ pos_G s1 = x1 /\
    vel_G s0 = vel0 /\ vel_G s1 = vel1 /\
    acc_G s0 = acc0 /\ acc_G s1 = acc1 /\
    accErr rtA =
      (normSqr (vsub (vel_G s1) (vel_G s0)) +
       dot (vsub (acc_G s1) (acc_G s0)) (vsub (pos_G s1) (pos_G s0)))%sc /\
    accErr rtA =
      (normSqr (vsub vel1 vel0) + dot (vsub acc1 acc0) (vsub x1 x0))%sc.
Proof.
  intros Hv Hi P0 P1 V0 V1 A0 A1. cbv zeta.
  pose proof (dc_precondition_true isValid dc Hv Hi) as Hpre.
  eexists. eexists. eexists. split; [|split; [|split]].
  - unfold calcPosInfo, RBStation_calcPosInfo, getNode.
    rewrite Hpre, P0, P1. simpl. reflexivity.
  - unfold calcVelInfo, RBStation_calcVelInfo, getNode.
    rewrite Hpre, V0, V1. simpl. reflexivity.
  - unfold calcAccInfo, RBStation_calcAccInfo, getNode.
    rewrite Hpre, A0, A1. simpl. reflexivity.
  - simpl. split; [reflexivity|]. split; [reflexivity|].
    split; [reflexivity|]. split; [reflexivity|].
    split; [reflexivity|]. split; [reflexivity|].
    split; reflexivity.
Qed.


(** X4. Each stage computes from the nodes and from what earlier stages stored,
    never from its own outputs: run twice in a row it gives what one run
    gives (and fails the second time only as it failed the first). *)
Theorem stages_idempotent nodes isValid dc rt :
  outcome_bind (calcPosInfo nodes isValid dc rt) (calcPosInfo nodes isValid dc)
    = calcPosInfo nodes isValid dc rt /\
  outcome_bind (calcVelInfo nodes isValid dc rt) (calcVelInfo nodes isValid dc)
    = calcVelInfo nodes isValid dc rt /\
  outcome_bind (calcAccInfo nodes isValid dc rt) (calcAccInfo nodes isValid dc)
    = calcAccInfo nodes isValid dc rt.
Proof.
  unfold calcPosInfo, calcVelInfo, calcAccInfo,
    RBStation_calcPosInfo, RBStation_calcVelInfo, RBStation_calcAccInfo, getNode.
  destruct (dc_precondition isValid dc) eqn:Hpre; [|done].
  destruct (nodes !! rbNode (stations0 dc)) as [n0|]; [|done].
  destruct (nodes !! rbNode (stations1 dc)) as [n1|]; [|done].
  simpl. by repeat split.
Qed.

End Vectors.

Arguments Vec3 T : clear implicits.
Arguments Mat33 T : clear implicits.
Arguments NodeKinematics T : clear implicits.
Arguments RBStation T : clear implicits.
Arguments RBStationRuntime T : clear implicits.
Arguments RBDistanceConstraint T : clear implicits.
Arguments RBDistanceConstraintRuntime T : clear implicits.

(** *** IEEE binary64: the sign of a difference

    Subtraction in binary64 rounds, yet with gradual underflow the difference
    of two finite numbers is zero only if they are equal, and it has the sign
    of their comparison.  This is proved here from the specification of the
    operations ([SpecFloat]), which the primitive floats satisfy. *)
Section Binary64.
Local Open Scope Z_scope.


















End Binary64.

(** *** IEEE binary64: coincident stations *)
Section Doubles.
Local Open Scope float_scope.

(** A finite double: neither NaN nor an infinity. *)
Definition finite (x : float) : bool :=
  match Prim2SF x with
  | S754_nan | S754_infinity _ => false
  | S754_zero _ | S754_finite _ _ _ => true
  end.

Definition finite_vec (v : Vec3 float) : bool :=
  finite (vx v) && finite (vy v) && finite (vz v).

Definition nan_vec (v : Vec3 float) : bool :=
  is_nan (vx v) && is_nan (vy v) && is_nan (vz v).

Lemma sub_diag_finite (x : float) : finite x = true -> x - x = 0.
Proof.
  unfold finite. intros Hfin.
  rewrite <- (SF2Prim_Prim2SF (x - x)), sub_spec.
  destruct (Prim2SF x) as [s|s| |s m e]; try done.
  - by destruct s.
  - unfold SF64sub, SFsub. rewrite Z.sub_diag. reflexivity.
Qed.

Lemma vsub_diag_finite (p : Vec3 float) :
  finite_vec p = true -> vsub p p = mkVec3 0 0 0.
Proof.
  unfold finite_vec. intros H.
  apply andb_prop in H as [H Hz]. apply andb_prop in H as [Hx Hy].
  unfold vsub. simpl. by rewrite !sub_diag_finite.
Qed.

(** C8 (as the code has it). The division by the separation is not guarded.
    Where the two stations of a valid constraint have the same finite world
    position, the position stage returns normally: the separation vector is
    zero, all three components of the unit direction are NaN (0/0) and the
    position error is [distance - 0].  No degeneracy is reported. *)
Theorem calcPosInfo_coincident_stations
    (nodes : gmap loc (NodeKinematics float)) isValid dc rt n0 n1 :
  isValid dc = true -> (0 <= runtimeIndex dc)%Z ->
  nodes !! rbNode (stations0 dc) = Some n0 ->
  nodes !! rbNode (stations1 dc) = Some n1 ->
  worldPosition n1 (stations1 dc) = worldPosition n0 (stations0 dc) ->
  finite_vec (worldPosition n0 (stations0 dc)) = true ->
  exists rt', calcPosInfo nodes isValid dc rt = Ok rt' /\
    fromTip1ToTip2_G rt' = mkVec3 0 0 0 /\
    unitDirection_G rt' = mkVec3 nan nan nan /\
    nan_vec (unitDirection_G rt') = true /\
    posErr rt' = distance dc - 0.
Proof.
  intros Hv Hi H0 H1 Hsame Hfin.
  destruct (calcPosInfo_Ok nodes isValid dc rt n0 n1 Hv Hi H0 H1)
    as (rt' & E & P0 & P1 & Hfrom & Hunit & Herr).
  exists rt'. split; [done|].
  rewrite P1, P0, Hsame, (vsub_diag_finite _ Hfin) in Hfrom.
  rewrite Hfrom in Hunit, Herr.
  split; [done|]. rewrite Hunit, Herr. by repeat split.
Qed.






End Doubles.
End Kinematics.

(** ** RigidBodyTree (lines 89-348 of the source) *)
Module Tree.
Import Kinematics.

(** *** [int] and vector indexing *)

Definition INT_MIN : Z := - 2 ^ 31.
Definition INT_MAX : Z := 2 ^ 31 - 1.

Definition in_int (z : Z) : bool := (INT_MIN <=? z)%Z && (z <=? INT_MAX)%Z.

(** Signed arithmetic: a result out of range is undefined behaviour. *)
Definition int_add {S} (a b : Z) : M S Z :=
  if in_int (a + b) then ret (a + b)%Z else undefined.

Definition int_mul {S} (a b : Z) : M S Z :=
  if in_int (a * b) then ret (a * b)%Z else undefined.

(** [v[i]] with an [int] index: undefined out of range. *)
Definition vec_at {A} (v : list A) (i : Z) : option A :=
  if (i <? 0)%Z then None else v !! Z.to_nat i.

(** [v.resize(n)] with default-constructed new elements. *)
Definition vec_resize {A} (d : A) (n : nat) (v : list A) : list A :=
  take n v ++ replicate (n - length v) d.

(** *** Lists of lists *)

Lemma elem_of_concat {A} (x : A) (ls : list (list A)) :
  x ∈ concat ls <-> exists l, x ∈ l /\ l ∈ ls.
Proof.
  rewrite list_elem_of_In, in_concat. split.
  - intros (l & Hl & Hx). exists l. by rewrite !list_elem_of_In.
  - intros (l & Hx & Hl). exists l. by rewrite <- !list_elem_of_In.
Qed.

(** In [concat ls], the elements of an earlier row come before the elements
    of a later row. *)
Lemma concat_rows_ordered {A} (ls : list (list A)) a b ra rb (x y : A) :
  ls !! a = Some ra -> ls !! b = Some rb -> (a < b)%nat ->
  x ∈ ra -> y ∈ rb ->
  exists i j, concat ls !! i = Some x /\ concat ls !! j = Some y /\ (i < j)%nat.
Proof.
  intros Ha Hb Hab Hx Hy.
  apply list_elem_of_lookup in Hx as [ix Hix].
  apply list_elem_of_lookup in Hy as [iy Hiy].
  pose proof (lookup_lt_Some _ _ _ Hix) as Lx.
  rewrite <- (take_drop_middle ls a ra Ha).
  assert (drop (S a) ls !! (b - S a)%nat = Some rb) as Hb'.
  { rewrite lookup_drop. rewrite <- Hb. f_equal. lia. }
  rewrite <- (take_drop_middle _ _ rb Hb').
  repeat (rewrite concat_app || rewrite concat_cons).
  set (pre := concat (take a ls)).
  set (mid := concat (take (b - S a) (drop (S a) ls))).
  set (post := concat (drop (S (b - S a)) (drop (S a) ls))).
  exists (length pre + ix)%nat, (length pre + (length ra + (length mid + iy)))%nat.
  split; [|split; [|lia]].
  - rewrite lookup_app_r by lia.
    replace (length pre + ix - length pre)%nat with ix by lia.
    by rewrite lookup_app_l.
  - rewrite lookup_app_r by lia.
    replace (length pre + (length ra + (length mid + iy)) - length pre)%nat
      with (length ra + (length mid + iy))%nat by lia.
    rewrite lookup_app_r by lia.
    replace (length ra + (length mid + iy) - length ra)%nat
      with (length mid + iy)%nat by lia.
    rewrite lookup_app_r by lia.
    replace (length mid + iy - length mid)%nat with iy by lia.
    rewrite lookup_app_l; [done|]. by apply lookup_lt_Some in Hiy.
Qed.

Lemma NoDup_concat_reverse {A} (ls : list (list A)) :
  NoDup (concat ls) -> NoDup (concat (reverse ls)).
Proof.
  induction ls as [|l ls IH]; [done|].
  rewrite reverse_cons, concat_app, concat_cons. simpl. rewrite app_nil_r.
  rewrite !NoDup_app. intros (Hl & Hdisj & Hls).
  split; [by apply IH|]. split; [|done].
  intros x Hx Hxl. apply (Hdisj x Hxl).
  apply elem_of_concat in Hx as (r & Hxr & Hr).
  rewrite elem_of_reverse in Hr. apply elem_of_concat. eauto.
Qed.

(** Appending [n] to row [L] of the level table, after growing the table
    with empty rows when it is too short: what lines 110-112 compute. *)
Definition place (levels : list (list loc)) (L : nat) (n : loc) : list (list loc) :=
  let levels0 := if (length levels <=? L)%nat
                 then vec_resize [] (S L) levels else levels in
  <[L := default [] (levels0 !! L) ++ [n]]> levels0.

Lemma vec_resize_grow {A} (d : A) k (v : list A) :
  (length v <= k)%nat -> vec_resize d k v = v ++ replicate (k - length v) d.
Proof. intros Hk. unfold vec_resize. by rewrite take_ge. Qed.

Lemma concat_replicate_nil {A} k : concat (replicate k (@nil A)) = [].
Proof. induction k; simpl; auto. Qed.

Lemma concat_insert_snoc {A} (ls : list (list A)) L row (x : A) :
  ls !! L = Some row -> concat (<[L := row ++ [x]]> ls) ≡ₚ x :: concat ls.
Proof.
  intros HL. rewrite <- (take_drop_middle ls L row HL) at 2.
  rewrite insert_take_drop by (by apply lookup_lt_Some in HL).
  rewrite !concat_app, !concat_cons.
  rewrite (Permutation_app_comm row [x]). simpl.
  symmetry. apply Permutation_middle.
Qed.

Lemma place_grown_spec (levels : list (list loc)) L :
  let levels0 := if (length levels <=? L)%nat
                 then vec_resize [] (S L) levels else levels in
  concat levels0 = concat levels /\
  (L < length levels0)%nat /\
  levels0 !! L = Some (default [] (levels !! L)) /\
  (forall i row, levels !! i = Some row -> levels0 !! i = Some row) /\
  (forall i row, levels0 !! i = Some row ->
     levels !! i = Some row \/ (row = [] /\ levels !! i = None)).
Proof.
  simpl. destruct (Nat.leb_spec (length levels) L) as [Hle|Hlt].
  - rewrite vec_resize_grow by lia.
    split; [by rewrite concat_app, concat_replicate_nil, app_nil_r|].
    split; [rewrite length_app, length_replicate; lia|].
    split.
    + rewrite lookup_app_r by lia. rewrite (lookup_ge_None_2 levels L) by lia.
      simpl. apply lookup_replicate_2. lia.
    + split.
      * intros i row Hi. by apply lookup_app_l_Some.
      * intros i row Hi. apply lookup_app_Some in Hi as [Hi|[Hge Hi]]; [by left|].
        right. apply lookup_replicate in Hi as [-> _].
        split; [done|]. by apply lookup_ge_None_2.
  - split; [done|]. split; [done|].
    destruct (lookup_lt_is_Some_2 levels L Hlt) as [row Hrow].
    rewrite Hrow. simpl. split; [done|]. split; [done|]. intros. by left.
Qed.

Lemma place_perm levels L n : concat (place levels L n) ≡ₚ n :: concat levels.
Proof.
  unfold place. destruct (place_grown_spec levels L) as (Hc & _ & HL & _).
  cbv zeta in *. rewrite HL. simpl.
  rewrite (concat_insert_snoc _ L _ n HL). by rewrite Hc.
Qed.

Lemma place_lookup levels L n :
  place levels L n !! L = Some (default [] (levels !! L) ++ [n]).
Proof.
  unfold place. destruct (place_grown_spec levels L) as (_ & Hlen & HL & _).
  cbv zeta in *. rewrite HL. simpl. by apply list_lookup_insert_eq.
Qed.

Lemma place_lookup_old levels L n i row :
  levels !! i = Some row ->
  exists row', place levels L n !! i = Some row' /\
               forall j q, row !! j = Some q -> row' !! j = Some q.
Proof.
  intros Hi. destruct (decide (i = L)) as [->|Hne].
  - rewrite place_lookup, Hi. simpl. eexists. split; [done|].
    intros j q Hj. by apply lookup_app_l_Some.
  - exists row. split; [|done]. unfold place.
    destruct (place_grown_spec levels L) as (_ & _ & _ & Hold & _).
    cbv zeta in *. rewrite list_lookup_insert_ne by done. by apply Hold.
Qed.

Lemma place_lookup_inv levels L n i row' p :
  place levels L n !! i = Some row' -> p ∈ row' ->
  (p = n /\ i = L) \/ (exists row, levels !! i = Some row /\ p ∈ row).
Proof.
  intros Hi Hp. destruct (decide (i = L)) as [->|Hne].
  - rewrite place_lookup in Hi. injection Hi as <-.
    apply elem_of_app in Hp as [Hp|Hp].
    + right. destruct (levels !! L) as [row|] eqn:HL; simpl in Hp.
      * eauto.
      * by apply elem_of_nil in Hp.
    + left. apply list_elem_of_singleton in Hp. done.
  - right. unfold place in Hi.
    destruct (place_grown_spec levels L) as (_ & _ & _ & _ & Hinv).
    cbv zeta in *. rewrite list_lookup_insert_ne in Hi by done.
    destruct (Hinv i row' Hi) as [Hold|[-> _]]; [eauto|].
    by apply elem_of_nil in Hp.
Qed.

Section RigidBodyTree.
Context {T : Type} `{Scalar T}.
(** Types declared in headers outside this translation unit. *)
Context {SpatialVec Vector TransformMat : Type}.

(** What the tree reads and writes of a [RigidBodyNode]: its level and number,
    the sizes it reports, and the links that [addChild] maintains. *)
Record RigidBodyNode : Type := mkRigidBodyNode {
  level : Z;
  nodeNum : Z;
  DOF : Z;
  MaxNQ : Z;
  parent : option loc;
  refConfig : option TransformMat;
  children : list loc
}.

Record RigidBodyNodeIndex : Type := mkRigidBodyNodeIndex {
  ix_level : Z;
  ix_offset : Z
}.

(** The solver object: what its constructor and [construct] are handed. *)
Record LengthConstraints : Type := mkLengthConstraints {
  lc_ctol : T;
  lc_verbose : Z;
  lc_constraints : list (RBDistanceConstraint T);
  lc_runtimes : list (RBDistanceConstraintRuntime T)
}.

Record RigidBodyTree : Type := mkRigidBodyTree {
  rbNodeLevels : list (list loc);
  nodeNum2NodeMap : list RigidBodyNodeIndex;
  distanceConstraints : list (RBDistanceConstraint T);
  dcRuntimeInfo : list (RBDistanceConstraintRuntime T);
  lConstraints : option loc;
  DOFTotal : Z;
  SqDOFTotal : Z;
  maxNQTotal : Z
}.

(** Calls the tree makes on its collaborators. *)
Inductive NodeCall : Type :=
| NRealizeConfiguration (pos : Vector)
| NRealizeVelocity (vel : Vector)
| NCalcP
| NCalcZ (f : SpatialVec)
| NCalcY
| NCalcAccel
| NCalcInternalForce (f : SpatialVec).

Inductive SolverCall : Type :=
| SConstruct
| SCalcConstraintForces
| SAddInCorrectionForces.

Inductive Event : Type :=
| EvNode (p : loc) (c : NodeCall)
| EvSolver (s : loc) (c : SolverCall).

(** The memory a member function of the tree may touch: the tree object, the
    nodes and solvers on the heap, the force lists of the callers, and the log
    of the calls made so far on nodes and solver. *)
Record World : Type := mkWorld {
  this : RigidBodyTree;
  nodeHeap : gmap loc RigidBodyNode;
  solverHeap : gmap loc LengthConstraints;
  forceLists : gmap loc (list SpatialVec);
  calls : list Event
}.

(** The collaborators are outside this translation unit.  What they compute
    is a function of the calls made on them so far. *)
Variable node_kinematics : list Event -> loc -> NodeKinematics T.
Variable lc_calcConstraintForces : list Event -> bool.
Variable lc_addInCorrectionForces : list Event -> list SpatialVec -> list SpatialVec.
Variable isValid : RBDistanceConstraint T -> bool.

Abbreviation Tm := (M World).

(** Field updates. *)
Definition set_this (f : RigidBodyTree -> RigidBodyTree) (w : World) : World :=
  mkWorld (f (this w)) (nodeHeap w) (solverHeap w) (forceLists w) (calls w).
Definition set_nodeHeap (f : gmap loc RigidBodyNode -> gmap loc RigidBodyNode)
    (w : World) : World :=
  mkWorld (this w) (f (nodeHeap w)) (solverHeap w) (forceLists w) (calls w).
Definition set_solverHeap (f : gmap loc LengthConstraints -> gmap loc LengthConstraints)
    (w : World) : World :=
  mkWorld (this w) (nodeHeap w) (f (solverHeap w)) (forceLists w) (calls w).
Definition set_forceLists (f : gmap loc (list SpatialVec) -> gmap loc (list SpatialVec))
    (w : World) : World :=
  mkWorld (this w) (nodeHeap w) (solverHeap w) (f (forceLists w)) (calls w).
Definition log (e : Event) (w : World) : World :=
  mkWorld (this w) (nodeHeap w) (solverHeap w) (forceLists w) (calls w ++ [e]).

Definition set_rbNodeLevels (l : list (list loc)) (t : RigidBodyTree) : RigidBodyTree :=
  mkRigidBodyTree l (nodeNum2NodeMap t) (distanceConstraints t) (dcRuntimeInfo t)
    (lConstraints t) (DOFTotal t) (SqDOFTotal t) (maxNQTotal t).
Definition set_nodeNum2NodeMap (l : list RigidBodyNodeIndex) (t : RigidBodyTree)
  : RigidBodyTree :=
  mkRigidBodyTree (rbNodeLevels t) l (distanceConstraints t) (dcRuntimeInfo t)
    (lConstraints t) (DOFTotal t) (SqDOFTotal t) (maxNQTotal t).
Definition set_distanceConstraints (l : list (RBDistanceConstraint T))
    (t : RigidBodyTree) : RigidBodyTree :=
  mkRigidBodyTree (rbNodeLevels t) (nodeNum2NodeMap t) l (dcRuntimeInfo t)
    (lConstraints t) (DOFTotal t) (SqDOFTotal t) (maxNQTotal t).
Definition set_dcRuntimeInfo (l : list (RBDistanceConstraintRuntime T))
    (t : RigidBodyTree) : RigidBodyTree :=
  mkRigidBodyTree (rbNodeLevels t) (nodeNum2NodeMap t) (distanceConstraints t) l
    (lConstraints t) (DOFTotal t) (SqDOFTotal t) (maxNQTotal t).
Definition set_lConstraints (p : option loc) (t : RigidBodyTree) : RigidBodyTree :=
  mkRigidBodyTree (rbNodeLevels t) (nodeNum2NodeMap t) (distanceConstraints t)
    (dcRuntimeInfo t) p (DOFTotal t) (SqDOFTotal t) (maxNQTotal t).
Definition set_totals (d s q : Z) (t : RigidBodyTree) : RigidBodyTree :=
  mkRigidBodyTree (rbNodeLevels t) (nodeNum2NodeMap t) (distanceConstraints t)
    (dcRuntimeInfo t) (lConstraints t) d s q.

Definition setLevel (l : Z) (n : RigidBodyNode) : RigidBodyNode :=
  mkRigidBodyNode l (nodeNum n) (DOF n) (MaxNQ n) (parent n) (refConfig n) (children n).
Definition setNodeNum (k : Z) (n : RigidBodyNode) : RigidBodyNode :=
  mkRigidBodyNode (level n) k (DOF n) (MaxNQ n) (parent n) (refConfig n) (children n).

(** Monadic access. *)
Definition getThis : Tm RigidBodyTree := fun w => Ok (this w, w).
Definition modifyThis (f : RigidBodyTree -> RigidBodyTree) : Tm unit :=
  modify (set_this f).

(** [*p] for a node pointer: undefined unless the node is live. *)
Definition node_deref (p : loc) : Tm RigidBodyNode :=
  fun w => defined (nodeHeap w !! p) w.

Definition node_update (p : loc) (f : RigidBodyNode -> RigidBodyNode) : Tm unit :=
  n <- node_deref p ;; modify (set_nodeHeap (insert p (f n))).

(** [p->op(...)] on a collaborator node: the node must be live; the call is
    logged. *)
Definition node_call (p : loc) (c : NodeCall) : Tm unit :=
  node_deref p ;;; modify (log (EvNode p c)).

Definition lift_outcome {A} (o : outcome A) : Tm A :=
  fun w => outcome_bind o (fun a => Ok (a, w)).

(** Modelled from the spec: [RigidBodyNode::create] (not in this translation
    unit) called for [Joint::ThisIsGround] allocates the ground node, of zero
    degrees of freedom and zero coordinates, not yet placed in any tree. *)
Definition createGround : Tm loc := fun w =>
  let '(p, h) := cxx_new (mkRigidBodyNode (-1) (-1) 0 0 None None []) (nodeHeap w) in
  Ok (p, set_nodeHeap (fun _ => h) w).

(** Modelled from the spec: [RigidBodyNode::addChild] (not in this translation
    unit) links the node as a child of the parent in both directions. *)
Definition addChild (par child : loc) (referenceConfig : TransformMat) : Tm unit :=
  node_update par (fun n =>
    mkRigidBodyNode (level n) (nodeNum n) (DOF n) (MaxNQ n) (parent n)
      (refConfig n) (children n ++ [child])) ;;;
  node_update child (fun n =>
    mkRigidBodyNode (level n) (nodeNum n) (DOF n) (MaxNQ n) (Some par)
      (Some referenceConfig) (children n)).

(** [int RigidBodyTree::addRigidBodyNode(parent, referenceConfig, nodep)];
    [nodep] is the node handed over. *)
Definition addRigidBodyNode (par : loc) (referenceConfig : TransformMat)
    (nodep : loc) : Tm Z :=
  let n := nodep in
  pn <- node_deref par ;;
  lvl <- int_add (level pn) 1 ;;
  node_update n (setLevel lvl) ;;;
  (* Put node in tree at the right level *)
  t <- getThis ;;
  (if (Z.of_nat (length (rbNodeLevels t)) <=? lvl)%Z
   then sz <- int_add lvl 1 ;;
        modifyThis (set_rbNodeLevels (vec_resize [] (Z.to_nat sz) (rbNodeLevels t)))
   else ret tt) ;;;
  t <- getThis ;;
  row <- defined (vec_at (rbNodeLevels t) lvl) ;;
  let nxt := Z.of_nat (length row) in
  modifyThis (set_rbNodeLevels (<[Z.to_nat lvl := row ++ [n]]> (rbNodeLevels t))) ;;;
  (* Assign a unique reference integer to this node, for use by caller *)
  t <- getThis ;;
  let num := Z.of_nat (length (nodeNum2NodeMap t)) in
  modifyThis (set_nodeNum2NodeMap
                (nodeNum2NodeMap t ++ [mkRigidBodyNodeIndex lvl nxt])) ;;;
  node_update n (setNodeNum num) ;;;
  (* Link in to the tree topology (bidirectional). *)
  addChild par n referenceConfig ;;;
  ret num.

(** [void RigidBodyTree::addGroundNode()] *)
Definition addGroundNode : Tm unit :=
  (* Make sure this is the first body *)
  t <- getThis ;;
  cxx_assert (length (nodeNum2NodeMap t) =? 0)%nat ;;;
  cxx_assert (length (rbNodeLevels t) =? 0)%nat ;;;
  n <- createGround ;;
  node_update n (setLevel 0) ;;;
  (* Put ground node in tree at level 0 *)
  modifyThis (fun t => set_rbNodeLevels (vec_resize [] 1 (rbNodeLevels t)) t) ;;;
  t <- getThis ;;
  row <- defined (vec_at (rbNodeLevels t) 0) ;;
  modifyThis (set_rbNodeLevels (<[0%nat := row ++ [n]]> (rbNodeLevels t))) ;;;
  modifyThis (fun t => set_nodeNum2NodeMap
                         (nodeNum2NodeMap t ++ [mkRigidBodyNodeIndex 0 0]) t) ;;;
  node_update n (setNodeNum 0).

(** [int RigidBodyTree::addDistanceConstraint(s1, s2, d)]; [rt0] is the
    default-constructed [RBDistanceConstraintRuntime]. *)
Definition addDistanceConstraint (rt0 : RBDistanceConstraintRuntime T)
    (s1 s2 : RBStation T) (d : T) : Tm Z :=
  t <- getThis ;;
  let dc := mkRBDistanceConstraint d (Z.of_nat (length (dcRuntimeInfo t))) s1 s2 in
  modifyThis (fun t => set_dcRuntimeInfo (dcRuntimeInfo t ++ [rt0]) t) ;;;
  modifyThis (fun t => set_distanceConstraints (distanceConstraints t ++ [dc]) t) ;;;
  t <- getThis ;;
  ret (Z.of_nat (length (distanceConstraints t)) - 1)%Z.

(** *** The level sweeps *)

(** [for (int j=0 ; j<(int)rbNodeLevels[i].size() ; j++) body(rbNodeLevels[i][j])] *)
Fixpoint for_row (row : list loc) (body : loc -> Tm unit) : Tm unit :=
  match row with
  | [] => ret tt
  | p :: rest => body p ;;; for_row rest body
  end.

(** [for (int i=0 ; i<(int)rbNodeLevels.size() ; i++)]: base to tip. *)
Fixpoint for_levels_up (levels : list (list loc)) (body : loc -> Tm unit) : Tm unit :=
  match levels with
  | [] => ret tt
  | row :: rest => for_row row body ;;; for_levels_up rest body
  end.

(** [for (int i=rbNodeLevels.size()-1 ; i>=0 ; i--)]: tip to base; the first
    argument is [i+1]. *)
Fixpoint for_levels_down (i : nat) (levels : list (list loc))
    (body : loc -> Tm unit) : Tm unit :=
  match i with
  | O => ret tt
  | S k => (row <- defined (levels !! k) ;; for_row row body) ;;;
           for_levels_down k levels body
  end.

Definition sweep_up (body : loc -> Tm unit) : Tm unit :=
  t <- getThis ;; for_levels_up (rbNodeLevels t) body.

Definition sweep_down (body : loc -> Tm unit) : Tm unit :=
  t <- getThis ;;
  for_levels_down (length (rbNodeLevels t)) (rbNodeLevels t) body.

(** The nodes as the stations of the constraints see them now. *)
Definition node_view (w : World) : gmap loc (NodeKinematics T) :=
  map_imap (fun p _ => Some (node_kinematics (calls w) p)) (nodeHeap w).

(** [for (size_t i=0; i < distanceConstraints.size(); ++i)
       distanceConstraints[i].stage(dcRuntimeInfo[distanceConstraints[i].getRuntimeIndex()])] *)
Definition constraint_stage
    (stage : gmap loc (NodeKinematics T) -> (RBDistanceConstraint T -> bool) ->
             RBDistanceConstraint T -> RBDistanceConstraintRuntime T ->
             outcome (RBDistanceConstraintRuntime T))
    (dc : RBDistanceConstraint T) : Tm unit :=
  t <- getThis ;;
  rt <- defined (vec_at (dcRuntimeInfo t) (runtimeIndex dc)) ;;
  w <- get ;;
  rt' <- lift_outcome (stage (node_view w) isValid dc rt) ;;
  modifyThis (set_dcRuntimeInfo
                (<[Z.to_nat (runtimeIndex dc) := rt']> (dcRuntimeInfo t))).

Fixpoint for_constraints (dcs : list (RBDistanceConstraint T))
    (body : RBDistanceConstraint T -> Tm unit) : Tm unit :=
  match dcs with
  | [] => ret tt
  | dc :: rest => body dc ;;; for_constraints rest body
  end.

Definition all_constraints
    (stage : gmap loc (NodeKinematics T) -> (RBDistanceConstraint T -> bool) ->
             RBDistanceConstraint T -> RBDistanceConstraintRuntime T ->
             outcome (RBDistanceConstraintRuntime T)) : Tm unit :=
  t <- getThis ;;
  for_constraints (distanceConstraints t) (constraint_stage stage).

(** The body of the double loop of [realizeConstruction] (lines 160-162). *)
Definition add_node_sizes (p : loc) : Tm unit :=
  n <- node_deref p ;;
  let ndof := DOF n in
  t <- getThis ;;
  d <- int_add (DOFTotal t) ndof ;;
  sq <- int_mul ndof ndof ;;
  s <- int_add (SqDOFTotal t) sq ;;
  q <- int_add (maxNQTotal t) (MaxNQ n) ;;
  modifyThis (set_totals d s q).

(** [void RigidBodyTree::realizeConstruction(ctol, verbose)] *)
Definition realizeConstruction (ctol : T) (verbose : Z) : Tm unit :=
  modifyThis (set_totals 0 0 0) ;;;
  sweep_up add_node_sizes ;;;
  (* lConstraints = new LengthConstraints( *this, ctol, verbose); *)
  w <- get ;;
  let '(s, h) := cxx_new (mkLengthConstraints ctol verbose [] []) (solverHeap w) in
  modify (set_solverHeap (fun _ => h)) ;;;
  modifyThis (set_lConstraints (Some s)) ;;;
  (* lConstraints->construct(distanceConstraints, dcRuntimeInfo); *)
  t <- getThis ;;
  modify (set_solverHeap
            (insert s (mkLengthConstraints ctol verbose
                         (distanceConstraints t) (dcRuntimeInfo t)))) ;;;
  modify (log (EvSolver s SConstruct)).

(** [void RigidBodyTree::realizeConfiguration(const Vector& pos)] *)
Definition realizeConfiguration (pos : Vector) : Tm unit :=
  sweep_up (fun p => node_call p (NRealizeConfiguration pos)) ;;;
  all_constraints calcPosInfo.

(** [void RigidBodyTree::realizeVelocity(const Vector& vel)] *)
Definition realizeVelocity (vel : Vector) : Tm unit :=
  sweep_up (fun p => node_call p (NRealizeVelocity vel)) ;;;
  all_constraints calcVelInfo.

(** [void RigidBodyTree::calcP()] *)
Definition calcP : Tm unit :=
  sweep_down (fun p => node_call p NCalcP).

(** [void RigidBodyTree::prepareForDynamics()] *)
Definition prepareForDynamics : Tm unit := calcP.

(** [node.op(spatialForces[node.getNodeNum()])] *)
Definition with_own_force (spatialForces : list SpatialVec)
    (op : SpatialVec -> NodeCall) (p : loc) : Tm unit :=
  node <- node_deref p ;;
  f <- defined (vec_at spatialForces (nodeNum node)) ;;
  node_call p (op f).

(** [void RigidBodyTree::calcZ(const SpatialVecList& spatialForces)] *)
Definition calcZ (spatialForces : list SpatialVec) : Tm unit :=
  sweep_down (with_own_force spatialForces NCalcZ).

(** [void RigidBodyTree::calcY()] *)
Definition calcY : Tm unit :=
  sweep_up (fun p => node_call p NCalcY).

(** [void RigidBodyTree::calcTreeAccel()] *)
Definition calcTreeAccel : Tm unit :=
  sweep_up (fun p => node_call p NCalcAccel).

(** [void RigidBodyTree::calcTreeInternalForces(const SpatialVecList&)] *)
Definition calcTreeInternalForces (spatialForces : list SpatialVec) : Tm unit :=
  sweep_down (with_own_force spatialForces NCalcInternalForce).

(** [void RigidBodyTree::calcTreeForwardDynamics(const SpatialVecList&)] *)
Definition calcTreeForwardDynamics (spatialForces : list SpatialVec) : Tm unit :=
  calcZ spatialForces ;;;
  calcTreeAccel ;;;
  all_constraints calcAccInfo.

(** [lConstraints->]: the solver pointer must be non-null and live. *)
Definition solver_deref : Tm loc := fun w =>
  match lConstraints (this w) with
  | Some s => match solverHeap w !! s with
              | Some _ => Ok (s, w)
              | None => Undefined
              end
  | None => Undefined
  end.

(** [lConstraints->calcConstraintForces()] *)
Definition lConstraints_calcConstraintForces : Tm bool :=
  s <- solver_deref ;;
  w <- get ;;
  modify (log (EvSolver s SCalcConstraintForces)) ;;;
  ret (lc_calcConstraintForces (calls w)).

(** [lConstraints->addInCorrectionForces(sFrc)]: the list is passed by
    reference and updated in place. *)
Definition lConstraints_addInCorrectionForces (sFrc : loc) : Tm unit :=
  s <- solver_deref ;;
  w <- get ;;
  l <- defined (forceLists w !! sFrc) ;;
  modify (set_forceLists (insert sFrc (lc_addInCorrectionForces (calls w) l))) ;;;
  modify (log (EvSolver s SAddInCorrectionForces)).

Definition read_list (a : loc) : Tm (list SpatialVec) :=
  fun w => defined (forceLists w !! a) w.

(** A local [SpatialVecList] initialised by copy. *)
Definition local_list (init : list SpatialVec) : Tm loc := fun w =>
  let '(a, h) := cxx_new init (forceLists w) in
  Ok (a, set_forceLists (fun _ => h) w).

(** End of scope of a local list. *)
Definition drop_list (a : loc) : Tm unit :=
  modify (set_forceLists (delete a)).

(** [void RigidBodyTree::calcLoopForwardDynamics(const SpatialVecList& spatialForces)];
    the argument is the address of the caller's list. *)
Definition calcLoopForwardDynamics (spatialForces : loc) : Tm unit :=
  (* SpatialVecList sFrc = spatialForces; *)
  init <- read_list spatialForces ;;
  sFrc <- local_list init ;;
  (f <- read_list sFrc ;; calcTreeForwardDynamics f) ;;;
  b <- lConstraints_calcConstraintForces ;;
  (if b
   then lConstraints_addInCorrectionForces sFrc ;;;
        (f <- read_list sFrc ;; calcTreeForwardDynamics f)
   else ret tt) ;;;
  drop_list sFrc.

(** [getNBodies()], the size of the node-number map. *)
Definition getNBodies (t : RigidBodyTree) : nat := length (nodeNum2NodeMap t).


(** *** What a sweep appends to the log *)

Definition log_all (es : list Event) (w : World) : World :=
  mkWorld (this w) (nodeHeap w) (solverHeap w) (forceLists w) (calls w ++ es).

(** The events of the nodes of [l], in order; [None] if some node has none. *)
Fixpoint collect (f : loc -> option Event) (l : list loc) : option (list Event) :=
  match l with
  | [] => Some []
  | p :: rest =>
    match f p, collect f rest with
    | Some e, Some es => Some (e :: es)
    | _, _ => None
    end
  end.

(** The event of [p->op()] on a live node. *)
Definition call_event (c : NodeCall) (h : gmap loc RigidBodyNode) (p : loc)
  : option Event :=
  match h !! p with
  | Some _ => Some (EvNode p c)
  | None => None
  end.

(** The event of [node.op(spatialForces[node.getNodeNum()])]. *)
Definition own_event (spatialForces : list SpatialVec) (op : SpatialVec -> NodeCall)
    (h : gmap loc RigidBodyNode) (p : loc) : option Event :=
  match h !! p with
  | Some n =>
    match vec_at spatialForces (nodeNum n) with
    | Some f => Some (EvNode p (op f))
    | None => None
    end
  | None => None
  end.

(** A loop body that only logs one event, read off the node heap. *)
Definition logging (body : loc -> Tm unit)
    (evf : gmap loc RigidBodyNode -> loc -> option Event) : Prop :=
  forall p w, body p w = match evf (nodeHeap w) p with
                         | Some e => Ok (tt, log e w)
                         | None => Undefined
                         end.

(** The order in which a tip-to-base sweep visits the nodes. *)
Definition tip_to_base (t : RigidBodyTree) : list loc :=
  concat (reverse (rbNodeLevels t)).

(** The order in which a base-to-tip sweep visits the nodes. *)
Definition base_to_tip (t : RigidBodyTree) : list loc :=
  concat (rbNodeLevels t).

Definition in_tree (w : World) (p : loc) : Prop := p ∈ base_to_tip (this w).

Lemma log_all_nil w : log_all [] w = w.
Proof. destruct w. unfold log_all. simpl. by rewrite app_nil_r. Qed.

Lemma log_all_cons e es w : log_all (e :: es) w = log_all es (log e w).
Proof. unfold log_all, log. simpl. by rewrite <- app_assoc. Qed.

Lemma log_all_app es1 es2 w : log_all (es1 ++ es2) w = log_all es2 (log_all es1 w).
Proof. unfold log_all. simpl. by rewrite app_assoc. Qed.

Lemma collect_app f l1 l2 :
  collect f (l1 ++ l2) =
  match collect f l1, collect f l2 with
  | Some a, Some b => Some (a ++ b)
  | _, _ => None
  end.
Proof.
  induction l1 as [|p l1 IH]; simpl.
  - by destruct (collect f l2).
  - rewrite IH. destruct (f p); [|done].
    destruct (collect f l1); [|done]. by destruct (collect f l2).
Qed.

Lemma collect_Some f l es :
  collect f l = Some es <-> Forall2 (fun p e => f p = Some e) l es.
Proof.
  revert es. induction l as [|p l IH]; intros es; simpl.
  - split; [intros [= <-]; constructor|by inversion 1].
  - split.
    + destruct (f p) as [e|] eqn:Ep; [|done].
      destruct (collect f l) as [es'|] eqn:El; [|done].
      intros [= <-]. constructor; [done|]. by apply IH.
    + inversion 1 as [|? e ? es' Hp Hl]; subst. rewrite Hp.
      apply IH in Hl. by rewrite Hl.
Qed.

Lemma collect_is_Some f l :
  is_Some (collect f l) <-> forall p, p ∈ l -> is_Some (f p).
Proof.
  induction l as [|q l IH]; simpl.
  - split; [|eauto]. intros _ p Hp. by apply elem_of_nil in Hp.
  - split.
    + intros [es Hes] p Hp. destruct (f q) as [e|] eqn:Eq; [|done].
      destruct (collect f l) as [es'|] eqn:El; [|done].
      apply elem_of_cons in Hp as [->|Hp]; [by rewrite Eq|].
      apply IH; eauto.
    + intros Hall. destruct (Hall q) as [e ->]; [by left|].
      destruct (proj2 IH) as [es ->]; [|eauto].
      intros p Hp. apply Hall. by right.
Qed.

Lemma node_call_logging c : logging (fun p => node_call p c) (call_event c).
Proof.
  intros p w. unfold node_call, node_deref, call_event, bind, defined.
  by destruct (nodeHeap w !! p).
Qed.

Lemma with_own_force_logging forces op :
  logging (with_own_force forces op) (own_event forces op).
Proof.
  intros p w.
  unfold with_own_force, node_call, node_deref, own_event, bind, defined.
  destruct (nodeHeap w !! p) as [n|] eqn:Hp; simpl; [|done].
  destruct (vec_at forces (nodeNum n)); simpl; [|done].
  unfold ret. by rewrite Hp.
Qed.

Lemma for_row_logging body evf row w :
  logging body evf ->
  for_row row body w = match collect (evf (nodeHeap w)) row with
                       | Some es => Ok (tt, log_all es w)
                       | None => Undefined
                       end.
Proof.
  intros Hlog. revert w. induction row as [|p row IH]; intros w; simpl.
  - unfold ret. by rewrite log_all_nil.
  - unfold bind. rewrite Hlog.
    destruct (evf (nodeHeap w) p) as [e|]; [|done].
    rewrite IH. simpl.
    destruct (collect (evf (nodeHeap w)) row) as [es|]; [|done].
    by rewrite log_all_cons.
Qed.

Lemma for_levels_up_logging body evf levels w :
  logging body evf ->
  for_levels_up levels body w =
  match collect (evf (nodeHeap w)) (concat levels) with
  | Some es => Ok (tt, log_all es w)
  | None => Undefined
  end.
Proof.
  intros Hlog. revert w. induction levels as [|row levels IH]; intros w; simpl.
  - unfold ret. by rewrite log_all_nil.
  - unfold bind. rewrite (for_row_logging body evf row w Hlog), collect_app.
    destruct (collect (evf (nodeHeap w)) row) as [es1|]; [|done].
    rewrite IH. simpl.
    destruct (collect (evf (nodeHeap w)) (concat levels)) as [es2|]; [|done].
    by rewrite log_all_app.
Qed.

Lemma for_levels_down_logging body evf levels k w :
  logging body evf -> (k <= length levels)%nat ->
  for_levels_down k levels body w =
  match collect (evf (nodeHeap w)) (concat (reverse (take k levels))) with
  | Some es => Ok (tt, log_all es w)
  | None => Undefined
  end.
Proof.
  intros Hlog. revert w. induction k as [|k IH]; intros w Hk; simpl.
  - unfold ret. by rewrite log_all_nil.
  - destruct (lookup_lt_is_Some_2 levels k) as [row Hrow]; [lia|].
    rewrite (take_S_r _ _ _ Hrow), reverse_snoc. simpl.
    unfold bind at 1. unfold bind at 1. rewrite Hrow. simpl.
    rewrite (for_row_logging body evf row w Hlog), collect_app.
    destruct (collect (evf (nodeHeap w)) row) as [es1|]; [|done].
    rewrite IH by lia. simpl.
    destruct (collect (evf (nodeHeap w)) (concat (reverse (take k levels))))
      as [es2|]; [|done].
    by rewrite log_all_app.
Qed.

Lemma sweep_up_logging body evf w :
  logging body evf ->
  sweep_up body w =
  match collect (evf (nodeHeap w)) (base_to_tip (this w)) with
  | Some es => Ok (tt, log_all es w)
  | None => Undefined
  end.
Proof.
  intros Hlog. unfold sweep_up, bind, getThis.
  by apply for_levels_up_logging.
Qed.

Lemma sweep_down_logging body evf w :
  logging body evf ->
  sweep_down body w =
  match collect (evf (nodeHeap w)) (tip_to_base (this w)) with
  | Some es => Ok (tt, log_all es w)
  | None => Undefined
  end.
Proof.
  intros Hlog. unfold sweep_down, bind, getThis, tip_to_base.
  rewrite (for_levels_down_logging body evf _ _ w Hlog) by done.
  by rewrite firstn_all.
Qed.

Lemma tip_to_base_elem t p : p ∈ tip_to_base t <-> p ∈ base_to_tip t.
Proof.
  unfold tip_to_base, base_to_tip. rewrite !elem_of_concat.
  split; intros (row & Hp & Hrow); exists row; split; try done.
  - by rewrite elem_of_reverse in Hrow.
  - by rewrite elem_of_reverse.
Qed.


(** *** Invariants of a tree under construction *)

(** Every node stored at level [i] is live and has level [i]; no node is
    stored twice. *)
Definition levels_wf (w : World) : Prop :=
  NoDup (base_to_tip (this w)) /\
  forall i row p, rbNodeLevels (this w) !! i = Some row -> p ∈ row ->
    exists n, nodeHeap w !! p = Some n /\ level n = Z.of_nat i.

(** Node numbers are dense: every node of the tree is live and carries a
    number below [getNBodies], and entry [k] of [nodeNum2NodeMap] locates the
    node whose number is [k]. *)
Definition nums_wf (w : World) : Prop :=
  (forall p, in_tree w p ->
     exists n, nodeHeap w !! p = Some n /\
               (0 <= nodeNum n < Z.of_nat (getNBodies (this w)))%Z) /\
  (forall k ix, nodeNum2NodeMap (this w) !! k = Some ix ->
     exists row p n,
       vec_at (rbNodeLevels (this w)) (ix_level ix) = Some row /\
       vec_at row (ix_offset ix) = Some p /\
       nodeHeap w !! p = Some n /\ nodeNum n = Z.of_nat k).

(** The parent of a node of the tree is a node of the tree, one level up. *)
Definition links_wf (w : World) : Prop :=
  forall c nc p, in_tree w c -> nodeHeap w !! c = Some nc -> parent nc = Some p ->
    in_tree w p /\
    exists np, nodeHeap w !! p = Some np /\ level nc = (level np + 1)%Z.

(** [a] is processed before [b] in the visiting order [order]. *)
Definition processed_before (order : list loc) (a b : loc) : Prop :=
  exists i j, order !! i = Some a /\ order !! j = Some b /\ (i < j)%nat.

(** The event logged for [p] is the call [op] on [p] with the entry of
    [spatialForces] at [p]'s own node number. *)
Definition own_slot (spatialForces : list SpatialVec) (op : SpatialVec -> NodeCall)
    (w : World) (p : loc) (e : Event) : Prop :=
  exists n f, nodeHeap w !! p = Some n /\
              (0 <= nodeNum n)%Z /\
              spatialForces !! Z.to_nat (nodeNum n) = Some f /\
              e = EvNode p (op f).

Lemma vec_at_Some {A} (v : list A) i x :
  vec_at v i = Some x <-> (0 <= i)%Z /\ v !! Z.to_nat i = Some x.
Proof.
  unfold vec_at. destruct (Z.ltb_spec i 0); split; try done.
  - intros [? _]. lia.
  - intros [_ ?]. done.
Qed.

Lemma vec_at_is_Some {A} (v : list A) i :
  is_Some (vec_at v i) <-> (0 <= i < Z.of_nat (length v))%Z.
Proof.
  split.
  - intros [x Hx]. apply vec_at_Some in Hx as [Hi Hx].
    apply lookup_lt_Some in Hx. lia.
  - intros Hi. destruct (lookup_lt_is_Some_2 v (Z.to_nat i)) as [x Hx]; [lia|].
    exists x. apply vec_at_Some. split; [lia|done].
Qed.

Lemma in_tree_row w p :
  in_tree w p <->
  exists i row, rbNodeLevels (this w) !! i = Some row /\ p ∈ row.
Proof.
  unfold in_tree, base_to_tip. rewrite elem_of_concat. split.
  - intros (row & Hp & Hrow). apply list_elem_of_lookup in Hrow as [i Hi]. eauto.
  - intros (i & row & Hi & Hp). exists row. split; [done|].
    apply list_elem_of_lookup. eauto.
Qed.

Lemma collect_call_event c (h : gmap loc RigidBodyNode) l :
  (forall p, p ∈ l -> is_Some (h !! p)) ->
  collect (call_event c h) l = Some (map (fun p => EvNode p c) l).
Proof.
  induction l as [|q l IH]; intros Hall; simpl; [done|].
  unfold call_event at 1. destruct (Hall q) as [n ->]; [by left|].
  rewrite IH; [done|]. intros p Hp. apply Hall. by right.
Qed.

Lemma nums_wf_live w p : nums_wf w -> in_tree w p -> is_Some (nodeHeap w !! p).
Proof. intros [Hn _] Hp. destruct (Hn p Hp) as (n & -> & _). eauto. Qed.

(** A sweep that hands each node its own force: when it succeeds and what it
    logs. *)
Lemma own_force_sweep w forces op :
  nums_wf w ->
  ((getNBodies (this w) <= length forces)%nat ->
     exists es, sweep_down (with_own_force forces op) w = Ok (tt, log_all es w) /\
                Forall2 (own_slot forces op w) (tip_to_base (this w)) es) /\
  ((length forces < getNBodies (this w))%nat ->
     sweep_down (with_own_force forces op) w = Undefined).
Proof.
  intros [Hnum Hreg].
  rewrite (sweep_down_logging _ _ w (with_own_force_logging forces op)).
  split.
  - intros Hlen.
    destruct (proj2 (collect_is_Some (own_event forces op (nodeHeap w))
                       (tip_to_base (this w)))) as [es Hes].
    { intros p Hp. apply tip_to_base_elem in Hp.
      destruct (Hnum p Hp) as (n & Hn & Hrange).
      unfold own_event. rewrite Hn.
      destruct (proj2 (vec_at_is_Some forces (nodeNum n))) as [f ->]; [lia|].
      eauto. }
    rewrite Hes. exists es. split; [done|].
    apply collect_Some in Hes. eapply Forall2_impl; [exact Hes|].
    intros p e. unfold own_event, own_slot.
    destruct (nodeHeap w !! p) as [n|]; [|done].
    destruct (vec_at forces (nodeNum n)) as [f|] eqn:Hf; [|done].
    intros [= <-]. apply vec_at_Some in Hf as [Hz Hf]. by exists n, f.
  - intros Hlen.
    destruct (collect (own_event forces op (nodeHeap w)) (tip_to_base (this w)))
      as [es|] eqn:Hes; [|done].
    exfalso. unfold getNBodies in Hlen.
    destruct (lookup_lt_is_Some_2 (nodeNum2NodeMap (this w))
                (length (nodeNum2NodeMap (this w)) - 1)) as [ix Hix]; [lia|].
    destruct (Hreg _ _ Hix) as (row & p & n & Hrow & Hp & Hn & Hk).
    apply vec_at_Some in Hrow as [_ Hrow]. apply vec_at_Some in Hp as [_ Hp].
    assert (p ∈ tip_to_base (this w)) as Hin.
    { apply tip_to_base_elem, in_tree_row. eexists _, row. split; [done|].
      apply list_elem_of_lookup. eauto. }
    destruct (proj1 (collect_is_Some _ _) (ex_intro _ es Hes) p Hin) as [e He].
    unfold own_event in He. rewrite Hn in He.
    destruct (vec_at forces (nodeNum n)) as [f|] eqn:Hf; [|done].
    apply vec_at_Some in Hf as [_ Hf]. apply lookup_lt_Some in Hf. lia.
Qed.

(** C10. On a tree with dense node numbers, [calcZ] and
    [calcTreeInternalForces] hand every node of the tree, the ground node
    included, the entry of the force list at the node's own number; the reads
    are all in bounds exactly when the list has an entry for each of the
    [getNBodies] bodies, and one that is not is undefined behaviour. *)
Theorem spatial_force_access w forces :
  nums_wf w ->
  ((getNBodies (this w) <= length forces)%nat ->
     exists esZ esF,
       calcZ forces w = Ok (tt, log_all esZ w) /\
       calcTreeInternalForces forces w = Ok (tt, log_all esF w) /\
       Forall2 (own_slot forces NCalcZ w) (tip_to_base (this w)) esZ /\
       Forall2 (own_slot forces NCalcInternalForce w) (tip_to_base (this w)) esF) /\
  ((length forces < getNBodies (this w))%nat ->
     calcZ forces w = Undefined /\
     calcTreeInternalForces forces w = Undefined) /\
  (forall p, in_tree w p <-> p ∈ tip_to_base (this w)).
Proof.
  intros Hwf.
  destruct (own_force_sweep w forces NCalcZ Hwf) as [HZ1 HZ2].
  destruct (own_force_sweep w forces NCalcInternalForce Hwf) as [HF1 HF2].
  split; [|split].
  - intros Hlen. destruct (HZ1 Hlen) as (esZ & EZ & FZ).
    destruct (HF1 Hlen) as (esF & EF & FF). by exists esZ, esF.
  - intros Hlen. split; [by apply HZ2|by apply HF2].
  - intros p. symmetry. apply tip_to_base_elem.
Qed.

(** Nodes of a higher level come first in the tip-to-base order. *)
Lemma tip_to_base_by_level w n m nn nm :
  levels_wf w -> in_tree w n -> in_tree w m ->
  nodeHeap w !! n = Some nn -> nodeHeap w !! m = Some nm ->
  (level nm < level nn)%Z ->
  processed_before (tip_to_base (this w)) n m.
Proof.
  intros [_ Hlev] Hn Hm Hnn Hnm Hlt.
  apply in_tree_row in Hn as (a & ra & Ha & Hna).
  apply in_tree_row in Hm as (b & rb & Hb & Hmb).
  destruct (Hlev a ra n Ha Hna) as (nn' & Hnn' & La).
  destruct (Hlev b rb m Hb Hmb) as (nm' & Hnm' & Lb).
  assert (nn' = nn) as -> by congruence.
  assert (nm' = nm) as -> by congruence.
  pose proof (lookup_lt_Some _ _ _ Ha) as Hla.
  pose proof (lookup_lt_Some _ _ _ Hb) as Hlb.
  set (len := length (rbNodeLevels (this w))) in *.
  unfold processed_before, tip_to_base.
  apply (concat_rows_ordered _ (len - S a) (len - S b) ra rb); try done.
  - rewrite reverse_lookup by (fold len; lia).
    fold len. replace (len - S (len - S a))%nat with a by lia. done.
  - rewrite reverse_lookup by (fold len; lia).
    fold len. replace (len - S (len - S b))%nat with b by lia. done.
  - lia.
Qed.

(** C1. On a well-formed tree, the tip-to-base sweeps [calcP] and [calcZ]
    call each node of the tree exactly once, in one common order in which a
    node of a higher level is processed strictly before every node of a lower
    level; in particular a child is processed strictly before its parent. *)
Theorem tip_to_base_sweeps_by_level w forces :
  levels_wf w -> nums_wf w -> links_wf w ->
  (getNBodies (this w) <= length forces)%nat ->
  let order := tip_to_base (this w) in
  exists esZ,
    calcP w = Ok (tt, log_all (map (fun p => EvNode p NCalcP) order) w) /\
    calcZ forces w = Ok (tt, log_all esZ w) /\
    Forall2 (own_slot forces NCalcZ w) order esZ /\
    NoDup order /\
    (forall p, in_tree w p <-> p ∈ order) /\
    (forall n m nn nm,
       in_tree w n -> in_tree w m ->
       nodeHeap w !! n = Some nn -> nodeHeap w !! m = Some nm ->
       (level nm < level nn)%Z ->
       processed_before order n m) /\
    (forall c p nc,
       in_tree w c -> nodeHeap w !! c = Some nc -> parent nc = Some p ->
       processed_before order c p).
Proof.
  intros Hlev Hnum Hlink Hlen order.
  destruct (own_force_sweep w forces NCalcZ Hnum) as [HZ _].
  destruct (HZ Hlen) as (esZ & EZ & FZ).
  exists esZ. split; [|split; [exact EZ|split; [exact FZ|]]].
  - unfold calcP.
    rewrite (sweep_down_logging _ _ w (node_call_logging NCalcP)).
    rewrite collect_call_event; [done|].
    intros p Hp. apply tip_to_base_elem in Hp. by apply nums_wf_live.
  - split; [apply NoDup_concat_reverse, Hlev|].
    split; [intros p; symmetry; apply tip_to_base_elem|].
    split.
    + intros n m nn nm. by apply tip_to_base_by_level.
    + intros c p nc Hc Hnc Hp.
      destruct (Hlink c nc p Hc Hnc Hp) as (Hin & np & Hnp & Hl).
      apply (tip_to_base_by_level w c p nc np); try done. lia.
Qed.


Lemma in_int_true z : (INT_MIN <= z <= INT_MAX)%Z -> in_int z = true.
Proof.
  intros [Hlo Hhi]. unfold in_int.
  apply andb_true_intro. split; by apply Z.leb_le.
Qed.

Lemma int_add_Ok (a b : Z) (w : World) :
  (INT_MIN <= a + b <= INT_MAX)%Z -> int_add a b w = Ok ((a + b)%Z, w).
Proof. intros Hr. unfold int_add. by rewrite in_int_true. Qed.

Lemma bind_Ok {A B} (c : Tm A) (k : A -> Tm B) w a w' :
  c w = Ok (a, w') -> bind c k w = k a w'.
Proof. intros Hc. unfold bind. by rewrite Hc. Qed.

Lemma node_deref_Ok w p n : nodeHeap w !! p = Some n -> node_deref p w = Ok (n, w).
Proof. intros Hp. unfold node_deref. by rewrite Hp. Qed.

Lemma node_update_Ok w p n f :
  nodeHeap w !! p = Some n ->
  node_update p f w = Ok (tt, set_nodeHeap (insert p (f n)) w).
Proof. intros Hp. unfold node_update. by rewrite (bind_Ok _ _ _ _ _ (node_deref_Ok w p n Hp)). Qed.

(** Lines 110-112: the node lands in row [lvl] of the table. *)
Lemma place_in_level (w : World) (lvl : Z) (n : loc) (k : list loc -> Tm Z) :
  (0 <= lvl)%Z -> (lvl + 1 <= INT_MAX)%Z ->
  ((t <- getThis ;;
   (if (Z.of_nat (length (rbNodeLevels t)) <=? lvl)%Z
    then sz <- int_add lvl 1 ;;
         modifyThis (set_rbNodeLevels (vec_resize [] (Z.to_nat sz) (rbNodeLevels t)))
    else ret tt) ;;;
   t <- getThis ;;
   row <- defined (vec_at (rbNodeLevels t) lvl) ;;
   modifyThis (set_rbNodeLevels (<[Z.to_nat lvl := row ++ [n]]> (rbNodeLevels t))) ;;;
   k row) w) =
  k (default [] (rbNodeLevels (this w) !! Z.to_nat lvl))
    (set_this (set_rbNodeLevels (place (rbNodeLevels (this w)) (Z.to_nat lvl) n)) w).
Proof.
  intros Hlo Hhi.
  assert (INT_MIN <= lvl + 1 <= INT_MAX)%Z as R by (unfold INT_MIN, INT_MAX in *; lia).
  destruct (place_grown_spec (rbNodeLevels (this w)) (Z.to_nat lvl))
    as (_ & Hlen & HL & _). cbv zeta in *.
  unfold place. unfold bind at 1, getThis at 1.
  destruct (Z.leb_spec (Z.of_nat (length (rbNodeLevels (this w)))) lvl) as [Hle|Hlt].
  - rewrite (proj2 (Nat.leb_le _ _)) in * by lia.
    unfold bind at 1. unfold bind at 1. rewrite int_add_Ok by done.
    unfold modifyThis, modify. simpl.
    replace (Z.to_nat (lvl + 1)) with (S (Z.to_nat lvl)) by lia.
    unfold bind at 1, getThis at 1. simpl.
    unfold bind at 1. unfold vec_at. rewrite (proj2 (Z.ltb_ge _ _)) by lia.
    rewrite HL. simpl. unfold bind at 1. simpl.
    destruct w as [t h sh fl c]; destruct t; simpl. reflexivity.
  - rewrite (proj2 (Nat.leb_gt _ _)) in * by lia.
    unfold bind at 1. unfold ret at 1.
    unfold bind at 1, getThis at 1. simpl.
    unfold bind at 1. unfold vec_at. rewrite (proj2 (Z.ltb_ge _ _)) by lia.
    rewrite HL. simpl. unfold bind at 1. unfold modifyThis, modify. simpl.
    destruct w as [t h sh fl c]; destruct t; simpl. reflexivity.
Qed.


(** The node heap after [addRigidBodyNode]: node [n] has its level, number
    and parent set; the parent keeps its own level and number; every other
    node is untouched. *)
Definition heap_after (h : gmap loc RigidBodyNode) (par n : loc) (lvl num : Z)
    (h' : gmap loc RigidBodyNode) : Prop :=
  (forall q, q <> par -> q <> n -> h' !! q = h !! q) /\
  (exists n', h' !! n = Some n' /\ level n' = lvl /\ nodeNum n' = num /\
              parent n' = Some par /\
              forall nn, h !! n = Some nn -> DOF n' = DOF nn /\ MaxNQ n' = MaxNQ nn) /\
  (par <> n ->
     exists pn p', h !! par = Some pn /\ h' !! par = Some p' /\
                   level p' = level pn /\ nodeNum p' = nodeNum pn /\
                   parent p' = parent pn /\
                   DOF p' = DOF pn /\ MaxNQ p' = MaxNQ pn /\
                   children p' = children pn ++ [n]).

Lemma addChild_Ok w par child cfg a b :
  nodeHeap w !! par = Some a -> nodeHeap w !! child = Some b ->
  exists h', addChild par child cfg w =
               Ok (tt, mkWorld (this w) h' (solverHeap w) (forceLists w) (calls w)) /\
             heap_after (nodeHeap w) par child (level b) (nodeNum b) h'.
Proof.
  intros Ha Hb. unfold addChild.
  rewrite (bind_Ok _ _ _ _ _ (node_update_Ok w par a _ Ha)).
  destruct (decide (par = child)) as [->|Hne].
  - assert (a = b) as -> by congruence.
    erewrite node_update_Ok; [|simpl; apply lookup_insert_eq].
    eexists. split; [reflexivity|]. simpl.
    split; [|split].
    + intros q Hq _. by rewrite !lookup_insert_ne.
    + eexists. split; [apply lookup_insert_eq|]. simpl.
      do 3 (split; [done|]). intros b' Hb'.
      assert (b' = b) as -> by congruence. done.
    + done.
  - erewrite node_update_Ok; [|simpl; rewrite lookup_insert_ne by done; exact Hb].
    eexists. split; [reflexivity|]. simpl.
    split; [|split].
    + intros q Hq1 Hq2. by rewrite !lookup_insert_ne.
    + eexists. split; [apply lookup_insert_eq|]. simpl.
      do 3 (split; [done|]). intros b' Hb'.
      assert (b' = b) as -> by congruence. done.
    + intros _. exists a. eexists.
      split; [done|]. split.
      { rewrite lookup_insert_ne by done. apply lookup_insert_eq. }
      simpl. by repeat split.
Qed.

(** What [addRigidBodyNode] leaves behind. *)
Lemma addRigidBodyNode_run w par cfg n pn nn :
  nodeHeap w !! par = Some pn -> nodeHeap w !! n = Some nn ->
  (-1 <= level pn)%Z -> (level pn + 2 <= INT_MAX)%Z ->
  let lvl := (level pn + 1)%Z in
  let row := default [] (rbNodeLevels (this w) !! Z.to_nat lvl) in
  let num := Z.of_nat (getNBodies (this w)) in
  exists h',
    addRigidBodyNode par cfg n w =
      Ok (num,
          mkWorld
            (set_nodeNum2NodeMap
               (nodeNum2NodeMap (this w) ++
                [mkRigidBodyNodeIndex lvl (Z.of_nat (length row))])
               (set_rbNodeLevels (place (rbNodeLevels (this w)) (Z.to_nat lvl) n)
                  (this w)))
            h' (solverHeap w) (forceLists w) (calls w)) /\
    heap_after (nodeHeap w) par n lvl num h'.
Proof.
  intros Hpar Hn Hlo Hhi lvl row num.
  assert (INT_MIN <= level pn + 1 <= INT_MAX)%Z as R1 by (unfold INT_MIN, INT_MAX in *; lia).
  unfold addRigidBodyNode.
  rewrite (bind_Ok _ _ _ _ _ (node_deref_Ok w par pn Hpar)).
  rewrite (bind_Ok _ _ _ _ _ (int_add_Ok _ _ _ R1)).
  rewrite (bind_Ok _ _ _ _ _ (node_update_Ok w n nn _ Hn)).
  cbv zeta. rewrite place_in_level by lia.
  unfold bind at 1, getThis at 1. unfold bind at 1, modifyThis at 1, modify at 1.
  fold lvl. simpl rbNodeLevels. simpl nodeNum2NodeMap. fold row.
  erewrite (bind_Ok (node_update n _)); [|apply node_update_Ok; simpl; apply lookup_insert_eq].
  set (w2 := set_nodeHeap _ _).
  set (b := setNodeNum num (setLevel lvl nn)).
  assert (nodeHeap w2 !! n = Some b) as Hb.
  { subst w2. simpl. apply lookup_insert_eq. }
  assert (exists a, nodeHeap w2 !! par = Some a) as [a Ha].
  { destruct (decide (par = n)) as [->|Hne]; [eauto|].
    exists pn. subst w2. simpl. by rewrite !lookup_insert_ne. }
  destruct (addChild_Ok w2 par n cfg a b Ha Hb) as (h' & Hrun & Hother & Hnode & Hparent).
  exists h'. split.
  - rewrite (bind_Ok _ _ _ _ _ Hrun). reflexivity.
  - split; [|split].
    + intros q Hq1 Hq2. rewrite (Hother q Hq1 Hq2). subst w2. simpl.
      by rewrite !lookup_insert_ne.
    + destruct Hnode as (n' & Hn' & Hl' & Hk' & Hp' & Hsz). exists n'.
      do 4 (split; [done|]). intros nn0 Hnn0.
      assert (nn0 = nn) as -> by congruence. apply (Hsz b Hb).
    + intros Hne. destruct (Hparent Hne) as (pn0 & p' & Hpn0 & Hrest).
      assert (pn0 = pn) as ->.
      { subst w2. simpl in Hpn0. rewrite !lookup_insert_ne in Hpn0 by done. congruence. }
      exists pn, p'. by split.
Qed.

(** A node that was in the tree before [addRigidBodyNode] keeps its level,
    number and parent. *)
Lemma heap_after_old h par n lvl num h' q nq :
  heap_after h par n lvl num h' -> q <> n -> h !! q = Some nq ->
  exists nq', h' !! q = Some nq' /\ level nq' = level nq /\
              nodeNum nq' = nodeNum nq /\ parent nq' = parent nq.
Proof.
  intros (Hother & _ & Hpar) Hqn Hq.
  destruct (decide (q = par)) as [->|Hqp].
  - destruct (Hpar Hqn) as (pn & p' & Hpn & Hp' & Hl & Hk & Hp & _).
    assert (pn = nq) as -> by congruence. by exists p'.
  - exists nq. by rewrite (Hother q Hqp Hqn).
Qed.

(** [addRigidBodyNode] of a node that is not yet in the tree keeps the tree
    well formed, whatever live node is named as parent. *)
Lemma addRigidBodyNode_wf w par cfg n pn nn :
  levels_wf w -> nums_wf w ->
  nodeHeap w !! par = Some pn -> nodeHeap w !! n = Some nn ->
  ~ in_tree w n ->
  (-1 <= level pn)%Z -> (level pn + 2 <= INT_MAX)%Z ->
  exists w',
    addRigidBodyNode par cfg n w = Ok (Z.of_nat (getNBodies (this w)), w') /\
    levels_wf w' /\ nums_wf w' /\
    (forall p, in_tree w' p <-> p = n \/ in_tree w p) /\
    getNBodies (this w') = S (getNBodies (this w)) /\
    (links_wf w -> in_tree w par -> links_wf w').
Proof.
  intros [Hnd Hlev] [Hnum Hreg] Hpar Hn Hfresh Hlo Hhi.
  destruct (addRigidBodyNode_run w par cfg n pn nn Hpar Hn Hlo Hhi)
    as (h' & Hrun & Hheap).
  cbv zeta in Hrun. eexists. split; [exact Hrun|].
  set (lvl := (level pn + 1)%Z) in *.
  set (L := Z.to_nat lvl) in *.
  set (levels := rbNodeLevels (this w)) in *.
  assert (forall p, p ∈ concat (place levels L n) <-> p = n \/ in_tree w p) as Hin.
  { intros p. rewrite (place_perm levels L n). apply elem_of_cons. }
  assert (forall q nq, in_tree w q -> nodeHeap w !! q = Some nq ->
            exists nq', h' !! q = Some nq' /\ level nq' = level nq /\
                        nodeNum nq' = nodeNum nq /\ parent nq' = parent nq) as Hold.
  { intros q nq Hq Hnq. apply (heap_after_old _ _ _ _ _ _ q nq Hheap); [|done].
    intros ->. done. }
  destruct Hheap as (Hother & (n' & Hn' & Hln' & Hkn' & Hpn' & _) & Hparent).
  split; [|split; [|split; [|split]]].
  - (* levels_wf *)
    split.
    + unfold base_to_tip. simpl. rewrite (place_perm levels L n).
      apply NoDup_cons. split; [exact Hfresh|exact Hnd].
    + simpl. intros i row' p Hi Hp.
      destruct (place_lookup_inv levels L n i row' p Hi Hp)
        as [[-> ->]|(row & Hrow & Hprow)].
      * exists n'. split; [done|]. subst L. lia.
      * destruct (Hlev i row p Hrow Hprow) as (np & Hnp & Hlp).
        destruct (Hold p np) as (np' & Hnp' & Hl & _); [|done|].
        { apply in_tree_row. eauto. }
        exists np'. split; [done|]. congruence.
  - (* nums_wf *)
    split.
    + intros p Hp. unfold in_tree, base_to_tip in Hp. simpl in Hp.
      apply Hin in Hp as [->|Hp].
      * exists n'. split; [done|]. unfold getNBodies. simpl.
        rewrite length_app. simpl. unfold getNBodies in Hkn'. lia.
      * destruct (Hnum p Hp) as (np & Hnp & Hrange).
        destruct (Hold p np Hp Hnp) as (np' & Hnp' & _ & Hk & _).
        exists np'. split; [done|]. unfold getNBodies in *. simpl.
        rewrite length_app. simpl. lia.
    + simpl. intros k ix Hk.
      apply lookup_app_Some in Hk as [Hk|[Hge Hk]].
      * destruct (Hreg k ix Hk) as (row & p & np & Hrow & Hp & Hnp & Hkp).
        apply vec_at_Some in Hrow as [Hz1 Hrow].
        apply vec_at_Some in Hp as [Hz2 Hp].
        destruct (place_lookup_old levels L n _ row Hrow) as (row' & Hrow' & Hpre).
        assert (in_tree w p) as Hpin.
        { apply in_tree_row. eexists _, row. split; [done|].
          apply list_elem_of_lookup. eauto. }
        destruct (Hold p np Hpin Hnp) as (np' & Hnp' & _ & Hk' & _).
        exists row', p, np'. split; [by apply vec_at_Some|].
        split; [apply vec_at_Some; split; [done|by apply Hpre]|].
        split; [done|]. congruence.
      * apply list_lookup_singleton_Some in Hk as [Hk0 <-]. simpl.
        eexists _, n, n'. split.
        { apply vec_at_Some. split; [lia|]. apply place_lookup. }
        split.
        { apply vec_at_Some. split; [lia|]. rewrite Nat2Z.id.
          rewrite lookup_app_r by lia. by rewrite Nat.sub_diag. }
        split; [done|]. rewrite Hkn'. unfold getNBodies. lia.
  - intros p. unfold in_tree at 1, base_to_tip. simpl. apply Hin.
  - unfold getNBodies. simpl. rewrite length_app. simpl. lia.
  - (* links_wf *)
    intros Hlink Hparin c nc' p Hc Hnc' Hp.
    unfold in_tree, base_to_tip in Hc. simpl in Hc, Hnc'.
    unfold in_tree at 1, base_to_tip. simpl.
    assert (par <> n) as Hne by (intros ->; done).
    destruct (Hold par pn Hparin Hpar) as (p' & Hp' & Hlp' & _).
    apply Hin in Hc as [->|Hc].
    + assert (nc' = n') as -> by congruence.
      assert (p = par) as -> by congruence.
      split; [apply Hin; by right|].
      exists p'. split; [done|]. lia.
    + destruct (nums_wf_live w c (conj Hnum Hreg) Hc) as [nc Hnc].
      destruct (Hold c nc Hc Hnc) as (nc0 & Hnc0 & Hl0 & _ & Hp0).
      assert (nc0 = nc') as -> by congruence.
      destruct (Hlink c nc p Hc Hnc) as (Hpin & np & Hnp & Hlnp); [congruence|].
      split; [apply Hin; by right|].
      destruct (Hold p np Hpin Hnp) as (np' & Hnp' & Hl' & _).
      exists np'. split; [done|]. lia.
Qed.

(** A tree before [addGroundNode]. *)
Definition no_nodes (w : World) : Prop :=
  rbNodeLevels (this w) = [] /\ nodeNum2NodeMap (this w) = [].

Lemma addGroundNode_run w :
  no_nodes w ->
  let g := fresh (dom (nodeHeap w)) in
  nodeHeap w !! g = None /\
  addGroundNode w =
    Ok (tt, mkWorld
              (set_nodeNum2NodeMap [mkRigidBodyNodeIndex 0 0]
                 (set_rbNodeLevels [[g]] (this w)))
              (<[g := mkRigidBodyNode 0 0 0 0 None None []]> (nodeHeap w))
              (solverHeap w) (forceLists w) (calls w)).
Proof.
  intros [Hl Hm] g.
  assert (nodeHeap w !! g = None) as Hg by apply not_elem_of_dom, is_fresh.
  split; [done|].
  unfold addGroundNode.
  unfold bind at 1, getThis at 1. rewrite Hm, Hl. simpl length. simpl Nat.eqb.
  unfold bind at 1, cxx_assert at 1. unfold bind at 1, cxx_assert at 1.
  unfold bind at 1, createGround, cxx_new. fold g. simpl.
  erewrite (bind_Ok (node_update _ _));
    [|apply node_update_Ok; simpl; apply lookup_insert_eq].
  unfold bind at 1, modifyThis at 1, modify at 1.
  unfold bind at 1, getThis at 1. simpl. rewrite Hl. simpl.
  unfold bind at 1. simpl.
  unfold bind at 1, modifyThis at 1, modify at 1.
  unfold bind at 1, modifyThis at 1, modify at 1.
  erewrite node_update_Ok; [|simpl; apply lookup_insert_eq].
  unfold set_nodeHeap, set_this, set_nodeNum2NodeMap, set_rbNodeLevels. simpl.
  rewrite ?Hl, ?Hm, !insert_insert_eq. reflexivity.
Qed.

(** [addGroundNode] on a tree without nodes yields a well-formed tree whose
    only node is the ground node, at level 0 with number 0. *)
Lemma addGroundNode_wf w :
  no_nodes w ->
  exists w' g,
    addGroundNode w = Ok (tt, w') /\
    levels_wf w' /\ nums_wf w' /\ links_wf w' /\
    nodeHeap w !! g = None /\
    (forall p, in_tree w' p <-> p = g) /\
    (forall q, q <> g -> nodeHeap w' !! q = nodeHeap w !! q) /\
    nodeHeap w' !! g = Some (mkRigidBodyNode 0 0 0 0 None None []) /\
    getNBodies (this w') = 1%nat.
Proof.
  intros Hempty. destruct (addGroundNode_run w Hempty) as [Hfresh Hrun].
  cbv zeta in *. set (g := fresh (dom (nodeHeap w))) in *.
  eexists _, g. split; [exact Hrun|].
  assert (forall p, p ∈ concat [[g]] <-> p = g) as Hin.
  { intros p. simpl. apply list_elem_of_singleton. }
  split; [|split; [|split; [|split; [done|split; [|split; [|split]]]]]].
  - split.
    + unfold base_to_tip. simpl. apply NoDup_singleton.
    + simpl. intros i row p Hi Hp.
      destruct i as [|i]; [|done]. injection Hi as <-.
      apply list_elem_of_singleton in Hp as ->.
      eexists. split; [apply lookup_insert_eq|done].
  - split.
    + intros p Hp. unfold in_tree, base_to_tip in Hp. simpl in Hp.
      apply Hin in Hp as ->. eexists. split; [apply lookup_insert_eq|].
      unfold getNBodies. simpl. lia.
    + simpl. intros k ix Hk. destruct k as [|k]; [|done]. injection Hk as <-.
      exists [g], g. eexists. split; [done|]. split; [done|].
      split; [apply lookup_insert_eq|done].
  - intros c nc p Hc Hnc Hp. unfold in_tree, base_to_tip in Hc. simpl in Hc, Hnc.
    apply Hin in Hc as ->. rewrite lookup_insert_eq in Hnc.
    injection Hnc as <-. done.
  - intros p. unfold in_tree, base_to_tip. simpl. apply Hin.
  - intros q Hq. simpl. by rewrite lookup_insert_ne.
  - simpl. apply lookup_insert_eq.
  - done.
Qed.


(** C7 (as the code has it). [addRigidBodyNode] never asks whether the parent
    belongs to the tree: for any live parent node, in the tree or not, whose
    level is at least -1 (and below the [int] limit), a live node [n] is
    inserted at level [parent.level + 1], gets the next node number, which is
    returned, and is linked to that parent. *)
Theorem addRigidBodyNode_any_parent w par cfg n pn nn :
  nodeHeap w !! par = Some pn -> nodeHeap w !! n = Some nn ->
  (-1 <= level pn)%Z -> (level pn + 2 <= INT_MAX)%Z ->
  exists w' n',
    addRigidBodyNode par cfg n w = Ok (Z.of_nat (getNBodies (this w)), w') /\
    in_tree w' n /\
    rbNodeLevels (this w') !! Z.to_nat (level pn + 1) =
      Some (default [] (rbNodeLevels (this w) !! Z.to_nat (level pn + 1)) ++ [n]) /\
    nodeHeap w' !! n = Some n' /\
    level n' = (level pn + 1)%Z /\
    nodeNum n' = Z.of_nat (getNBodies (this w)) /\
    parent n' = Some par /\
    getNBodies (this w') = S (getNBodies (this w)).
Proof.
  intros Hpar Hn Hlo Hhi.
  destruct (addRigidBodyNode_run w par cfg n pn nn Hpar Hn Hlo Hhi)
    as (h' & Hrun & _ & (n' & Hn' & Hl & Hk & Hp & _) & _).
  cbv zeta in Hrun. eexists _, n'. split; [exact Hrun|].
  split.
  { unfold in_tree, base_to_tip. simpl. rewrite place_perm. by left. }
  split; [simpl; apply place_lookup|].
  do 4 (split; [done|]).
  unfold getNBodies. simpl. rewrite length_app. simpl. lia.
Qed.

(** *** Topology finalisation *)

Definition totals (w : World) : Z * Z * Z :=
  (DOFTotal (this w), SqDOFTotal (this w), maxNQTotal (this w)).

(** One step of the size aggregation; [None] when the node is not live or an
    [int] overflows. *)
Definition add_sizes (h : gmap loc RigidBodyNode) (tot : Z * Z * Z) (p : loc)
  : option (Z * Z * Z) :=
  match h !! p with
  | Some n =>
    let '(d, s, q) := tot in
    if in_int (d + DOF n) && in_int (DOF n * DOF n) &&
       in_int (s + DOF n * DOF n) && in_int (q + MaxNQ n)
    then Some (d + DOF n, s + DOF n * DOF n, q + MaxNQ n)%Z
    else None
  | None => None
  end.

Fixpoint sizes (h : gmap loc RigidBodyNode) (l : list loc) (tot : Z * Z * Z)
  : option (Z * Z * Z) :=
  match l with
  | [] => Some tot
  | p :: rest =>
    match add_sizes h tot p with
    | Some tot' => sizes h rest tot'
    | None => None
    end
  end.

Definition with_totals (tot : Z * Z * Z) (w : World) : World :=
  let '(d, s, q) := tot in set_this (set_totals d s q) w.

Lemma with_totals_id w : with_totals (totals w) w = w.
Proof. by destruct w as [[] ? ? ? ?]. Qed.

Lemma with_totals_twice t1 t2 w :
  with_totals t2 (with_totals t1 w) = with_totals t2 w.
Proof. by destruct t1 as [[? ?] ?], t2 as [[? ?] ?]. Qed.

Lemma sizes_app h l1 l2 tot :
  sizes h (l1 ++ l2) tot =
  match sizes h l1 tot with
  | Some tot' => sizes h l2 tot'
  | None => None
  end.
Proof.
  revert tot. induction l1 as [|p l1 IH]; intros tot; simpl; [done|].
  destruct (add_sizes h tot p); [apply IH|done].
Qed.

Lemma add_node_sizes_run p w :
  add_node_sizes p w =
  match add_sizes (nodeHeap w) (totals w) p with
  | Some tot => Ok (tt, with_totals tot w)
  | None => Undefined
  end.
Proof.
  unfold add_node_sizes, add_sizes, totals, bind, node_deref, defined, getThis,
    int_add, int_mul, modifyThis, modify, ret, undefined.
  destruct (nodeHeap w !! p) as [n|]; [|done].
  destruct (in_int (DOFTotal (this w) + DOF n)); [|done].
  destruct (in_int (DOF n * DOF n)); [|done].
  destruct (in_int (SqDOFTotal (this w) + DOF n * DOF n)); [|done].
  by destruct (in_int (maxNQTotal (this w) + MaxNQ n)).
Qed.

Lemma for_row_sizes row w :
  for_row row add_node_sizes w =
  match sizes (nodeHeap w) row (totals w) with
  | Some tot => Ok (tt, with_totals tot w)
  | None => Undefined
  end.
Proof.
  revert w. induction row as [|p row IH]; intros w; cbn [for_row sizes].
  - by rewrite with_totals_id.
  - unfold bind. rewrite add_node_sizes_run.
    destruct (add_sizes (nodeHeap w) (totals w) p) as [tot|]; [|done].
    rewrite IH.
    assert (nodeHeap (with_totals tot w) = nodeHeap w) as ->
      by (by destruct tot as [[? ?] ?]).
    assert (totals (with_totals tot w) = tot) as ->
      by (by destruct tot as [[? ?] ?]).
    destruct (sizes (nodeHeap w) row tot); [|done].
    by rewrite with_totals_twice.
Qed.

Lemma for_levels_up_sizes levels w :
  for_levels_up levels add_node_sizes w =
  match sizes (nodeHeap w) (concat levels) (totals w) with
  | Some tot => Ok (tt, with_totals tot w)
  | None => Undefined
  end.
Proof.
  revert w. induction levels as [|row levels IH]; intros w;
    cbn [for_levels_up concat sizes].
  - by rewrite with_totals_id.
  - unfold bind. rewrite for_row_sizes, sizes_app.
    destruct (sizes (nodeHeap w) row (totals w)) as [tot|]; [|done].
    rewrite IH.
    assert (nodeHeap (with_totals tot w) = nodeHeap w) as ->
      by (by destruct tot as [[? ?] ?]).
    assert (totals (with_totals tot w) = tot) as ->
      by (by destruct tot as [[? ?] ?]).
    destruct (sizes (nodeHeap w) (concat levels) tot); [|done].
    by rewrite with_totals_twice.
Qed.

(** The world after a successful [realizeConstruction]: the totals are set, a
    new solver object is allocated and handed the constraints, and the tree
    points to it. *)
Definition constructed (ctol : T) (verbose : Z) (tot : Z * Z * Z) (w : World) : World :=
  let s := fresh (dom (solverHeap w)) in
  let '(d, sq, q) := tot in
  mkWorld (set_lConstraints (Some s) (set_totals d sq q (this w)))
          (nodeHeap w)
          (<[s := mkLengthConstraints ctol verbose
                    (distanceConstraints (this w)) (dcRuntimeInfo (this w))]>
             (solverHeap w))
          (forceLists w)
          (calls w ++ [EvSolver s SConstruct]).

Lemma realizeConstruction_run ctol verbose w :
  realizeConstruction ctol verbose w =
  match sizes (nodeHeap w) (base_to_tip (this w)) (0, 0, 0)%Z with
  | Some tot => Ok (tt, constructed ctol verbose tot w)
  | None => Undefined
  end.
Proof.
  unfold realizeConstruction.
  unfold bind at 1, modifyThis at 1, modify at 1.
  unfold bind at 1, sweep_up, bind at 1, getThis at 1.
  rewrite for_levels_up_sizes.
  change (totals (set_this (set_totals 0 0 0) w)) with (0, 0, 0)%Z.
  change (nodeHeap (set_this (set_totals 0 0 0) w)) with (nodeHeap w).
  change (rbNodeLevels (this (set_this (set_totals 0 0 0) w)))
    with (rbNodeLevels (this w)).
  unfold base_to_tip.
  destruct (sizes (nodeHeap w) (concat (rbNodeLevels (this w))) (0, 0, 0)%Z)
    as [[[d sq] q]|]; [|done].
  unfold bind, get, cxx_new, modify, modifyThis, getThis, modify. simpl.
  unfold constructed, log, set_solverHeap, set_this. simpl.
  by rewrite insert_insert_eq.
Qed.

(** C6 (as the code has it). [realizeConstruction] has no guard against a
    second call.  It never fails an assertion; and after a call that
    returned, a second call returns as well: it recomputes the same totals,
    allocates another solver object with the new tolerance and verbosity,
    hands it the constraints and makes the tree point to it, while the first
    solver object stays allocated. *)
Theorem realizeConstruction_twice w ctol verbose ctol' verbose' :
  realizeConstruction ctol verbose w <> AssertFail /\
  forall w1, realizeConstruction ctol verbose w = Ok (tt, w1) ->
    exists w2 s1 s2,
      realizeConstruction ctol' verbose' w1 = Ok (tt, w2) /\
      totals w2 = totals w1 /\
      lConstraints (this w1) = Some s1 /\
      lConstraints (this w2) = Some s2 /\
      s2 <> s1 /\
      solverHeap w2 !! s1 = solverHeap w1 !! s1 /\
      is_Some (solverHeap w1 !! s1) /\
      solverHeap w2 !! s2 =
        Some (mkLengthConstraints ctol' verbose'
                (distanceConstraints (this w)) (dcRuntimeInfo (this w))) /\
      calls w2 = calls w ++ [EvSolver s1 SConstruct; EvSolver s2 SConstruct] /\
      rbNodeLevels (this w2) = rbNodeLevels (this w) /\
      nodeHeap w2 = nodeHeap w.
Proof.
  rewrite realizeConstruction_run.
  destruct (sizes (nodeHeap w) (base_to_tip (this w)) (0, 0, 0)%Z)
    as [tot|] eqn:Hs; [|done].
  split; [done|]. intros w1 [= <-].
  rewrite realizeConstruction_run.
  assert (nodeHeap (constructed ctol verbose tot w) = nodeHeap w) as ->
    by (by destruct tot as [[? ?] ?]).
  assert (base_to_tip (this (constructed ctol verbose tot w)) = base_to_tip (this w))
    as -> by (by destruct tot as [[? ?] ?]).
  rewrite Hs. destruct tot as [[d sq] q].
  set (s1 := fresh (dom (solverHeap w))).
  set (w1 := constructed ctol verbose (d, sq, q) w).
  set (s2 := fresh (dom (solverHeap w1))).
  assert (solverHeap w1 !! s2 = None) as Hfresh2
    by apply not_elem_of_dom, is_fresh.
  assert (solverHeap w1 !! s1 =
          Some (mkLengthConstraints ctol verbose
                  (distanceConstraints (this w)) (dcRuntimeInfo (this w)))) as Hs1.
  { subst w1 s1. unfold constructed. simpl. apply lookup_insert_eq. }
  assert (s2 <> s1) as Hne by (intros E; rewrite E in Hfresh2; congruence).
  exists (constructed ctol' verbose' (d, sq, q) w1), s1, s2.
  split; [done|]. split; [done|]. split; [done|]. split; [done|].
  split; [done|]. split.
  { unfold constructed at 1. simpl. fold s2. by rewrite lookup_insert_ne. }
  split; [rewrite Hs1; eauto|]. split.
  { unfold constructed at 1. simpl. fold s2. by rewrite lookup_insert_eq. }
  split.
  { unfold constructed at 1. simpl. fold s2. subst w1. unfold constructed.
    simpl. fold s1. by rewrite <- app_assoc. }
  done.
Qed.


(** *** Forward dynamics *)

(** A registered constraint that the stages can process: it is valid, its
    runtime slot exists and its stations sit on live nodes. *)
Definition constraint_ok (w : World) (dc : RBDistanceConstraint T) : Prop :=
  isValid dc = true /\
  (0 <= runtimeIndex dc < Z.of_nat (length (dcRuntimeInfo (this w))))%Z /\
  is_Some (nodeHeap w !! rbNode (stations0 dc)) /\
  is_Some (nodeHeap w !! rbNode (stations1 dc)).

Definition constraints_ok (w : World) : Prop :=
  Forall (constraint_ok w) (distanceConstraints (this w)).

(** The events of one run of [calcTreeForwardDynamics]: the [calcZ] sweep tip
    to base, each node with its own force, then the [calcAccel] sweep base to
    tip. *)
Definition tfd_events (w : World) (spatialForces : list SpatialVec) : list Event :=
  default [] (collect (own_event spatialForces NCalcZ (nodeHeap w))
                      (tip_to_base (this w))) ++
  map (fun p => EvNode p NCalcAccel) (base_to_tip (this w)).

Lemma node_view_lookup w p :
  is_Some (nodeHeap w !! p) ->
  node_view w !! p = Some (node_kinematics (calls w) p).
Proof.
  intros [n Hn]. unfold node_view. rewrite map_lookup_imap, Hn. done.
Qed.

Lemma constraint_stage_acc_Ok w dc :
  constraint_ok w dc ->
  exists rts,
    constraint_stage calcAccInfo dc w = Ok (tt, set_this (set_dcRuntimeInfo rts) w) /\
    length rts = length (dcRuntimeInfo (this w)).
Proof.
  intros (Hv & Hidx & H0 & H1).
  destruct (proj2 (vec_at_is_Some (dcRuntimeInfo (this w)) (runtimeIndex dc)) Hidx)
    as [rt Hrt].
  destruct (calcAccInfo_Ok (node_view w) isValid dc rt _ _ Hv (proj1 Hidx)
              (node_view_lookup w _ H0) (node_view_lookup w _ H1))
    as (rt' & Hrun & _).
  exists (<[Z.to_nat (runtimeIndex dc) := rt']> (dcRuntimeInfo (this w))).
  split; [|by rewrite length_insert].
  unfold constraint_stage, bind, getThis, get, defined, lift_outcome,
    modifyThis, modify, ret.
  rewrite Hrt. simpl. rewrite Hrun. reflexivity.
Qed.

Lemma for_constraints_acc_Ok dcs w :
  Forall (constraint_ok w) dcs ->
  exists rts,
    for_constraints dcs (constraint_stage calcAccInfo) w =
      Ok (tt, set_this (set_dcRuntimeInfo rts) w) /\
    length rts = length (dcRuntimeInfo (this w)).
Proof.
  revert w. induction dcs as [|dc dcs IH]; intros w Hok.
  - exists (dcRuntimeInfo (this w)). split; [|done].
    simpl. unfold ret. by destruct w as [[] ? ? ? ?].
  - apply Forall_cons in Hok as [Hdc Hrest].
    destruct (constraint_stage_acc_Ok w dc Hdc) as (rts1 & Hrun1 & Hlen1).
    destruct (IH (set_this (set_dcRuntimeInfo rts1) w)) as (rts2 & Hrun2 & Hlen2).
    { eapply Forall_impl; [exact Hrest|].
      intros d (Hv & Hidx & H0 & H1). split; [done|]. split; [|done].
      simpl. lia. }
    exists rts2. split; [|simpl in Hlen2; lia].
    simpl. unfold bind. rewrite Hrun1, Hrun2. reflexivity.
Qed.

(** One run of [calcTreeForwardDynamics]: it returns, appends exactly
    [tfd_events] to the log and rewrites only the runtime records of the
    constraints. *)
Lemma calcTreeForwardDynamics_run w forces :
  nums_wf w -> constraints_ok w ->
  (getNBodies (this w) <= length forces)%nat ->
  exists rts,
    calcTreeForwardDynamics forces w =
      Ok (tt, set_this (set_dcRuntimeInfo rts) (log_all (tfd_events w forces) w)) /\
    length rts = length (dcRuntimeInfo (this w)).
Proof.
  intros Hnum Hok Hlen.
  destruct (own_force_sweep w forces NCalcZ Hnum) as [HZ _].
  destruct (HZ Hlen) as (esZ & EZ & FZ).
  assert (collect (own_event forces NCalcZ (nodeHeap w)) (tip_to_base (this w))
          = Some esZ) as HesZ.
  { apply collect_Some. eapply Forall2_impl; [exact FZ|].
    intros p e (n & f & Hn & Hz & Hf & ->). unfold own_event. rewrite Hn.
    by rewrite (proj2 (vec_at_Some forces (nodeNum n) f) (conj Hz Hf)). }
  set (esA := map (fun p => EvNode p NCalcAccel) (base_to_tip (this w))).
  assert (calcTreeAccel (log_all esZ w) = Ok (tt, log_all esA (log_all esZ w)))
    as EA.
  { unfold calcTreeAccel.
    rewrite (sweep_up_logging _ _ _ (node_call_logging NCalcAccel)). simpl.
    rewrite collect_call_event; [done|].
    intros p Hp. by apply nums_wf_live. }
  destruct (for_constraints_acc_Ok (distanceConstraints (this w))
              (log_all esA (log_all esZ w)) Hok) as (rts & Hrun & Hrl).
  exists rts. split; [|exact Hrl].
  unfold calcTreeForwardDynamics, calcZ.
  rewrite (bind_Ok _ _ _ _ _ EZ), (bind_Ok _ _ _ _ _ EA).
  unfold all_constraints, bind, getThis. simpl.
  rewrite Hrun. unfold tfd_events. rewrite HesZ. simpl. fold esA.
  by rewrite log_all_app.
Qed.


(** C2. [calcLoopForwardDynamics] runs [calcTreeForwardDynamics] once on a
    copy of the caller's forces and asks the solver whether corrective forces
    are needed; when they are not, nothing more is run; when they are, the
    solver adds them into the copy and [calcTreeForwardDynamics] is run
    exactly once more, on the corrected copy.  The caller's list, and the
    whole store of force lists, is afterwards what it was. *)
Theorem calcLoopForwardDynamics_single_correction w spatialForces forces s :
  nums_wf w -> constraints_ok w ->
  lConstraints (this w) = Some s -> is_Some (solverHeap w !! s) ->
  forceLists w !! spatialForces = Some forces ->
  (getNBodies (this w) <= length forces)%nat ->
  (forall h l, length (lc_addInCorrectionForces h l) = length l) ->
  let run1 := tfd_events w forces in
  let needed := lc_calcConstraintForces (calls w ++ run1) in
  let corrected :=
    lc_addInCorrectionForces
      (calls w ++ run1 ++ [EvSolver s SCalcConstraintForces]) forces in
  let run2 := tfd_events w corrected in
  exists w',
    calcLoopForwardDynamics spatialForces w = Ok (tt, w') /\
    calls w' =
      calls w ++ run1 ++ [EvSolver s SCalcConstraintForces] ++
      (if needed then EvSolver s SAddInCorrectionForces :: run2 else []) /\
    forceLists w' = forceLists w /\
    forceLists w' !! spatialForces = Some forces /\
    nodeHeap w' = nodeHeap w /\
    rbNodeLevels (this w') = rbNodeLevels (this w).
Proof.
  intros Hnum Hok Hs Hlive Hcaller Hlen Hsame run1 needed corrected run2.
  unfold calcLoopForwardDynamics.
  unfold bind at 1, read_list at 1. rewrite Hcaller. simpl.
  unfold bind at 1, local_list, cxx_new.
  set (sFrc := fresh (dom (forceLists w))).
  assert (forceLists w !! sFrc = None) as Hfresh
    by apply not_elem_of_dom, is_fresh.
  set (w0 := set_forceLists _ w).
  assert (forceLists w0 !! sFrc = Some forces) as Hcopy.
  { subst w0. simpl. apply lookup_insert_eq. }
  unfold bind at 1. unfold bind at 1, read_list at 1. rewrite Hcopy. simpl.
  destruct (calcTreeForwardDynamics_run w0 forces Hnum Hok Hlen)
    as (rts1 & Hrun1 & Hrl1).
  rewrite Hrun1.
  change (tfd_events w0 forces) with run1.
  set (w1 := set_this _ (log_all run1 w0)).
  destruct Hlive as [lc Hlc].
  assert (lConstraints_calcConstraintForces w1 =
          Ok (needed, log (EvSolver s SCalcConstraintForces) w1)) as Hq.
  { unfold lConstraints_calcConstraintForces, bind, solver_deref, get, modify, ret.
    change (lConstraints (this w1)) with (lConstraints (this w)).
    change (solverHeap w1) with (solverHeap w).
    rewrite Hs, Hlc. reflexivity. }
  rewrite (bind_Ok _ _ _ _ _ Hq).
  set (w2 := log _ w1).
  destruct needed eqn:Hneeded.
  - assert (lConstraints_addInCorrectionForces sFrc w2 =
            Ok (tt, log (EvSolver s SAddInCorrectionForces)
                      (set_forceLists (insert sFrc corrected) w2))) as Hadd.
    { unfold lConstraints_addInCorrectionForces, bind, solver_deref, get,
        modify, defined, ret.
      change (lConstraints (this w2)) with (lConstraints (this w)).
      change (solverHeap w2) with (solverHeap w).
      rewrite Hs, Hlc.
      change (forceLists w2 !! sFrc) with (forceLists w0 !! sFrc).
      rewrite Hcopy.
      change (calls w2) with ((calls w ++ run1) ++ [EvSolver s SCalcConstraintForces]).
      unfold corrected. by rewrite <- app_assoc. }
    unfold bind at 1. unfold bind at 1. rewrite Hadd.
    set (w3 := log _ (set_forceLists _ w2)).
    assert (forceLists w3 !! sFrc = Some corrected) as Hcopy3.
    { subst w3. simpl. apply lookup_insert_eq. }
    unfold bind at 1, read_list at 1. rewrite Hcopy3. simpl.
    destruct (calcTreeForwardDynamics_run w3 corrected) as (rts2 & Hrun2 & Hrl2).
    { exact Hnum. }
    { eapply Forall_impl; [exact Hok|].
      intros d (Hv & Hidx & H0 & H1). split; [done|]. split; [|done].
      simpl. simpl in Hrl1. lia. }
    { unfold corrected. rewrite Hsame. exact Hlen. }
    rewrite Hrun2. change (tfd_events w3 corrected) with run2.
    eexists. split; [reflexivity|]. simpl.
    split.
    { rewrite <- !app_assoc. reflexivity. }
    split.
    { rewrite insert_insert_eq. by rewrite delete_insert_id. }
    split.
    { rewrite insert_insert_eq, delete_insert_id by done. exact Hcaller. }
    done.
  - unfold bind at 1. unfold ret at 1.
    eexists. split; [reflexivity|]. simpl.
    split.
    { rewrite <- !app_assoc. reflexivity. }
    split; [by rewrite delete_insert_id|].
    split; [by rewrite delete_insert_id|]. done.
Qed.

(** The invariants read only the node heap, the level table and the
    node-number map. *)
Lemma wf_frame w w' :
  nodeHeap w' = nodeHeap w ->
  rbNodeLevels (this w') = rbNodeLevels (this w) ->
  nodeNum2NodeMap (this w') = nodeNum2NodeMap (this w) ->
  (levels_wf w -> levels_wf w') /\
  (nums_wf w -> nums_wf w') /\
  (links_wf w -> links_wf w').
Proof.
  intros Hh Hl Hm.
  unfold levels_wf, nums_wf, links_wf, in_tree, base_to_tip, getNBodies.
  rewrite Hh, Hl, Hm. done.
Qed.


(** *** Construction: what is checked and what is kept *)

(** X6. [addGroundNode] can succeed only once per tree: it fails its assertion
    whenever a body is registered or the level table is non-empty, so in
    particular when called again after it has succeeded. *)
Theorem addGroundNode_only_once w :
  ((0 < getNBodies (this w))%nat \/ rbNodeLevels (this w) <> [] ->
   addGroundNode w = AssertFail) /\
  (forall w', addGroundNode w = Ok (tt, w') ->
     getNBodies (this w') = 1%nat /\ addGroundNode w' = AssertFail).
Proof.
  assert (forall v : World,
            (0 < getNBodies (this v))%nat \/ rbNodeLevels (this v) <> [] ->
            addGroundNode v = AssertFail) as Hrej.
  { intros v Hv. unfold addGroundNode, bind, getThis, cxx_assert, getNBodies in *.
    destruct (nodeNum2NodeMap (this v)) as [|ix m]; simpl; [|done].
    destruct (rbNodeLevels (this v)) as [|row l]; simpl; [|done].
    destruct Hv as [Hv|Hv]; [simpl in Hv; lia|done]. }
  split; [apply Hrej|].
  intros w' Hrun.
  assert (no_nodes w) as Hempty.
  { unfold no_nodes. revert Hrun.
    unfold addGroundNode, bind, getThis, cxx_assert.
    destruct (nodeNum2NodeMap (this w)) as [|ix m]; simpl; [|done].
    by destruct (rbNodeLevels (this w)) as [|row l]. }
  destruct (addGroundNode_run w Hempty) as [_ Hexp]. cbv zeta in Hexp.
  rewrite Hexp in Hrun. injection Hrun as <-.
  split; [done|]. apply Hrej. left. unfold getNBodies. simpl. lia.
Qed.

(** A computation without assertions. *)
Definition never_asserts {A} (c : Tm A) : Prop := forall w, c w <> AssertFail.

Lemma never_asserts_bind {A B} (c : Tm A) (k : A -> Tm B) :
  never_asserts c -> (forall a, never_asserts (k a)) -> never_asserts (bind c k).
Proof.
  intros Hc Hk w. unfold bind. specialize (Hc w).
  destruct (c w) as [[a w']| |]; [apply Hk|done|done].
Qed.

Lemma never_asserts_node_deref p : never_asserts (node_deref p).
Proof. intros w. unfold node_deref, defined. by destruct (nodeHeap w !! p). Qed.

Lemma never_asserts_node_update p f : never_asserts (node_update p f).
Proof.
  apply never_asserts_bind; [apply never_asserts_node_deref|]. by intros a w.
Qed.

Lemma never_asserts_int_add a b : never_asserts (@int_add World a b).
Proof. intros w. unfold int_add. by destruct (in_int (a + b)). Qed.

Lemma never_asserts_defined {A} (o : option A) : never_asserts (defined o).
Proof. intros w. by destruct o. Qed.

Lemma never_asserts_addRigidBodyNode par cfg n :
  never_asserts (addRigidBodyNode par cfg n).
Proof.
  unfold addRigidBodyNode.
  apply never_asserts_bind; [apply never_asserts_node_deref|]. intros pn.
  apply never_asserts_bind; [apply never_asserts_int_add|]. intros lvl.
  apply never_asserts_bind; [apply never_asserts_node_update|]. intros _.
  apply never_asserts_bind; [by intros w|]. intros t.
  apply never_asserts_bind.
  { destruct (Z.of_nat (length (rbNodeLevels t)) <=? lvl)%Z; [|by intros w].
    apply never_asserts_bind; [apply never_asserts_int_add|]. by intros sz w. }
  intros _. apply never_asserts_bind; [by intros w|]. intros t'.
  apply never_asserts_bind; [apply never_asserts_defined|]. intros row.
  apply never_asserts_bind; [by intros w|]. intros _.
  apply never_asserts_bind; [by intros w|]. intros t''.
  apply never_asserts_bind; [by intros w|]. intros _.
  apply never_asserts_bind; [apply never_asserts_node_update|]. intros _.
  apply never_asserts_bind; [|by intros a w].
  unfold addChild.
  apply never_asserts_bind; [apply never_asserts_node_update|]. intros _.
  apply never_asserts_node_update.
Qed.

(** X7. [addRigidBodyNode] checks nothing.  It never fails an assertion; a
    dangling parent or node pointer is dereferenced, and a parent whose level
    is below -1 makes it index the level table at a negative position: each
    is undefined behaviour, not a rejected call. *)
Theorem addRigidBodyNode_checks_nothing w par cfg n :
  addRigidBodyNode par cfg n w <> AssertFail /\
  (nodeHeap w !! par = None -> addRigidBodyNode par cfg n w = Undefined) /\
  (nodeHeap w !! n = None -> addRigidBodyNode par cfg n w = Undefined) /\
  (forall pn, nodeHeap w !! par = Some pn -> (level pn < -1)%Z ->
     addRigidBodyNode par cfg n w = Undefined).
Proof.
  split; [apply never_asserts_addRigidBodyNode|].
  split; [|split].
  - intros Hpar. unfold addRigidBodyNode, bind, node_deref, defined.
    by rewrite Hpar.
  - intros Hn. unfold addRigidBodyNode.
    unfold bind at 1, node_deref at 1, defined.
    destruct (nodeHeap w !! par) as [pn|]; [|done]. simpl.
    unfold bind at 1, int_add.
    destruct (in_int (level pn + 1)); [|done]. simpl.
    unfold bind at 1, node_update, bind, node_deref, defined. by rewrite Hn.
  - intros pn Hpar Hlow. unfold addRigidBodyNode.
    rewrite (bind_Ok _ _ _ _ _ (node_deref_Ok w par pn Hpar)).
    unfold bind at 1, int_add.
    destruct (in_int (level pn + 1)); [|done]. simpl.
    unfold bind at 1, node_update, bind at 1, node_deref at 1, defined.
    destruct (nodeHeap w !! n) as [nn|]; [|done]. simpl.
    unfold bind at 1, getThis at 1.
    rewrite (proj2 (Z.leb_gt _ _)) by lia.
    unfold bind at 1, ret at 1. unfold bind at 1, getThis at 1.
    unfold bind at 1, vec_at. by rewrite (proj2 (Z.ltb_lt _ _)) by lia.
Qed.

(** Modelled from the spec: the node a number stands for
    ([getRigidBodyNode], declared in the header).  Entry [k] of
    [nodeNum2NodeMap] is the registered pair of a level and an offset into
    [rbNodeLevels], as [addRigidBodyNode] writes it and [operator<<] prints
    it. *)
Definition node_at (t : RigidBodyTree) (k : Z) : option loc :=
  match vec_at (nodeNum2NodeMap t) k with
  | Some ix =>
    match vec_at (rbNodeLevels t) (ix_level ix) with
    | Some row => vec_at row (ix_offset ix)
    | None => None
    end
  | None => None
  end.

(** Looking a node of the tree up by its own number finds that node. *)
Definition index_wf (w : World) : Prop :=
  forall p, in_tree w p ->
    exists n, nodeHeap w !! p = Some n /\ node_at (this w) (nodeNum n) = Some p.

Lemma node_at_Some t k p :
  node_at t k = Some p <->
  exists ix row,
    vec_at (nodeNum2NodeMap t) k = Some ix /\
    vec_at (rbNodeLevels t) (ix_level ix) = Some row /\
    vec_at row (ix_offset ix) = Some p.
Proof.
  unfold node_at. split.
  - destruct (vec_at (nodeNum2NodeMap t) k) as [ix|]; [|done].
    destruct (vec_at (rbNodeLevels t) (ix_level ix)) as [row|] eqn:Hrow; [|done].
    intros Hp. by exists ix, row.
  - intros (ix & row & -> & -> & Hp). done.
Qed.

(** X8. The number returned by [addRigidBodyNode] is a durable handle: looked up
    in the new tree it finds the node just added, every number handed out
    before still finds the node it found, and every node of the tree is still
    found under its own number. *)
Theorem addRigidBodyNode_number_finds_node w par cfg n pn nn :
  index_wf w ->
  nodeHeap w !! par = Some pn -> nodeHeap w !! n = Some nn ->
  ~ in_tree w n ->
  (-1 <= level pn)%Z -> (level pn + 2 <= INT_MAX)%Z ->
  exists w',
    addRigidBodyNode par cfg n w = Ok (Z.of_nat (getNBodies (this w)), w') /\
    node_at (this w') (Z.of_nat (getNBodies (this w))) = Some n /\
    (forall k p, node_at (this w) k = Some p -> node_at (this w') k = Some p) /\
    index_wf w'.
Proof.
  intros Hidx Hpar Hn Hfresh Hlo Hhi.
  destruct (addRigidBodyNode_run w par cfg n pn nn Hpar Hn Hlo Hhi)
    as (h' & Hrun & Hheap).
  cbv zeta in Hrun. eexists. split; [exact Hrun|].
  set (lvl := (level pn + 1)%Z) in *.
  set (L := Z.to_nat lvl) in *.
  set (levels := rbNodeLevels (this w)) in *.
  set (row0 := default [] (levels !! L)) in *.
  assert (forall k p, node_at (this w) k = Some p ->
            node_at
              (set_nodeNum2NodeMap
                 (nodeNum2NodeMap (this w) ++
                  [mkRigidBodyNodeIndex lvl (Z.of_nat (length row0))])
                 (set_rbNodeLevels (place levels L n) (this w))) k = Some p)
    as Hkeep.
  { intros k p Hk. apply node_at_Some in Hk as (ix & row & Hix & Hrow & Hp).
    apply vec_at_Some in Hix as [Hk0 Hix].
    apply vec_at_Some in Hrow as [Hl0 Hrow].
    apply vec_at_Some in Hp as [Ho0 Hp].
    destruct (place_lookup_old levels L n _ row Hrow) as (row' & Hrow' & Hpre).
    apply node_at_Some. exists ix, row'. simpl.
    split; [apply vec_at_Some; split; [done|by apply lookup_app_l_Some]|].
    split; [by apply vec_at_Some|].
    apply vec_at_Some. split; [done|by apply Hpre]. }
  assert (node_at
            (set_nodeNum2NodeMap
               (nodeNum2NodeMap (this w) ++
                [mkRigidBodyNodeIndex lvl (Z.of_nat (length row0))])
               (set_rbNodeLevels (place levels L n) (this w)))
            (Z.of_nat (getNBodies (this w))) = Some n) as Hnew.
  { apply node_at_Some.
    exists (mkRigidBodyNodeIndex lvl (Z.of_nat (length row0))), (row0 ++ [n]).
    simpl. split.
    { apply vec_at_Some. split; [lia|]. rewrite Nat2Z.id. unfold getNBodies.
      rewrite lookup_app_r by lia. by rewrite Nat.sub_diag. }
    split.
    { apply vec_at_Some. split; [unfold lvl; lia|]. apply place_lookup. }
    apply vec_at_Some. split; [lia|]. rewrite Nat2Z.id.
    rewrite lookup_app_r by lia. by rewrite Nat.sub_diag. }
  split; [exact Hnew|]. split; [exact Hkeep|].
  intros p Hp. unfold in_tree, base_to_tip in Hp. simpl in Hp.
  rewrite (place_perm levels L n) in Hp. simpl.
  apply elem_of_cons in Hp as [->|Hp].
  - destruct Hheap as (_ & (n' & Hn' & _ & Hk' & _) & _).
    exists n'. split; [done|]. rewrite Hk'. exact Hnew.
  - destruct (Hidx p Hp) as (np & Hnp & Hat).
    destruct (heap_after_old _ _ _ _ _ _ p np Hheap) as (np' & Hnp' & _ & Hk & _);
      [by intros ->|done|].
    exists np'. split; [done|]. rewrite Hk. by apply Hkeep.
Qed.

(** After [addGroundNode], number 0 finds the ground node. *)
Lemma addGroundNode_index w :
  no_nodes w ->
  exists w' g,
    addGroundNode w = Ok (tt, w') /\ node_at (this w') 0 = Some g /\ index_wf w'.
Proof.
  intros Hempty. destruct (addGroundNode_run w Hempty) as [_ Hrun].
  cbv zeta in Hrun. eexists _, _. split; [exact Hrun|].
  split; [reflexivity|].
  intros p Hp. unfold in_tree, base_to_tip in Hp. simpl in Hp.
  apply list_elem_of_singleton in Hp as ->. simpl.
  eexists. split; [apply lookup_insert_eq|reflexivity].
Qed.

(** X9. The construction operations keep the tree well formed: [addGroundNode]
    on a tree without nodes yields a well-formed tree whose only node is the
    ground node; [addRigidBodyNode] of a node not yet in the tree, under any
    live parent, adds exactly that node, leaves the level and number of every
    other node of the tree as they were, and keeps the parent links well
    formed when the parent is in the tree. *)
Theorem construction_keeps_tree_well_formed w :
  (no_nodes w ->
   exists w' g,
     addGroundNode w = Ok (tt, w') /\
     levels_wf w' /\ nums_wf w' /\ links_wf w' /\
     (forall p, in_tree w' p <-> p = g)) /\
  (forall par cfg n pn nn,
     levels_wf w -> nums_wf w ->
     nodeHeap w !! par = Some pn -> nodeHeap w !! n = Some nn ->
     ~ in_tree w n ->
     (-1 <= level pn)%Z -> (level pn + 2 <= INT_MAX)%Z ->
     exists w',
       addRigidBodyNode par cfg n w = Ok (Z.of_nat (getNBodies (this w)), w') /\
       levels_wf w' /\ nums_wf w' /\
       (forall p, in_tree w' p <-> p = n \/ in_tree w p) /\
       (forall q nq, in_tree w q -> nodeHeap w !! q = Some nq ->
          exists nq', nodeHeap w' !! q = Some nq' /\
                      level nq' = level nq /\ nodeNum nq' = nodeNum nq) /\
       (links_wf w -> in_tree w par -> links_wf w')).
Proof.
  split.
  - intros Hempty.
    destruct (addGroundNode_wf w Hempty)
      as (w' & g & Hrun & Hl & Hn & Hk & _ & Hin & _).
    by exists w', g.
  - intros par cfg n pn nn Hl Hn Hpar Hnode Hfresh Hlo Hhi.
    destruct (addRigidBodyNode_wf w par cfg n pn nn Hl Hn Hpar Hnode Hfresh Hlo Hhi)
      as (w' & Hrun & Hl' & Hn' & Hin & _ & Hk).
    destruct (addRigidBodyNode_run w par cfg n pn nn Hpar Hnode Hlo Hhi)
      as (h' & Hrun' & Hheap).
    cbv zeta in Hrun'. exists w'. split; [exact Hrun|].
    do 3 (split; [done|]). split; [|exact Hk].
    intros q nq Hq Hnq.
    destruct (heap_after_old _ _ _ _ _ _ q nq Hheap) as (nq' & Hnq' & Hlq & Hkq & _);
      [by intros ->|done|].
    exists nq'. rewrite Hrun in Hrun'. injection Hrun' as ->. by split.
Qed.


(** *** Distance constraints registered with the tree *)

(** Constraints and runtime records run in parallel: constraint [i] carries
    runtime index [i]. *)
Definition constraints_indexed (w : World) : Prop :=
  length (distanceConstraints (this w)) = length (dcRuntimeInfo (this w)) /\
  forall i dc, distanceConstraints (this w) !! i = Some dc ->
               runtimeIndex dc = Z.of_nat i.

(** X10. [addDistanceConstraint] always returns.  On parallel lists the index it
    returns is also the runtime index it gave the constraint: the constraint
    is found at that index, its runtime record is the default one at the same
    index, nothing registered before moves, and the lists stay parallel.  The
    nodes and the log are not touched. *)
Theorem addDistanceConstraint_indexed rt0 s1 s2 d w :
  constraints_indexed w ->
  let k := length (distanceConstraints (this w)) in
  exists w',
    addDistanceConstraint rt0 s1 s2 d w = Ok (Z.of_nat k, w') /\
    distanceConstraints (this w') !! k =
      Some (mkRBDistanceConstraint d (Z.of_nat k) s1 s2) /\
    dcRuntimeInfo (this w') !! k = Some rt0 /\
    (forall i, (i < k)%nat ->
       distanceConstraints (this w') !! i = distanceConstraints (this w) !! i /\
       dcRuntimeInfo (this w') !! i = dcRuntimeInfo (this w) !! i) /\
    constraints_indexed w' /\
    nodeHeap w' = nodeHeap w /\
    rbNodeLevels (this w') = rbNodeLevels (this w) /\
    nodeNum2NodeMap (this w') = nodeNum2NodeMap (this w) /\
    calls w' = calls w.
Proof.
  intros [Hlen Hidx] k. eexists. split.
  { unfold addDistanceConstraint, bind, getThis, modifyThis, modify, ret. simpl.
    rewrite length_app. simpl. rewrite <- Hlen. fold k.
    replace (Z.of_nat (k + 1) - 1)%Z with (Z.of_nat k) by lia. reflexivity. }
  simpl. split.
  { rewrite lookup_app_r by (unfold k; lia). by rewrite Nat.sub_diag. }
  split.
  { rewrite lookup_app_r by (unfold k; lia).
    by replace (k - length (dcRuntimeInfo (this w)))%nat with 0%nat
      by (unfold k; lia). }
  split.
  { intros i Hi. split; rewrite lookup_app_l; try done; unfold k in Hi; lia. }
  split; [|done].
  split; simpl.
  - rewrite !length_app. simpl. lia.
  - intros i dc Hi. apply lookup_app_Some in Hi as [Hi|[Hge Hi]]; [by apply Hidx|].
    apply list_lookup_singleton_Some in Hi as [Hi0 <-]. simpl. unfold k in *. lia.
Qed.

(** A stage of the constraint kinematics that returns on every valid
    constraint with live stations. *)
Definition stage_total
    (stage : gmap loc (NodeKinematics T) -> (RBDistanceConstraint T -> bool) ->
             RBDistanceConstraint T -> RBDistanceConstraintRuntime T ->
             outcome (RBDistanceConstraintRuntime T)) : Prop :=
  forall nodes dc rt,
    isValid dc = true -> (0 <= runtimeIndex dc)%Z ->
    is_Some (nodes !! rbNode (stations0 dc)) ->
    is_Some (nodes !! rbNode (stations1 dc)) ->
    exists rt', stage nodes isValid dc rt = Ok rt'.

Lemma calcPosInfo_total : stage_total calcPosInfo.
Proof.
  intros nodes dc rt Hv Hi [n0 H0] [n1 H1].
  destruct (calcPosInfo_Ok nodes isValid dc rt n0 n1 Hv Hi H0 H1) as (rt' & Hrun & _).
  eauto.
Qed.

Lemma calcVelInfo_total : stage_total calcVelInfo.
Proof.
  intros nodes dc rt Hv Hi [n0 H0] [n1 H1].
  destruct (calcVelInfo_Ok nodes isValid dc rt n0 n1 Hv Hi H0 H1) as (rt' & Hrun & _).
  eauto.
Qed.

Lemma calcAccInfo_total : stage_total calcAccInfo.
Proof.
  intros nodes dc rt Hv Hi [n0 H0] [n1 H1].
  destruct (calcAccInfo_Ok nodes isValid dc rt n0 n1 Hv Hi H0 H1) as (rt' & Hrun & _).
  eauto.
Qed.

Lemma constraint_stage_run stage w dc :
  stage_total stage -> constraint_ok w dc ->
  exists rt rt',
    dcRuntimeInfo (this w) !! Z.to_nat (runtimeIndex dc) = Some rt /\
    stage (node_view w) isValid dc rt = Ok rt' /\
    constraint_stage stage dc w =
      Ok (tt, set_this
                (set_dcRuntimeInfo
                   (<[Z.to_nat (runtimeIndex dc) := rt']> (dcRuntimeInfo (this w))))
                w).
Proof.
  intros Htot (Hv & Hidx & H0 & H1).
  destruct (proj2 (vec_at_is_Some (dcRuntimeInfo (this w)) (runtimeIndex dc)) Hidx)
    as [rt Hrt].
  destruct (Htot (node_view w) dc rt Hv (proj1 Hidx)) as [rt' Hrun].
  { rewrite (node_view_lookup w _ H0). eauto. }
  { rewrite (node_view_lookup w _ H1). eauto. }
  exists rt, rt'. split; [by apply vec_at_Some in Hrt as [_ Hrt]|].
  split; [exact Hrun|].
  unfold constraint_stage, bind, getThis, get, defined, lift_outcome,
    modifyThis, modify, ret.
  rewrite Hrt. simpl. rewrite Hrun. reflexivity.
Qed.

(** The loop over the constraints [l], which are those at positions [k],
    [k+1], ... of the list: slot [k+j] receives what the stage computes for
    the [j]-th of them from the record that was there; no other slot changes. *)
Lemma for_constraints_slots stage l :
  stage_total stage ->
  forall k w,
    (forall j dc, l !! j = Some dc ->
       runtimeIndex dc = Z.of_nat (k + j) /\ constraint_ok w dc) ->
    exists rts',
      for_constraints l (constraint_stage stage) w =
        Ok (tt, set_this (set_dcRuntimeInfo rts') w) /\
      length rts' = length (dcRuntimeInfo (this w)) /\
      (forall i, (i < k \/ k + length l <= i)%nat ->
         rts' !! i = dcRuntimeInfo (this w) !! i) /\
      (forall j dc, l !! j = Some dc ->
         exists rt rt',
           dcRuntimeInfo (this w) !! (k + j)%nat = Some rt /\
           rts' !! (k + j)%nat = Some rt' /\
           stage (node_view w) isValid dc rt = Ok rt').
Proof.
  intros Htot. induction l as [|dc l IH]; intros k w Hl.
  - exists (dcRuntimeInfo (this w)). split.
    { simpl. unfold ret. by destruct w as [[] ? ? ? ?]. }
    split; [done|]. split; [done|]. intros j dc Hj. done.
  - destruct (Hl 0%nat dc eq_refl) as [Hk Hok].
    rewrite Nat.add_0_r in Hk.
    destruct (constraint_stage_run stage w dc Htot Hok)
      as (rt & rt' & Hrt & Hstage & Hrun).
    rewrite Hk, Nat2Z.id in Hrt, Hrun.
    set (w1 := set_this (set_dcRuntimeInfo (<[k := rt']> (dcRuntimeInfo (this w)))) w)
      in *.
    destruct (IH (S k) w1) as (rts' & Hrun' & Hlen' & Hout & Hin).
    { intros j d Hj. destruct (Hl (S j) d Hj) as [Hkj (Hv & Hidx & H0 & H1)].
      split; [rewrite Hkj; f_equal; lia|].
      split; [done|]. split; [|done]. subst w1. simpl. rewrite length_insert. done. }
    subst w1. simpl in Hlen', Hout, Hin. rewrite length_insert in Hlen'.
    exists rts'. split.
    { simpl. unfold bind. rewrite Hrun, Hrun'. reflexivity. }
    split; [done|]. split.
    + intros i Hi. rewrite Hout by (simpl in Hi; lia).
      apply list_lookup_insert_ne. simpl in Hi. lia.
    + intros j d Hj. destruct j as [|j].
      * injection Hj as <-. rewrite Nat.add_0_r. exists rt, rt'.
        split; [done|]. split; [|done].
        rewrite Hout by lia. apply list_lookup_insert_eq.
        by apply lookup_lt_Some in Hrt.
      * destruct (Hin j d Hj) as (r & r' & Hr & Hr' & Hs).
        replace (k + S j)%nat with (S k + j)%nat by lia.
        exists r, r'. split; [|by split].
        rewrite list_lookup_insert_ne in Hr by lia. done.
Qed.

(** All constraints of the tree through one stage. *)
Lemma all_constraints_slots stage w :
  stage_total stage -> constraints_ok w -> constraints_indexed w ->
  exists rts',
    all_constraints stage w = Ok (tt, set_this (set_dcRuntimeInfo rts') w) /\
    length rts' = length (dcRuntimeInfo (this w)) /\
    forall i dc, distanceConstraints (this w) !! i = Some dc ->
      exists rt rt',
        dcRuntimeInfo (this w) !! i = Some rt /\
        rts' !! i = Some rt' /\
        stage (node_view w) isValid dc rt = Ok rt'.
Proof.
  intros Htot Hok [_ Hidx].
  destruct (for_constraints_slots stage (distanceConstraints (this w)) Htot 0%nat w)
    as (rts' & Hrun & Hlen & _ & Hin).
  { intros j dc Hj. split; [by apply Hidx|].
    eapply Forall_lookup_1; [exact Hok|exact Hj]. }
  exists rts'. split; [|split; [exact Hlen|exact Hin]].
  unfold all_constraints, bind, getThis. exact Hrun.
Qed.

(** X11. [realizeConfiguration] calls [realizeConfiguration(pos)] on every node,
    base to tip, and only then runs the position stage of every constraint,
    on the node kinematics as they are after the whole sweep: slot [i] of the
    runtime records receives what [calcPosInfo] computes for constraint [i].
    Nothing else of the tree changes. *)
Theorem realizeConfiguration_run pos w :
  nums_wf w -> constraints_ok w -> constraints_indexed w ->
  let evs := map (fun p => EvNode p (NRealizeConfiguration pos))
                 (base_to_tip (this w)) in
  let nodes := node_view (log_all evs w) in
  exists rts',
    realizeConfiguration pos w =
      Ok (tt, set_this (set_dcRuntimeInfo rts') (log_all evs w)) /\
    length rts' = length (dcRuntimeInfo (this w)) /\
    forall i dc, distanceConstraints (this w) !! i = Some dc ->
      exists rt rt',
        dcRuntimeInfo (this w) !! i = Some rt /\
        rts' !! i = Some rt' /\
        calcPosInfo nodes isValid dc rt = Ok rt'.
Proof.
  intros Hnum Hok Hidx evs nodes.
  assert (sweep_up (fun p => node_call p (NRealizeConfiguration pos)) w =
          Ok (tt, log_all evs w)) as Hsweep.
  { rewrite (sweep_up_logging _ _ _ (node_call_logging _)).
    rewrite collect_call_event; [done|].
    intros p Hp. by apply nums_wf_live. }
  destruct (all_constraints_slots calcPosInfo (log_all evs w) calcPosInfo_total Hok Hidx)
    as (rts' & Hrun & Hlen & Hslots).
  exists rts'. split; [|split; [exact Hlen|exact Hslots]].
  unfold realizeConfiguration. by rewrite (bind_Ok _ _ _ _ _ Hsweep).
Qed.

(** X12. [realizeVelocity] likewise: every node base to tip, then the velocity
    stage of every constraint on the kinematics after the sweep. *)
Theorem realizeVelocity_run vel w :
  nums_wf w -> constraints_ok w -> constraints_indexed w ->
  let evs := map (fun p => EvNode p (NRealizeVelocity vel))
                 (base_to_tip (this w)) in
  let nodes := node_view (log_all evs w) in
  exists rts',
    realizeVelocity vel w =
      Ok (tt, set_this (set_dcRuntimeInfo rts') (log_all evs w)) /\
    length rts' = length (dcRuntimeInfo (this w)) /\
    forall i dc, distanceConstraints (this w) !! i = Some dc ->
      exists rt rt',
        dcRuntimeInfo (this w) !! i = Some rt /\
        rts' !! i = Some rt' /\
        calcVelInfo nodes isValid dc rt = Ok rt'.
Proof.
  intros Hnum Hok Hidx evs nodes.
  assert (sweep_up (fun p => node_call p (NRealizeVelocity vel)) w =
          Ok (tt, log_all evs w)) as Hsweep.
  { rewrite (sweep_up_logging _ _ _ (node_call_logging _)).
    rewrite collect_call_event; [done|].
    intros p Hp. by apply nums_wf_live. }
  destruct (all_constraints_slots calcVelInfo (log_all evs w) calcVelInfo_total Hok Hidx)
    as (rts' & Hrun & Hlen & Hslots).
  exists rts'. split; [|split; [exact Hlen|exact Hslots]].
  unfold realizeVelocity. by rewrite (bind_Ok _ _ _ _ _ Hsweep).
Qed.

(** X13. [calcTreeForwardDynamics] with a force per body: the [calcZ] sweep tip to
    base, the [calcAccel] sweep base to tip, then the acceleration stage of
    every constraint on the kinematics after both sweeps.  With too few
    forces the first sweep reads out of range and nothing else defined
    happens. *)
Theorem calcTreeForwardDynamics_stage forces w :
  nums_wf w -> constraints_ok w -> constraints_indexed w ->
  let evs := tfd_events w forces in
  let nodes := node_view (log_all evs w) in
  ((getNBodies (this w) <= length forces)%nat ->
   exists rts',
     calcTreeForwardDynamics forces w =
       Ok (tt, set_this (set_dcRuntimeInfo rts') (log_all evs w)) /\
     length rts' = length (dcRuntimeInfo (this w)) /\
     forall i dc, distanceConstraints (this w) !! i = Some dc ->
       exists rt rt',
         dcRuntimeInfo (this w) !! i = Some rt /\
         rts' !! i = Some rt' /\
         calcAccInfo nodes isValid dc rt = Ok rt') /\
  ((length forces < getNBodies (this w))%nat ->
   calcTreeForwardDynamics forces w = Undefined).
Proof.
  intros Hnum Hok Hidx evs nodes.
  destruct (own_force_sweep w forces NCalcZ Hnum) as [HZ HZbad].
  split.
  - intros Hlen. destruct (HZ Hlen) as (esZ & EZ & FZ).
    assert (collect (own_event forces NCalcZ (nodeHeap w)) (tip_to_base (this w))
            = Some esZ) as HesZ.
    { apply collect_Some. eapply Forall2_impl; [exact FZ|].
      intros p e (n & f & Hn & Hz & Hf & ->). unfold own_event. rewrite Hn.
      by rewrite (proj2 (vec_at_Some forces (nodeNum n) f) (conj Hz Hf)). }
    set (esA := map (fun p => EvNode p NCalcAccel) (base_to_tip (this w))).
    assert (evs = esZ ++ esA) as Hevs.
    { unfold evs, tfd_events. by rewrite HesZ. }
    assert (calcTreeAccel (log_all esZ w) = Ok (tt, log_all evs w)) as EA.
    { unfold calcTreeAccel.
      rewrite (sweep_up_logging _ _ _ (node_call_logging NCalcAccel)). simpl.
      rewrite collect_call_event.
      - fold esA. by rewrite Hevs, log_all_app.
      - intros p Hp. by apply nums_wf_live. }
    destruct (all_constraints_slots calcAccInfo (log_all evs w) calcAccInfo_total
                Hok Hidx) as (rts' & Hrun & Hlen' & Hslots).
    exists rts'. split; [|split; [exact Hlen'|exact Hslots]].
    unfold calcTreeForwardDynamics, calcZ.
    by rewrite (bind_Ok _ _ _ _ _ EZ), (bind_Ok _ _ _ _ _ EA).
  - intros Hlen. unfold calcTreeForwardDynamics, calcZ, bind.
    by rewrite (HZbad Hlen).
Qed.


(** *** The base-to-tip sweeps *)

(** Nodes of a lower level come first in the base-to-tip order. *)
Lemma base_to_tip_by_level w n m nn nm :
  levels_wf w -> in_tree w n -> in_tree w m ->
  nodeHeap w !! n = Some nn -> nodeHeap w !! m = Some nm ->
  (level nn < level nm)%Z ->
  processed_before (base_to_tip (this w)) n m.
Proof.
  intros [_ Hlev] Hn Hm Hnn Hnm Hlt.
  apply in_tree_row in Hn as (a & ra & Ha & Hna).
  apply in_tree_row in Hm as (b & rb & Hb & Hmb).
  destruct (Hlev a ra n Ha Hna) as (nn' & Hnn' & La).
  destruct (Hlev b rb m Hb Hmb) as (nm' & Hnm' & Lb).
  assert (nn' = nn) as -> by congruence.
  assert (nm' = nm) as -> by congruence.
  unfold processed_before, base_to_tip.
  apply (concat_rows_ordered _ a b ra rb); try done. lia.
Qed.

(** X14. The base-to-tip sweeps [calcY] and [calcTreeAccel] call each node of a
    well-formed tree exactly once, a node of a lower level strictly before
    every node of a higher level; in particular every parent before its
    children.  Unlike the tip-to-base sweeps they need no force list. *)
Theorem base_to_tip_sweeps_by_level w :
  levels_wf w -> nums_wf w -> links_wf w ->
  let order := base_to_tip (this w) in
  calcY w = Ok (tt, log_all (map (fun p => EvNode p NCalcY) order) w) /\
  calcTreeAccel w = Ok (tt, log_all (map (fun p => EvNode p NCalcAccel) order) w) /\
  NoDup order /\
  (forall n m nn nm,
     in_tree w n -> in_tree w m ->
     nodeHeap w !! n = Some nn -> nodeHeap w !! m = Some nm ->
     (level nn < level nm)%Z ->
     processed_before order n m) /\
  (forall c p nc,
     in_tree w c -> nodeHeap w !! c = Some nc -> parent nc = Some p ->
     processed_before order p c).
Proof.
  intros Hlev Hnum Hlink order.
  assert (forall c, sweep_up (fun p => node_call p c) w =
                    Ok (tt, log_all (map (fun p => EvNode p c) order) w)) as Hsweep.
  { intros c. rewrite (sweep_up_logging _ _ _ (node_call_logging c)).
    rewrite collect_call_event; [done|].
    intros p Hp. by apply nums_wf_live. }
  split; [apply Hsweep|]. split; [apply Hsweep|].
  split; [apply Hlev|]. split.
  - intros n m nn nm. by apply base_to_tip_by_level.
  - intros c p nc Hc Hnc Hp.
    destruct (Hlink c nc p Hc Hnc Hp) as (Hin & np & Hnp & Hl).
    apply (base_to_tip_by_level w p c np nc); try done. lia.
Qed.

(** *** The size totals *)

(** The sum of [f] over the nodes at the addresses [l]. *)
Definition sum_over (f : RigidBodyNode -> Z) (h : gmap loc RigidBodyNode)
    (l : list loc) : Z :=
  foldr (fun p acc => (match h !! p with Some n => f n | None => 0 end + acc)%Z)
        0%Z l.

Definition sqr (z : Z) : Z := (z * z)%Z.

Lemma sizes_value h l d s q r :
  sizes h l (d, s, q) = Some r ->
  r = (d + sum_over DOF h l, s + sum_over (fun n => sqr (DOF n)) h l,
       q + sum_over MaxNQ h l)%Z.
Proof.
  revert d s q. induction l as [|p l IH]; intros d s q; simpl.
  - intros [= <-]. by rewrite !Z.add_0_r.
  - unfold add_sizes. destruct (h !! p) as [n|]; [|done].
    destruct (in_int (d + DOF n) && in_int (DOF n * DOF n) &&
              in_int (s + DOF n * DOF n) && in_int (q + MaxNQ n)); [|done].
    intros Hr. apply IH in Hr. rewrite Hr. unfold sqr. f_equal; [f_equal|]; lia.
Qed.

Lemma sum_over_nonneg f h l :
  (forall p n, p ∈ l -> h !! p = Some n -> (0 <= f n)%Z) ->
  (0 <= sum_over f h l)%Z.
Proof.
  induction l as [|p l IH]; intros Hf; simpl; [lia|].
  assert (0 <= sum_over f h l)%Z.
  { apply IH. intros q n Hq. apply Hf. by right. }
  destruct (h !! p) as [n|] eqn:Hp; [|lia].
  assert (0 <= f n)%Z by (apply (Hf p n); [by left|done]). lia.
Qed.

Lemma sizes_total h l d s q :
  (forall p, p ∈ l -> exists n, h !! p = Some n /\ (0 <= DOF n)%Z /\ (0 <= MaxNQ n)%Z) ->
  (0 <= d)%Z -> (0 <= s)%Z -> (0 <= q)%Z ->
  (d + sum_over DOF h l <= INT_MAX)%Z ->
  (s + sum_over (fun n => sqr (DOF n)) h l <= INT_MAX)%Z ->
  (q + sum_over MaxNQ h l <= INT_MAX)%Z ->
  is_Some (sizes h l (d, s, q)).
Proof.
  revert d s q. induction l as [|p l IH]; intros d s q Hl Hd Hs Hq Bd Bs Bq; simpl.
  - eauto.
  - destruct (Hl p) as (n & Hp & Hdof & Hnq); [by left|].
    simpl in Bd, Bs, Bq. rewrite Hp in Bd, Bs, Bq.
    assert (0 <= sum_over DOF h l)%Z as S1.
    { apply sum_over_nonneg. intros r m Hr Hm.
      destruct (Hl r) as (m' & Hm' & ? & ?); [by right|]. congruence. }
    assert (0 <= sum_over (fun n => sqr (DOF n)) h l)%Z as S2.
    { apply sum_over_nonneg. intros r m Hr Hm. unfold sqr. nia. }
    assert (0 <= sum_over MaxNQ h l)%Z as S3.
    { apply sum_over_nonneg. intros r m Hr Hm.
      destruct (Hl r) as (m' & Hm' & ? & ?); [by right|]. congruence. }
    assert (0 <= sqr (DOF n))%Z as Hsq by (unfold sqr; nia).
    unfold add_sizes. rewrite Hp.
    rewrite !in_int_true; unfold INT_MIN, INT_MAX, sqr in *; try lia.
    simpl. apply IH; unfold INT_MAX, sqr; try lia.
    intros r Hr. apply Hl. by right.
Qed.

(** X15. [realizeConstruction] sets the three totals to the sums, over the nodes
    of the tree, of the degrees of freedom, of their squares and of the
    coordinate counts, whatever the totals were before.  It returns whenever
    the nodes are live, report non-negative sizes, and the sums fit an
    [int]. *)
Theorem realizeConstruction_totals ctol verbose w :
  let h := nodeHeap w in
  let order := base_to_tip (this w) in
  (forall w1, realizeConstruction ctol verbose w = Ok (tt, w1) ->
     totals w1 = (sum_over DOF h order, sum_over (fun n => sqr (DOF n)) h order,
                  sum_over MaxNQ h order)) /\
  ((forall p, in_tree w p ->
      exists n, h !! p = Some n /\ (0 <= DOF n)%Z /\ (0 <= MaxNQ n)%Z) ->
   (sum_over DOF h order <= INT_MAX)%Z ->
   (sum_over (fun n => sqr (DOF n)) h order <= INT_MAX)%Z ->
   (sum_over MaxNQ h order <= INT_MAX)%Z ->
   exists w1, realizeConstruction ctol verbose w = Ok (tt, w1)).
Proof.
  intros h order. rewrite realizeConstruction_run. fold h order. split.
  - intros w1. destruct (sizes h order (0, 0, 0)%Z) as [tot|] eqn:Hs; [|done].
    intros [= <-]. apply sizes_value in Hs. subst tot. reflexivity.
  - intros Hlive Bd Bs Bq.
    destruct (sizes_total h order 0 0 0 Hlive) as [tot ->]; try lia. eauto.
Qed.


(** *** The destructor *)

(** Modelled from the spec: [delete rbNodeLevels[i][j]].  The destructor of
    the node class is not in this translation unit; parent and child links
    are references that own nothing, so deleting a node releases that node
    only.  Deleting a node that is not live is undefined. *)
Definition delete_node (p : loc) : Tm unit := fun w =>
  match nodeHeap w !! p with
  | Some _ => Ok (tt, set_nodeHeap (delete p) w)
  | None => Undefined
  end.

(** The outer loop of the destructor from level [i] on, [n] levels to go:
    delete the nodes of the level, then [rbNodeLevels[i].resize(0)]. *)
Fixpoint destroy_levels (i n : nat) : Tm unit :=
  match n with
  | O => ret tt
  | S n' =>
    (t <- getThis ;;
     row <- defined (rbNodeLevels t !! i) ;;
     for_row row delete_node ;;;
     modifyThis (fun t => set_rbNodeLevels (<[i := []]> (rbNodeLevels t)) t)) ;;;
    destroy_levels (S i) n'
  end.

(** [RigidBodyTree::~RigidBodyTree()] *)
Definition destroy : Tm unit :=
  (* delete lConstraints; *)
  (fun w => outcome_bind (cxx_delete (lConstraints (this w)) (solverHeap w))
              (fun sh => Ok (tt, set_solverHeap (fun _ => sh) w))) ;;;
  t <- getThis ;;
  destroy_levels 0 (length (rbNodeLevels t)) ;;;
  (* rbNodeLevels.resize(0); *)
  modifyThis (set_rbNodeLevels []).

(** The node heap without the nodes of [l]. *)
Definition without (l : list loc) (h : gmap loc RigidBodyNode)
  : gmap loc RigidBodyNode :=
  foldl (fun h p => delete p h) h l.

Lemma without_lookup l h p :
  without l h !! p = if decide (p ∈ l) then None else h !! p.
Proof.
  unfold without. revert h. induction l as [|q l IH]; intros h; cbn [foldl].
  - rewrite decide_False; [done|]. apply not_elem_of_nil.
  - rewrite IH. destruct (decide (p ∈ l)) as [Hin|Hout].
    + rewrite decide_True; [done|]. by right.
    + destruct (decide (p = q)) as [->|Hne].
      * rewrite decide_True by (by left). apply lookup_delete_eq.
      * rewrite decide_False.
        -- by apply lookup_delete_ne.
        -- intros Hc. apply elem_of_cons in Hc as [?|?]; done.
Qed.

Lemma without_app l1 l2 h : without (l1 ++ l2) h = without l2 (without l1 h).
Proof. unfold without. apply foldl_app. Qed.

Lemma for_row_delete row w :
  NoDup row -> (forall p, p ∈ row -> is_Some (nodeHeap w !! p)) ->
  for_row row delete_node w = Ok (tt, set_nodeHeap (without row) w).
Proof.
  revert w. induction row as [|p row IH]; intros w Hnd Hlive; simpl.
  - unfold ret. by destruct w.
  - apply NoDup_cons in Hnd as [Hp Hnd].
    unfold bind, delete_node. destruct (Hlive p) as [n ->]; [by left|].
    rewrite IH; [done|done|].
    intros q Hq. simpl. rewrite lookup_delete_ne; [apply Hlive; by right|].
    intros ->. done.
Qed.

Lemma destroy_levels_run n : forall i w,
  (i + n)%nat = length (rbNodeLevels (this w)) ->
  NoDup (concat (drop i (rbNodeLevels (this w)))) ->
  (forall p, p ∈ concat (drop i (rbNodeLevels (this w))) ->
     is_Some (nodeHeap w !! p)) ->
  exists levels',
    destroy_levels i n w =
      Ok (tt, set_this (set_rbNodeLevels levels')
                (set_nodeHeap (without (concat (drop i (rbNodeLevels (this w))))) w)).
Proof.
  induction n as [|n IH]; intros i w Hlen Hnd Hlive.
  - exists (rbNodeLevels (this w)). simpl.
    rewrite drop_ge by lia. simpl. unfold ret. by destruct w as [[] ? ? ? ?].
  - destruct (lookup_lt_is_Some_2 (rbNodeLevels (this w)) i) as [row Hrow]; [lia|].
    rewrite (drop_S _ _ _ Hrow) in Hnd, Hlive |- *.
    rewrite concat_cons in Hnd, Hlive |- *.
    apply NoDup_app in Hnd as (Hrow_nd & Hdisj & Hrest_nd).
    set (w1 := set_this
                 (fun t => set_rbNodeLevels (<[i := []]> (rbNodeLevels t)) t)
                 (set_nodeHeap (without row) w)).
    assert (drop (S i) (rbNodeLevels (this w1)) = drop (S i) (rbNodeLevels (this w)))
      as Hdrop.
    { subst w1. simpl. apply drop_insert_lt. lia. }
    destruct (IH (S i) w1) as (levels' & Hrun).
    { subst w1. simpl. rewrite length_insert. lia. }
    { by rewrite Hdrop. }
    { rewrite Hdrop. intros p Hp. subst w1. simpl. rewrite without_lookup.
      rewrite decide_False; [apply Hlive, elem_of_app; by right|].
      intros Hc. by apply (Hdisj p). }
    rewrite Hdrop in Hrun.
    exists levels'. cbn [destroy_levels].
    unfold bind at 1. unfold bind at 1, getThis at 1.
    unfold bind at 1. rewrite Hrow. simpl.
    unfold bind at 1. rewrite for_row_delete; [|done|].
    + unfold modifyThis, modify. fold w1. rewrite Hrun.
      subst w1. unfold set_this, set_nodeHeap. simpl. by rewrite without_app.
    + intros p Hp. apply Hlive, elem_of_app. by left.
Qed.

(** One run of the destructor, given the outcome [sh] of
    [delete lConstraints]. *)
Lemma destroy_run w sh :
  levels_wf w ->
  cxx_delete (lConstraints (this w)) (solverHeap w) = Ok sh ->
  exists w',
    destroy w = Ok (tt, w') /\
    rbNodeLevels (this w') = [] /\
    nodeHeap w' = without (base_to_tip (this w)) (nodeHeap w) /\
    solverHeap w' = sh.
Proof.
  intros [Hnd Hlev] Hdel.
  set (w0 := set_solverHeap (fun _ => sh) w).
  destruct (destroy_levels_run (length (rbNodeLevels (this w))) 0 w0)
    as (levels' & Hrun).
  { done. }
  { exact Hnd. }
  { intros p Hp. apply in_tree_row in Hp as (i & row & Hi & Hp).
    destruct (Hlev i row p Hi Hp) as (n & Hn & _). subst w0. simpl. eauto. }
  eexists. split.
  { unfold destroy. unfold bind at 1. rewrite Hdel. simpl. fold w0.
    unfold bind at 1, getThis at 1. unfold bind at 1.
    change (rbNodeLevels (this w0)) with (rbNodeLevels (this w)).
    rewrite Hrun. reflexivity. }
  simpl. split; [done|]. split; reflexivity.
Qed.

(** X16. The destructor of a well-formed tree whose solver pointer is null or
    live: it releases the solver the tree points to and exactly the nodes of
    the tree, once each; nodes outside the tree and other solver objects stay
    as they are. *)
Theorem destroy_releases_tree w :
  levels_wf w ->
  (forall s, lConstraints (this w) = Some s -> is_Some (solverHeap w !! s)) ->
  exists w',
    destroy w = Ok (tt, w') /\
    rbNodeLevels (this w') = [] /\
    (forall p, in_tree w p -> nodeHeap w' !! p = None) /\
    (forall p, ~ in_tree w p -> nodeHeap w' !! p = nodeHeap w !! p) /\
    (forall s, lConstraints (this w) = Some s -> solverHeap w' !! s = None) /\
    (forall s, lConstraints (this w) <> Some s ->
               solverHeap w' !! s = solverHeap w !! s).
Proof.
  intros Hwf Hsolver.
  destruct (SBStateModel.cxx_delete_live (lConstraints (this w)) (solverHeap w)
              Hsolver) as (sh & Hdel & Hkeep).
  destruct (destroy_run w sh Hwf Hdel) as (w' & Hrun & Hlevels & Hnodes & Hsh).
  exists w'. split; [exact Hrun|]. split; [exact Hlevels|].
  rewrite Hnodes, Hsh. split; [|split; [|split]].
  - intros p Hp. rewrite without_lookup. by rewrite decide_True.
  - intros p Hp. rewrite without_lookup. by rewrite decide_False.
  - intros s Hs. revert Hdel. rewrite Hs. simpl.
    destruct (solverHeap w !! s); [|done].
    intros [= <-]. apply lookup_delete_eq.
  - intros s Hs. by apply Hkeep.
Qed.

(** X17. Finalisation and destruction.  After one [realizeConstruction] the
    destructor returns the solver heap to what it was before.  After two, it
    releases only the second solver: the object allocated by the first call
    is still allocated when the tree is gone. *)
Theorem destroy_after_realizeConstruction w ctol verbose w1 :
  levels_wf w ->
  realizeConstruction ctol verbose w = Ok (tt, w1) ->
  (exists w', destroy w1 = Ok (tt, w') /\ solverHeap w' = solverHeap w) /\
  (forall ctol' verbose' w2,
     realizeConstruction ctol' verbose' w1 = Ok (tt, w2) ->
     exists w' s1,
       destroy w2 = Ok (tt, w') /\
       lConstraints (this w1) = Some s1 /\
       solverHeap w !! s1 = None /\
       is_Some (solverHeap w' !! s1)).
Proof.
  intros Hwf Hrun1. rewrite realizeConstruction_run in Hrun1.
  destruct (sizes (nodeHeap w) (base_to_tip (this w)) (0, 0, 0)%Z)
    as [[[d sq] q]|] eqn:Hs; [|done].
  injection Hrun1 as <-.
  set (s1 := fresh (dom (solverHeap w))).
  assert (solverHeap w !! s1 = None) as Hfresh1
    by apply not_elem_of_dom, is_fresh.
  set (w1 := constructed ctol verbose (d, sq, q) w).
  set (lc1 := mkLengthConstraints ctol verbose
                (distanceConstraints (this w)) (dcRuntimeInfo (this w))).
  assert (levels_wf w1) as Hwf1 by exact Hwf.
  assert (lConstraints (this w1) = Some s1) as Hl1 by reflexivity.
  assert (solverHeap w1 = <[s1 := lc1]> (solverHeap w)) as Hh1 by reflexivity.
  split.
  - destruct (destroy_run w1 (delete s1 (solverHeap w1)) Hwf1)
      as (w' & Hrun & _ & _ & Hsh).
    { rewrite Hl1, Hh1. simpl. by rewrite lookup_insert_eq. }
    exists w'. split; [exact Hrun|].
    rewrite Hsh, Hh1. by apply delete_insert_id.
  - intros ctol' verbose' w2 Hrun2. rewrite realizeConstruction_run in Hrun2.
    change (sizes _ _ _)
      with (sizes (nodeHeap w) (base_to_tip (this w)) (0, 0, 0)%Z) in Hrun2.
    rewrite Hs in Hrun2. injection Hrun2 as <-.
    set (s2 := fresh (dom (solverHeap w1))).
    assert (solverHeap w1 !! s2 = None) as Hfresh2
      by apply not_elem_of_dom, is_fresh.
    assert (is_Some (solverHeap w1 !! s1)) as Hlive1.
    { rewrite Hh1, lookup_insert_eq. eauto. }
    assert (s2 <> s1) as Hne.
    { intros E. rewrite E in Hfresh2. destruct Hlive1. congruence. }
    set (w2 := constructed ctol' verbose' (d, sq, q) w1).
    set (lc2 := mkLengthConstraints ctol' verbose'
                  (distanceConstraints (this w1)) (dcRuntimeInfo (this w1))).
    assert (levels_wf w2) as Hwf2 by exact Hwf.
    assert (lConstraints (this w2) = Some s2) as Hl2 by reflexivity.
    assert (solverHeap w2 = <[s2 := lc2]> (solverHeap w1)) as Hh2 by reflexivity.
    destruct (destroy_run w2 (delete s2 (solverHeap w2)) Hwf2)
      as (w' & Hrun & _ & _ & Hsh).
    { rewrite Hl2, Hh2. simpl. by rewrite lookup_insert_eq. }
    exists w', s1. split; [exact Hrun|]. split; [done|]. split; [done|].
    rewrite Hsh, Hh2.
    rewrite lookup_delete_ne by done. by rewrite lookup_insert_ne.
Qed.

(** *** Before finalisation *)

Lemma for_constraints_frame stage l w w' :
  for_constraints l (constraint_stage stage) w = Ok (tt, w') ->
  lConstraints (this w') = lConstraints (this w) /\ solverHeap w' = solverHeap w.
Proof.
  revert w. induction l as [|dc l IH]; intros w; simpl.
  - by intros [= <-].
  - unfold bind at 1.
    destruct (constraint_stage stage dc w) as [[[] w1]| |] eqn:Hstep; [|done|done].
    intros Hrest. apply IH in Hrest as [H1 H2]. rewrite H1, H2.
    revert Hstep.
    unfold constraint_stage, bind, getThis, get, defined, lift_outcome,
      modifyThis, modify, ret, undefined.
    destruct (vec_at (dcRuntimeInfo (this w)) (runtimeIndex dc)) as [rt|]; [|done].
    simpl. destruct (stage (node_view w) isValid dc rt) as [rt'| |]; [|done|done].
    simpl. by intros [= <-].
Qed.

Lemma calcTreeForwardDynamics_frame forces w w' :
  calcTreeForwardDynamics forces w = Ok (tt, w') ->
  lConstraints (this w') = lConstraints (this w) /\ solverHeap w' = solverHeap w.
Proof.
  unfold calcTreeForwardDynamics, calcZ, calcTreeAccel.
  unfold bind at 1.
  rewrite (sweep_down_logging _ _ _ (with_own_force_logging forces NCalcZ)).
  destruct (collect _ _) as [esZ|]; [|done].
  unfold bind at 1.
  rewrite (sweep_up_logging _ _ _ (node_call_logging NCalcAccel)).
  destruct (collect _ _) as [esA|]; [|done].
  unfold all_constraints, bind, getThis. intros Hrun.
  by apply for_constraints_frame in Hrun.
Qed.

(** X18. Before [realizeConstruction] the solver pointer is null:
    [calcLoopForwardDynamics] then never returns normally.  Where its first
    pass goes through, it dereferences the null pointer. *)
Theorem calcLoopForwardDynamics_before_construction w spatialForces :
  lConstraints (this w) = None ->
  (forall w', calcLoopForwardDynamics spatialForces w <> Ok (tt, w')) /\
  (forall forces,
     forceLists w !! spatialForces = Some forces ->
     nums_wf w -> constraints_ok w ->
     (getNBodies (this w) <= length forces)%nat ->
     calcLoopForwardDynamics spatialForces w = Undefined).
Proof.
  intros Hnull.
  assert (forall v : World, lConstraints (this v) = None ->
            lConstraints_calcConstraintForces v = Undefined) as Hderef.
  { intros v Hv. unfold lConstraints_calcConstraintForces, bind, solver_deref.
    by rewrite Hv. }
  split.
  - intros w'. unfold calcLoopForwardDynamics.
    unfold bind at 1, read_list at 1.
    destruct (forceLists w !! spatialForces) as [forces|]; [|done]. simpl.
    unfold bind at 1, local_list, cxx_new.
    set (w0 := set_forceLists _ w).
    unfold bind at 1. unfold bind at 1, read_list at 1.
    destruct (forceLists w0 !! fresh (dom (forceLists w))) as [f|]; [|done]. simpl.
    destruct (calcTreeForwardDynamics f w0) as [[[] w1]| |] eqn:Hrun; [|done|done].
    apply calcTreeForwardDynamics_frame in Hrun as [Hl _].
    unfold bind at 1. rewrite Hderef; [done|]. by rewrite Hl.
  - intros forces Hcaller Hnum Hok Hlen. unfold calcLoopForwardDynamics.
    unfold bind at 1, read_list at 1. rewrite Hcaller. simpl.
    unfold bind at 1, local_list, cxx_new.
    set (w0 := set_forceLists _ w).
    unfold bind at 1. unfold bind at 1, read_list at 1.
    assert (forceLists w0 !! fresh (dom (forceLists w)) = Some forces) as ->
      by (subst w0; simpl; apply lookup_insert_eq).
    simpl.
    destruct (calcTreeForwardDynamics_run w0 forces Hnum Hok Hlen) as (rts & Hrun & _).
    rewrite Hrun. unfold bind at 1. by rewrite Hderef.
Qed.

End RigidBodyTree.
End Tree.

(** * Scenarios: the theorems at concrete inputs *)
Module Scenarios.
Import Kinematics Tree.

(** ** A chain of two bodies on ground

    The scalar type is binary64; forces are tagged by integers so that the
    log shows which entry each node was handed; the solver always asks for a
    correction and adds one to every force. *)
Abbreviation W := (@World float Z unit unit).

Definition rest : NodeKinematics float :=
  mkNodeKinematics
    (mkMat33 (mkVec3 1 0 0) (mkVec3 0 1 0) (mkVec3 0 0 1))%float
    (mkVec3 0 0 0)%float (mkVec3 0 0 0)%float (mkVec3 0 0 0)%float
    (mkVec3 0 0 0)%float (mkVec3 0 0 0)%float.

Definition kin (_ : list (@Event Z unit)) (_ : loc) : NodeKinematics float := rest.
Definition always_correct (_ : list (@Event Z unit)) : bool := true.
Definition add_one (_ : list (@Event Z unit)) (l : list Z) : list Z := map Z.succ l.
Definition valid (_ : RBDistanceConstraint float) : bool := true.

(** A node as its creator leaves it: one degree of freedom, in no tree. *)
Definition body : @RigidBodyNode unit := mkRigidBodyNode (-1) (-1) 1 1 None None [].

(** Two fresh bodies at addresses 10 and 11, and at address 12 a node at
    level 3 of some other tree; the caller's force list is at address 1. *)
Definition w_init : W :=
  mkWorld (mkRigidBodyTree [] [] [] [] None 0 0 0)
          (<[10%positive := body]>
             (<[11%positive := body]>
                (<[12%positive := setLevel 3 body]> ∅)))
          ∅
          (<[1%positive := [100; 101; 102]%Z]> ∅)
          [].

Definition after {A} (c : M W A) (w : W) : W :=
  match c w with
  | Ok (_, w') => w'
  | _ => w
  end.

(** The ground node is allocated at address 13. *)
Definition w_ground : W := after addGroundNode w_init.
Definition w_one : W := after (addRigidBodyNode 13 tt 10) w_ground.
Definition w_chain : W := after (addRigidBodyNode 10 tt 11) w_one.

Definition rt0 : RBDistanceConstraintRuntime float :=
  let z := mkVec3 0%float 0%float 0%float in
  let s := mkRBStationRuntime z z z z z in
  mkRBDistanceConstraintRuntime s s z z z 0%float 0%float 0%float.

Definition w_constrained : W :=
  after (addDistanceConstraint rt0 (mkRBStation 10 (mkVec3 0 0 0)%float)
           (mkRBStation 11 (mkVec3 1 0 0)%float) 1%float) w_chain.
Definition w_ready : W := after (realizeConstruction 0%float 0) w_constrained.

Lemma w_ground_run : addGroundNode w_init = Ok (tt, w_ground).
Proof. vm_compute. reflexivity. Qed.

Lemma w_one_run : addRigidBodyNode 13 tt 10 w_ground = Ok (1%Z, w_one).
Proof. vm_compute. reflexivity. Qed.

Lemma w_chain_run : addRigidBodyNode 10 tt 11 w_one = Ok (2%Z, w_chain).
Proof. vm_compute. reflexivity. Qed.

Lemma w_ground_wf : levels_wf w_ground /\ nums_wf w_ground /\ links_wf w_ground.
Proof.
  destruct (addGroundNode_wf w_init) as (w' & g & Hrun & Hl & Hn & Hk & _).
  { split; reflexivity. }
  rewrite w_ground_run in Hrun.
  assert (w' = w_ground) as -> by congruence.
  split; [exact Hl|]. split; [exact Hn|exact Hk].
Qed.

Lemma w_one_wf : levels_wf w_one /\ nums_wf w_one /\ links_wf w_one.
Proof.
  destruct w_ground_wf as (Hl & Hn & Hk).
  destruct (addRigidBodyNode_wf w_ground 13 tt 10
              (mkRigidBodyNode 0 0 0 0 None None []) body Hl Hn)
    as (w' & Hrun & Hl' & Hn' & _ & _ & Hk').
  { vm_compute. reflexivity. }
  { vm_compute. reflexivity. }
  { unfold in_tree. vm_compute. by inversion 1 as [|? ? ? Hin]; inversion Hin. }
  { vm_compute. discriminate. }
  { vm_compute. discriminate. }
  rewrite w_one_run in Hrun.
  assert (w' = w_one) as -> by congruence.
  split; [exact Hl'|]. split; [exact Hn'|]. apply Hk'; [exact Hk|].
  unfold in_tree. vm_compute. by left.
Qed.

Lemma w_chain_wf : levels_wf w_chain /\ nums_wf w_chain /\ links_wf w_chain.
Proof.
  destruct w_one_wf as (Hl & Hn & Hk).
  destruct (addRigidBodyNode_wf w_one 10 tt 11
              (mkRigidBodyNode 1 1 1 1 (Some 13%positive) (Some tt) []) body Hl Hn)
    as (w' & Hrun & Hl' & Hn' & _ & _ & Hk').
  { vm_compute. reflexivity. }
  { vm_compute. reflexivity. }
  { unfold in_tree. vm_compute.
    intros Hin. repeat (inversion Hin as [|? ? ? Hin']; clear Hin; rename Hin' into Hin). }
  { vm_compute. discriminate. }
  { vm_compute. discriminate. }
  rewrite w_chain_run in Hrun.
  assert (w' = w_chain) as -> by congruence.
  split; [exact Hl'|]. split; [exact Hn'|]. apply Hk'; [exact Hk|].
  unfold in_tree. vm_compute. right. by left.
Qed.


Lemma w_ready_frame :
  nodeHeap w_ready = nodeHeap w_chain /\
  rbNodeLevels (this w_ready) = rbNodeLevels (this w_chain) /\
  nodeNum2NodeMap (this w_ready) = nodeNum2NodeMap (this w_chain).
Proof. repeat split; vm_compute; reflexivity. Qed.

Lemma w_ready_nums : nums_wf w_ready.
Proof.
  destruct w_ready_frame as (Hh & Hl & Hm).
  apply (wf_frame w_chain w_ready Hh Hl Hm), w_chain_wf.
Qed.

Lemma w_ready_constraints : constraints_ok valid w_ready.
Proof.
  unfold constraints_ok.
  replace (distanceConstraints (this w_ready))
    with [mkRBDistanceConstraint 1%float 0 (mkRBStation 10 (mkVec3 0 0 0)%float)
            (mkRBStation 11 (mkVec3 1 0 0)%float)]
    by (vm_compute; reflexivity).
  apply Forall_singleton.
  split; [done|]. split; [vm_compute; by split|].
  split; vm_compute; eauto.
Qed.

(** C1 at the chain: node 11 (level 2) is handed to [calcP] and [calcZ]
    before the ground node 13 (level 0). *)
Lemma tip_to_base_sweeps_by_level_witness :
  exists esZ,
    calcP w_chain =
      Ok (tt, log_all (map (fun p => EvNode p NCalcP) (tip_to_base (this w_chain)))
                w_chain) /\
    calcZ [100; 101; 102]%Z w_chain = Ok (tt, log_all esZ w_chain) /\
    processed_before (tip_to_base (this w_chain)) 11 13.
Proof.
  destruct w_chain_wf as (Hl & Hn & Hk).
  destruct (tip_to_base_sweeps_by_level w_chain [100; 101; 102]%Z Hl Hn Hk)
    as (esZ & HP & HZ & _ & _ & _ & Hord & _).
  { vm_compute. lia. }
  exists esZ. split; [exact HP|]. split; [exact HZ|].
  eapply (Hord 11%positive 13%positive).
  - unfold in_tree. vm_compute. right. right. by left.
  - unfold in_tree. vm_compute. by left.
  - vm_compute. reflexivity.
  - vm_compute. reflexivity.
  - vm_compute. reflexivity.
Defined.

(** C10 at the chain: three forces are enough, one is not. *)
Lemma spatial_force_access_witness :
  (exists esZ esF,
     calcZ [100; 101; 102]%Z w_chain = Ok (tt, log_all esZ w_chain) /\
     calcTreeInternalForces [100; 101; 102]%Z w_chain = Ok (tt, log_all esF w_chain)) /\
  calcZ [100]%Z w_chain = Undefined.
Proof.
  destruct w_chain_wf as (_ & Hn & _).
  destruct (spatial_force_access w_chain [100; 101; 102]%Z Hn) as (Hin & _ & _).
  destruct (spatial_force_access w_chain [100]%Z Hn) as (_ & Hout & _).
  split.
  - destruct Hin as (esZ & esF & HZ & HF & _); [vm_compute; lia|].
    exists esZ, esF. split; [exact HZ|exact HF].
  - apply Hout. vm_compute. lia.
Defined.

(** C2 at the chain with one constraint: the caller's list at address 1 is
    unchanged after the corrected second pass. *)
Lemma calcLoopForwardDynamics_single_correction_witness :
  exists w',
    calcLoopForwardDynamics kin always_correct add_one valid 1 w_ready = Ok (tt, w') /\
    forceLists w' !! 1%positive = Some [100; 101; 102]%Z.
Proof.
  destruct (calcLoopForwardDynamics_single_correction kin always_correct add_one
              valid w_ready 1 [100; 101; 102]%Z 1 w_ready_nums w_ready_constraints)
    as (w' & Hrun & _ & _ & Hcaller & _).
  - vm_compute. reflexivity.
  - vm_compute. eauto.
  - vm_compute. reflexivity.
  - vm_compute. lia.
  - intros h l. unfold add_one. apply length_map.
  - exists w'. by split.
Defined.

(** C6: on the chain the second call of [realizeConstruction] is accepted. *)
Lemma realizeConstruction_second_call_accepted :
  exists w1 w2,
    realizeConstruction 0%float 0 w_chain = Ok (tt, w1) /\
    realizeConstruction 0%float 0 w1 = Ok (tt, w2) /\
    lConstraints (this w1) = Some 1%positive /\
    lConstraints (this w2) = Some 2%positive.
Proof.
  eexists _, _. split; [vm_compute; reflexivity|].
  split; [vm_compute; reflexivity|]. split; vm_compute; reflexivity.
Qed.

Lemma realizeConstruction_twice_witness :
  realizeConstruction 0%float 0 w_chain <> AssertFail /\
  exists w2,
    realizeConstruction 1%float 1 (after (realizeConstruction 0%float 0) w_chain)
      = Ok (tt, w2) /\
    totals w2 = (2, 2, 2)%Z.
Proof.
  destruct (realizeConstruction_twice w_chain 0%float 0 1%float 1) as [Hno Htwice].
  split; [exact Hno|].
  destruct (Htwice (after (realizeConstruction 0%float 0) w_chain))
    as (w2 & s1 & s2 & Hrun & Htot & _).
  - vm_compute. reflexivity.
  - exists w2. split; [exact Hrun|]. rewrite Htot. vm_compute. reflexivity.
Defined.

(** C7: node 12 is not in the tree, yet node 10 is added under it. *)
Lemma addRigidBodyNode_foreign_parent_accepted :
  ~ in_tree w_ground 12 /\
  exists w',
    addRigidBodyNode 12 tt 10 w_ground = Ok (1%Z, w') /\
    in_tree w' 10 /\
    rbNodeLevels (this w') = [[13%positive]; []; []; []; [10%positive]].
Proof.
  split.
  - unfold in_tree. vm_compute.
    by inversion 1 as [|? ? ? Hin]; inversion Hin.
  - eexists. split; [vm_compute; reflexivity|].
    split; [|vm_compute; reflexivity].
    unfold in_tree. vm_compute. right. by left.
Qed.

Lemma addRigidBodyNode_any_parent_witness :
  exists w' n',
    addRigidBodyNode 12 tt 10 w_ground = Ok (1%Z, w') /\
    nodeHeap w' !! 10%positive = Some n' /\ level n' = 4%Z.
Proof.
  destruct (addRigidBodyNode_any_parent w_ground 12 tt 10 (setLevel 3 body) body)
    as (w' & n' & Hrun & _ & _ & Hn' & Hl & _).
  - vm_compute. reflexivity.
  - vm_compute. reflexivity.
  - vm_compute. discriminate.
  - vm_compute. discriminate.
  - exists w', n'. split; [exact Hrun|]. split; [exact Hn'|exact Hl].
Defined.

(** ** A distance constraint in binary64 *)

Definition nodes_f : gmap loc (NodeKinematics float) :=
  <[10%positive := rest]> (<[11%positive := rest]> ∅).

Definition dc_unit : RBDistanceConstraint float :=
  mkRBDistanceConstraint 1%float 0
    (mkRBStation 10 (mkVec3 0 0 0)%float) (mkRBStation 11 (mkVec3 1 0 0)%float).

(** Both stations at the point (1,2,3) of the same body. *)
Definition dc_coincident : RBDistanceConstraint float :=
  mkRBDistanceConstraint 0%float 0
    (mkRBStation 10 (mkVec3 1 2 3)%float) (mkRBStation 10 (mkVec3 1 2 3)%float).

(** Body 11 spins about the z axis at unit rate and is pushed along x. *)
Definition spinning : NodeKinematics float :=
  mkNodeKinematics
    (mkMat33 (mkVec3 1 0 0) (mkVec3 0 1 0) (mkVec3 0 0 1))%float
    (mkVec3 0 0 0)%float (mkVec3 0 0 1)%float (mkVec3 0 0 0)%float
    (mkVec3 0 0 0)%float (mkVec3 2 0 0)%float.

Definition nodes_moving : gmap loc (NodeKinematics float) :=
  <[10%positive := rest]> (<[11%positive := spinning]> ∅).

(** C4 with body 11 moving: the station at (1,0,0) has velocity (0,1,0) and
    acceleration (2,0,0) + (-1,0,0); the acceleration error is 1 + 1. *)
Lemma calcAccInfo_literal_formula_witness :
  exists rtP rtV rtA,
    calcPosInfo nodes_moving valid dc_unit rt0 = Ok rtP /\
    calcVelInfo nodes_moving valid dc_unit rtP = Ok rtV /\
    calcAccInfo nodes_moving valid dc_unit rtV = Ok rtA /\
    vel_G (stationRuntimes1 rtA) = (mkVec3 0 1 0)%float /\
    acc_G (stationRuntimes1 rtA) = (mkVec3 1 0 0)%float /\
    accErr rtA = 2%float.
Proof.
  destruct (calcAccInfo_literal_formula nodes_moving nodes_moving nodes_moving
              valid dc_unit rt0 rest spinning rest spinning rest spinning)
    as (rtP & rtV & rtA & HP & HV & HA & _ & _ & _ & Hvel & _ & Hacc & _ & Herr).
  - reflexivity.
  - simpl. lia.
  - vm_compute. reflexivity.
  - vm_compute. reflexivity.
  - vm_compute. reflexivity.
  - vm_compute. reflexivity.
  - vm_compute. reflexivity.
  - vm_compute. reflexivity.
  - exists rtP, rtV, rtA. split; [exact HP|]. split; [exact HV|].
    split; [exact HA|].
    rewrite Hvel, Hacc, Herr. split; [|split]; vm_compute; reflexivity.
Defined.

(** C8: coincident stations go through the unguarded division; the call
    returns normally and the unit direction is NaN in every component. *)
Lemma calcPosInfo_zero_separation_nan :
  exists rt',
    calcPosInfo nodes_f valid dc_coincident rt0 = Ok rt' /\
    norm (fromTip1ToTip2_G rt') = 0%float /\
    nan_vec (unitDirection_G rt') = true.
Proof.
  eexists. split; [vm_compute; reflexivity|].
  split; vm_compute; reflexivity.
Qed.

Lemma calcPosInfo_coincident_stations_witness :
  exists rt',
    calcPosInfo nodes_f valid dc_coincident rt0 = Ok rt' /\
    unitDirection_G rt' = mkVec3 nan nan nan.
Proof.
  destruct (calcPosInfo_coincident_stations nodes_f valid dc_coincident rt0 rest rest)
    as (rt' & Hrun & _ & Hunit & _).
  - reflexivity.
  - simpl. lia.
  - vm_compute. reflexivity.
  - vm_compute. reflexivity.
  - reflexivity.
  - vm_compute. reflexivity.
  - exists rt'. by split.
Defined.

(** ** The position error in binary64 *)






(** ** A state container with variables and no cache *)

Definition m0 : @SBStateModel.Memory nat nat :=
  SBStateModel.mkMemory
    {[ 1%positive := 7%nat ]} ∅
    (<[1%positive := SBStateModel.mkSBState (Some 1%positive) None]>
       (<[2%positive := SBStateModel.mkSBState None None]> ∅)).

Lemma m0_owned : SBStateModel.owned m0.
Proof.
  split.
  - intros a s Ha. simpl in Ha.
    apply lookup_insert_Some in Ha as [[<- <-]|[_ Ha]].
    + split; intros p; simpl; [|done]. intros [= <-]. vm_compute. eauto.
    + apply lookup_insert_Some in Ha as [[<- <-]|[_ Ha]]; [by split|].
      by rewrite lookup_empty in Ha.
  - intros a b s t Hab Ha Hb. simpl in Ha, Hb.
    apply lookup_insert_Some in Ha as [[<- <-]|[Ha1 Ha]];
      apply lookup_insert_Some in Hb as [[<- <-]|[Hb1 Hb]]; try done.
    + apply lookup_insert_Some in Hb as [[<- <-]|[_ Hb]]; [by split|].
      by rewrite lookup_empty in Hb.
    + apply lookup_insert_Some in Ha as [[<- <-]|[_ Ha]]; [by split|].
      by rewrite lookup_empty in Ha.
    + apply lookup_insert_Some in Ha as [[<- <-]|[_ Ha]];
        apply lookup_insert_Some in Hb as [[<- <-]|[_ Hb]]; try done;
        by rewrite lookup_empty in *.
Qed.

Lemma SBState_copy_is_deep_witness :
  (exists dst m', SBStateModel.SBState_copy 1 m0 = Ok (dst, m') /\ dst <> 1%positive /\
                  SBStateModel.deep_copy m0 1 m' dst) /\
  (exists m', SBStateModel.SBState_assign 2 1 m0 = Ok (tt, m') /\
              SBStateModel.deep_copy m0 1 m' 2).
Proof.
  destruct (SBStateModel.SBState_copy_is_deep m0 1
              (SBStateModel.mkSBState (Some 1%positive) None) m0_owned)
    as [Hcopy Hassign].
  - reflexivity.
  - split; [exact Hcopy|].
    apply (Hassign 2%positive (SBStateModel.mkSBState None None)); [done|].
    reflexivity.
Defined.


(** ** The extended properties at the scenarios *)

Lemma m0_no_garbage : SBStateModel.no_garbage m0.
Proof.
  split.
  - intros p [x Hp]. simpl in Hp. apply lookup_singleton_Some in Hp as [<- _].
    exists 1%positive, (SBStateModel.mkSBState (Some 1%positive) None).
    split; reflexivity.
  - intros p [x Hp]. simpl in Hp. by rewrite lookup_empty in Hp.
Qed.

(** Copying container 1 of [m0], and assigning it to container 2, leaves a
    memory in which every member object still has exactly one owner. *)
Lemma SBState_copies_keep_ownership_witness :
  (exists dst m', SBStateModel.SBState_copy 1 m0 = Ok (dst, m') /\
                  SBStateModel.owned m' /\ SBStateModel.no_garbage m') /\
  (exists m', SBStateModel.SBState_assign 2 1 m0 = Ok (tt, m') /\
              SBStateModel.owned m' /\ SBStateModel.no_garbage m').
Proof.
  destruct (SBStateModel.SBState_copies_keep_ownership m0 1
              (SBStateModel.mkSBState (Some 1%positive) None)
              m0_owned m0_no_garbage)
    as [Hcopy Hassign].
  - reflexivity.
  - split; [exact Hcopy|].
    apply (Hassign 2%positive (SBStateModel.mkSBState None None)).
    + discriminate.
    + reflexivity.
Defined.

Lemma SBState_copy_then_destroy_witness :
  exists dst m',
    SBStateModel.SBState_copy 1 m0 = Ok (dst, m') /\
    SBStateModel.SBState_destroy dst m' = Ok (tt, m0).
Proof.
  apply (SBStateModel.SBState_copy_then_destroy m0 1
           (SBStateModel.mkSBState (Some 1%positive) None) m0_owned).
  reflexivity.
Defined.

(** Two containers that point to the same variables object. *)
Definition m_shared : @SBStateModel.Memory nat nat :=
  SBStateModel.mkMemory
    {[ 1%positive := 7%nat ]} ∅
    (<[1%positive := SBStateModel.mkSBState (Some 1%positive) None]>
       (<[2%positive := SBStateModel.mkSBState (Some 1%positive) None]> ∅)).

Lemma SBState_assign_shared_member_witness :
  SBStateModel.SBState_assign 2 1 m_shared = Undefined.
Proof.
  apply (SBStateModel.SBState_assign_shared_member m_shared 2 1
           (SBStateModel.mkSBState (Some 1%positive) None)
           (SBStateModel.mkSBState (Some 1%positive) None) 1).
  - discriminate.
  - reflexivity.
  - reflexivity.
  - left. split; reflexivity.
Defined.

Lemma addGroundNode_only_once_witness : addGroundNode w_ground = AssertFail.
Proof.
  destruct (addGroundNode_only_once w_init) as [_ Hsecond].
  destruct (Hsecond w_ground w_ground_run) as [_ Hfail].
  exact Hfail.
Defined.

(** Address 99 is not allocated. *)
Lemma addRigidBodyNode_checks_nothing_witness :
  addRigidBodyNode 99 tt 10 w_ground = Undefined /\
  addRigidBodyNode 13 tt 99 w_ground = Undefined.
Proof.
  destruct (addRigidBodyNode_checks_nothing w_ground 99 tt 10) as (_ & Hpar & _).
  destruct (addRigidBodyNode_checks_nothing w_ground 13 tt 99) as (_ & _ & Hnode & _).
  split.
  - apply Hpar. vm_compute. reflexivity.
  - apply Hnode. vm_compute. reflexivity.
Defined.

Lemma w_ground_index : index_wf w_ground.
Proof.
  destruct (addGroundNode_index w_init) as (w0 & g & Hrun & _ & Hix).
  { split; reflexivity. }
  rewrite w_ground_run in Hrun.
  assert (w0 = w_ground) as -> by congruence.
  exact Hix.
Qed.

Lemma addRigidBodyNode_number_finds_node_witness :
  exists w',
    addRigidBodyNode 13 tt 10 w_ground = Ok (1%Z, w') /\
    node_at (this w') 1 = Some 10%positive /\
    node_at (this w') 0 = Some 13%positive.
Proof.
  destruct (addRigidBodyNode_number_finds_node w_ground 13 tt 10
              (mkRigidBodyNode 0 0 0 0 None None []) body w_ground_index)
    as (w' & Hrun & Hnew & Hold & _).
  - vm_compute. reflexivity.
  - vm_compute. reflexivity.
  - unfold in_tree. vm_compute. by inversion 1 as [|? ? ? Hin]; inversion Hin.
  - vm_compute. discriminate.
  - vm_compute. discriminate.
  - exists w'. split; [exact Hrun|]. split; [exact Hnew|].
    apply Hold. vm_compute. reflexivity.
Defined.

Lemma construction_keeps_tree_well_formed_witness :
  exists w' g,
    addGroundNode w_init = Ok (tt, w') /\
    levels_wf w' /\ nums_wf w' /\ links_wf w' /\
    (forall p, in_tree w' p <-> p = g).
Proof.
  destruct (construction_keeps_tree_well_formed w_init) as [Hground _].
  apply Hground. split; reflexivity.
Defined.

Lemma w_chain_indexed : constraints_indexed w_chain.
Proof.
  split; [reflexivity|].
  intros i dc Hi. vm_compute in Hi. discriminate.
Qed.

Lemma w_ready_indexed : constraints_indexed w_ready.
Proof.
  split; [reflexivity|].
  intros i dc Hi. destruct i as [|i].
  - vm_compute in Hi. injection Hi as <-. reflexivity.
  - vm_compute in Hi. discriminate.
Qed.

Lemma addDistanceConstraint_indexed_witness :
  exists w',
    addDistanceConstraint rt0 (mkRBStation 10 (mkVec3 0 0 0)%float)
      (mkRBStation 11 (mkVec3 1 0 0)%float) 1%float w_chain = Ok (0%Z, w') /\
    dcRuntimeInfo (this w') !! 0%nat = Some rt0 /\
    constraints_indexed w'.
Proof.
  destruct (addDistanceConstraint_indexed rt0 (mkRBStation 10 (mkVec3 0 0 0)%float)
              (mkRBStation 11 (mkVec3 1 0 0)%float) 1%float w_chain w_chain_indexed)
    as (w' & Hrun & _ & Hrt & _ & Hix & _).
  exists w'. split; [exact Hrun|]. split; [exact Hrt|exact Hix].
Defined.

(** On the constrained chain each realization stage goes through and leaves
    one runtime record. *)
Lemma realizeConfiguration_run_witness :
  exists w' rt,
    realizeConfiguration kin valid tt w_ready = Ok (tt, w') /\
    dcRuntimeInfo (this w') = [rt].
Proof.
  destruct (realizeConfiguration_run kin valid tt w_ready
              w_ready_nums w_ready_constraints w_ready_indexed)
    as (rts & Hrun & Hlen & _).
  destruct rts as [|rt [|? ?]]; [discriminate Hlen| |discriminate Hlen].
  eexists _, rt. split; [exact Hrun|]. reflexivity.
Defined.

Lemma realizeVelocity_run_witness :
  exists w' rt,
    realizeVelocity kin valid tt w_ready = Ok (tt, w') /\
    dcRuntimeInfo (this w') = [rt].
Proof.
  destruct (realizeVelocity_run kin valid tt w_ready
              w_ready_nums w_ready_constraints w_ready_indexed)
    as (rts & Hrun & Hlen & _).
  destruct rts as [|rt [|? ?]]; [discriminate Hlen| |discriminate Hlen].
  eexists _, rt. split; [exact Hrun|]. reflexivity.
Defined.

Lemma calcTreeForwardDynamics_stage_witness :
  (exists w', calcTreeForwardDynamics kin valid [100; 101; 102]%Z w_ready
                = Ok (tt, w')) /\
  calcTreeForwardDynamics kin valid [100]%Z w_ready = Undefined.
Proof.
  destruct (calcTreeForwardDynamics_stage kin valid [100; 101; 102]%Z w_ready
              w_ready_nums w_ready_constraints w_ready_indexed) as [Hin _].
  destruct (calcTreeForwardDynamics_stage kin valid [100]%Z w_ready
              w_ready_nums w_ready_constraints w_ready_indexed) as [_ Hout].
  split.
  - destruct Hin as (rts & Hrun & _); [vm_compute; lia|].
    eexists. exact Hrun.
  - apply Hout. vm_compute. lia.
Defined.

(** The ground node 13 (level 0) is handed to [calcY] and [calcAccel] before
    node 11 (level 2). *)
Lemma base_to_tip_sweeps_by_level_witness :
  calcY w_chain =
    Ok (tt, log_all (map (fun p => EvNode p NCalcY) (base_to_tip (this w_chain)))
              w_chain) /\
  processed_before (base_to_tip (this w_chain)) 13 11.
Proof.
  destruct w_chain_wf as (Hl & Hn & Hk).
  destruct (base_to_tip_sweeps_by_level w_chain Hl Hn Hk)
    as (HY & _ & _ & Hord & _).
  split; [exact HY|].
  eapply (Hord 13%positive 11%positive).
  - unfold in_tree. vm_compute. by left.
  - unfold in_tree. vm_compute. right. right. by left.
  - vm_compute. reflexivity.
  - vm_compute. reflexivity.
  - vm_compute. reflexivity.
Defined.

(** The chain has two bodies of one degree of freedom and the ground. *)
Lemma realizeConstruction_totals_witness :
  totals (after (realizeConstruction 0%float 0) w_chain) = (2, 2, 2)%Z.
Proof.
  destruct (realizeConstruction_totals 0%float 0 w_chain) as [Hval _].
  rewrite (Hval (after (realizeConstruction 0%float 0) w_chain)).
  - vm_compute. reflexivity.
  - vm_compute. reflexivity.
Defined.

(** Destroying the chain releases its nodes; the foreign node 12 stays. *)
Lemma destroy_releases_tree_witness :
  exists w',
    destroy w_chain = Ok (tt, w') /\
    nodeHeap w' !! 10%positive = None /\
    nodeHeap w' !! 12%positive = Some (setLevel 3 body).
Proof.
  destruct w_chain_wf as (Hl & _ & _).
  destruct (destroy_releases_tree w_chain Hl) as (w' & Hrun & _ & Hin & Hout & _).
  - intros s Hs. vm_compute in Hs. discriminate.
  - exists w'. split; [exact Hrun|]. split.
    + apply Hin. unfold in_tree. vm_compute. right. by left.
    + rewrite Hout; [vm_compute; reflexivity|].
      unfold in_tree. vm_compute.
      intros Hc. repeat (inversion Hc as [|? ? ? Hc']; clear Hc; rename Hc' into Hc).
Defined.

Lemma destroy_after_realizeConstruction_witness :
  exists w',
    destroy (after (realizeConstruction 0%float 0) w_chain) = Ok (tt, w') /\
    solverHeap w' = solverHeap w_chain.
Proof.
  destruct w_chain_wf as (Hl & _ & _).
  destruct (destroy_after_realizeConstruction w_chain 0%float 0
              (after (realizeConstruction 0%float 0) w_chain) Hl)
    as [Hone _].
  - vm_compute. reflexivity.
  - exact Hone.
Defined.

Lemma calcLoopForwardDynamics_before_construction_witness :
  calcLoopForwardDynamics kin always_correct add_one valid 1 w_chain = Undefined.
Proof.
  destruct w_chain_wf as (_ & Hn & _).
  destruct (calcLoopForwardDynamics_before_construction kin always_correct add_one
              valid w_chain 1) as [_ Hundef].
  - reflexivity.
  - apply (Hundef [100; 101; 102]%Z).
    + vm_compute. reflexivity.
    + exact Hn.
    + unfold constraints_ok.
      replace (distanceConstraints (this w_chain))
        with (@nil (RBDistanceConstraint float)) by (vm_compute; reflexivity).
      constructor.
    + vm_compute. lia.
Defined.

End Scenarios.
